(** * opt.LinIpm: primal-dual interior-point method for linear programs

    Shallow embedding of [src/opt/linipm.go] (package [opt] of gosl) and
    the properties of its natural-language specification.

    The Go struct [LinIpm] becomes a record, the in-place mutation of the
    receiver [o] becomes explicit state passing, the slices [X], [L], [S]
    (and their mirrors in [Mdy] and [R]) stay what they are in Go: windows
    on a shared backing array.  Go's [float64] enters through the interface
    [Float64], so that the same embedding runs on IEEE binary64 numbers and
    can be reasoned about in exact arithmetic.  Packages [la] (sparse
    matrices, dense solve, linear-solver backend) and [math] are outside
    [linipm.go]; they enter as the interface [LinAlg] and as fields of
    [Float64]. *)

From Stdlib Require Import ZArith QArith Qabs Floats Uint63 String Lia Lqa.
From stdpp Require Import base list.

Local Open Scope string_scope.
Local Open Scope list_scope.
Local Open Scope Z_scope.
Local Open Scope nat_scope.

(** ** Numbers *)

(** Go's [float64] with the operators, conversions and [math] functions
    that [linipm.go] applies to it.  [f_lit q] is the constant written [q]
    in the source ([1.0] and [1] are one constant, written [#1]). *)
Class Float64 (F : Type) := {
  f_lit : Q -> F;
  f_add : F -> F -> F;
  f_sub : F -> F -> F;
  f_mul : F -> F -> F;
  f_div : F -> F -> F;
  f_ltb : F -> F -> bool;
  f_of_int : Z -> F;
  f_to_int : F -> Z;
  Abs : F -> F;
  Pow : F -> F -> F
}.

(** [⊕], [⊖], [⊗], [⊘] are Go's [+], [-], [*], [/] on [float64] (each
    rounds its result), [≺] is its [<], and [#q] the constant [q]. *)
Declare Scope go_scope.
Delimit Scope go_scope with go.
Infix "⊕" := f_add (at level 50, left associativity) : go_scope.
Infix "⊖" := f_sub (at level 50, left associativity) : go_scope.
Infix "⊗" := f_mul (at level 40, left associativity) : go_scope.
Infix "⊘" := f_div (at level 40, left associativity) : go_scope.
Infix "≺" := f_ltb (at level 70, no associativity) : go_scope.
Notation "# q" := (f_lit q%Q) (at level 5, q at level 0, format "# q") : go_scope.
Local Open Scope go_scope.

(** 64-bit two's-complement wrap-around of Go's [int]. *)
Definition wrap64 (z : Z) : Z :=
  ((z + 2 ^ 63) mod 2 ^ 64 - 2 ^ 63)%Z.

(** Modelled from the spec: [min] and [max] are helpers of package [opt]
    that live outside [linipm.go]; the spec uses them as the minimum and
    maximum of two numbers ("min(1, xrmin)", "max(-1.5*xmin, 0)"). *)
Definition min {F} `{Float64 F} (a b : F) : F := if a ≺ b then a else b.

(** Modelled from the spec: see [min]. *)
Definition max {F} `{Float64 F} (a b : F) : F := if b ≺ a then a else b.

(** ** Slices *)

(** A Go slice [buf[off : off+len]]: a window on a backing array. *)
Record slice := { off : nat; len : nat }.

Section Slices.
Context {F : Type} `{Inhabited F}.

(** [s[i]] read through the window. *)
Definition sget (buf : list F) (s : slice) (i : nat) : F :=
  buf !!! (off s + i).

(** [s[i] = v] written through the window. *)
Definition sset (buf : list F) (s : slice) (i : nat) (v : F) : list F :=
  <[off s + i := v]> buf.

(** The contents of the window, as a callee that receives the slice sees
    them. *)
Definition sread (buf : list F) (s : slice) : list F :=
  take (len s) (drop (off s) buf).

(** What a callee that fills the slice leaves in the backing array. *)
Definition swrite (buf : list F) (s : slice) (vs : list F) : list F :=
  list_inserts (off s) (take (len s) vs) buf.

(** The same for a slice that is a whole array: a callee changes its
    elements, never its length. *)
Definition fill (buf : list F) (vs : list F) : list F :=
  list_inserts 0 (take (length buf) vs) buf.

End Slices.

(** [for i := lo; i < hi; i++ { s = body i s }] *)
Definition for_range {St : Type} (lo hi : nat) (body : nat -> St -> St)
    (s : St) : St :=
  fold_left (fun s i => body i s) (seq lo (hi - lo)) s.

(** ** External packages *)

(** A Go [error] value, identified by its message ([chk.Err(msg)]). *)
Definition error := string.

(** What [linipm.go] calls in package [la].  Each function that fills a
    slice or matrix passed to it takes the current contents as its first
    argument and returns the new contents.  [Fact] reads the Jacobian
    through the pointer that [InitR] kept, so it receives the triplet as it
    stands at the call. *)
Class LinAlg (F : Type) := {
  CCMatrix : Type;
  Triplet : Type;
  LinSol : Type;
  MatAlloc : nat -> nat -> list (list F);
  SpMatMatTrMul : list (list F) -> F -> CCMatrix -> list (list F);
  SpMatVecMul : list F -> F -> CCMatrix -> list F -> list F;
  SpMatTrVecMul : list F -> F -> CCMatrix -> list F -> list F;
  SpMatTrVecMulAdd : list F -> F -> CCMatrix -> list F -> list F;
  SPDsolve2 : list F -> list F -> list (list F) -> list F -> list F ->
              list F * list F;
  VecCopy : list F -> F -> list F -> list F;
  Triplet_new : Triplet;
  Triplet_Init : Triplet -> nat -> nat -> Z -> Triplet;
  Triplet_Start : Triplet -> Triplet;
  Triplet_Put : Triplet -> nat -> nat -> F -> Triplet;
  Triplet_PutCCMatAndMatT : Triplet -> CCMatrix -> Triplet;
  GetSolver : string -> LinSol;
  InitR : LinSol -> Triplet -> bool -> bool -> bool -> LinSol * option error;
  Fact : LinSol -> Triplet -> LinSol * option error;
  SolveR : LinSol -> list F -> list F -> bool ->
           LinSol * list F * option error
}.

(** ** The solver *)

(** How one pass through the body of the iteration loop ends: at its last
    statement, at [break], or at one of the [return]s (with [err] set). *)
Inductive ctl := Continue | Break | Return (err : error).

(** How the [for] statement is left: its condition [it < o.NmaxIt] is
    false, [break], or [return]. *)
Inductive loop_exit := Fell | Broke | Left (err : error).

(** How a call of [Solve] ends: it returns [err] ([None] is [nil]), or a
    run-time panic unwinds it. *)
Inductive outcome := Returned (err : option error) | Panicked (msg : string).

Section Solver.
Context {F : Type} {FF : Float64 F} {LA : LinAlg F}.

#[local] Instance F_inhabited : Inhabited F := populate (#0).

(** An entry of [fun.Params]: a named value. *)
Record Prm := { N : string; V : F }.

Record LinIpm := {
  (* problem *)
  A : CCMatrix;
  B : list F;
  C : list F;
  (* constants *)
  NmaxIt : Z;
  Tol : F;
  (* dimensions *)
  Nx : nat;
  Nl : nat;
  Ny : nat;
  (* solution vector *)
  Y : list F;
  X : slice;
  L : slice;
  S : slice;
  Mdy : list F;
  Mdx : slice;
  Mdl : slice;
  Mds : slice;
  (* affine solution *)
  R : list F;
  Rx : slice;
  Rl : slice;
  Rs : slice;
  J : Triplet;
  (* linear solver *)
  Lis : LinSol
}.

Definition set_Y (o : LinIpm) (y : list F) : LinIpm :=
  {| A := o.(A); B := o.(B); C := o.(C); NmaxIt := o.(NmaxIt);
     Tol := o.(Tol); Nx := o.(Nx); Nl := o.(Nl); Ny := o.(Ny);
     Y := y; X := o.(X); L := o.(L); S := o.(S);
     Mdy := o.(Mdy); Mdx := o.(Mdx); Mdl := o.(Mdl); Mds := o.(Mds);
     R := o.(R); Rx := o.(Rx); Rl := o.(Rl); Rs := o.(Rs);
     J := o.(J); Lis := o.(Lis) |}.

Definition set_Mdy (o : LinIpm) (mdy : list F) : LinIpm :=
  {| A := o.(A); B := o.(B); C := o.(C); NmaxIt := o.(NmaxIt);
     Tol := o.(Tol); Nx := o.(Nx); Nl := o.(Nl); Ny := o.(Ny);
     Y := o.(Y); X := o.(X); L := o.(L); S := o.(S);
     Mdy := mdy; Mdx := o.(Mdx); Mdl := o.(Mdl); Mds := o.(Mds);
     R := o.(R); Rx := o.(Rx); Rl := o.(Rl); Rs := o.(Rs);
     J := o.(J); Lis := o.(Lis) |}.

Definition set_R (o : LinIpm) (r : list F) : LinIpm :=
  {| A := o.(A); B := o.(B); C := o.(C); NmaxIt := o.(NmaxIt);
     Tol := o.(Tol); Nx := o.(Nx); Nl := o.(Nl); Ny := o.(Ny);
     Y := o.(Y); X := o.(X); L := o.(L); S := o.(S);
     Mdy := o.(Mdy); Mdx := o.(Mdx); Mdl := o.(Mdl); Mds := o.(Mds);
     R := r; Rx := o.(Rx); Rl := o.(Rl); Rs := o.(Rs);
     J := o.(J); Lis := o.(Lis) |}.

Definition set_J (o : LinIpm) (j : Triplet) : LinIpm :=
  {| A := o.(A); B := o.(B); C := o.(C); NmaxIt := o.(NmaxIt);
     Tol := o.(Tol); Nx := o.(Nx); Nl := o.(Nl); Ny := o.(Ny);
     Y := o.(Y); X := o.(X); L := o.(L); S := o.(S);
     Mdy := o.(Mdy); Mdx := o.(Mdx); Mdl := o.(Mdl); Mds := o.(Mds);
     R := o.(R); Rx := o.(Rx); Rl := o.(Rl); Rs := o.(Rs);
     J := j; Lis := o.(Lis) |}.

Definition set_Lis (o : LinIpm) (lis : LinSol) : LinIpm :=
  {| A := o.(A); B := o.(B); C := o.(C); NmaxIt := o.(NmaxIt);
     Tol := o.(Tol); Nx := o.(Nx); Nl := o.(Nl); Ny := o.(Ny);
     Y := o.(Y); X := o.(X); L := o.(L); S := o.(S);
     Mdy := o.(Mdy); Mdx := o.(Mdx); Mdl := o.(Mdl); Mds := o.(Mds);
     R := o.(R); Rx := o.(Rx); Rl := o.(Rl); Rs := o.(Rs);
     J := o.(J); Lis := lis |}.

(** [make([]float64, n)] *)
Definition make (n : nat) : list F := replicate n (#0).

(** [Init] initialises LinIpm.  Every field of the receiver is assigned,
    so the result does not depend on the receiver's earlier contents; the
    Go function has no result and no failing path of its own. *)
Definition Init (A0 : CCMatrix) (b c : list F) (prms : list Prm) : LinIpm :=
  (* constants *)
  let nmaxit :=
    fold_left (fun n p => if String.eqb p.(N) "nmaxit"
                          then f_to_int p.(V) else n) prms 50%Z in
  (* dimensions *)
  let nx := length c in
  let nl := length b in
  let ny := 2 * nx + nl in
  let '(ix, jx) := (0, nx) in
  let '(il, jl) := (nx, nx + nl) in
  let '(is', js) := (nx + nl, ny) in
  let nnz :=
    wrap64 (2 * Z.of_nat nl * Z.of_nat nx + 3 * Z.of_nat nx)%Z in
  {| A := A0; B := b; C := c;
     NmaxIt := nmaxit;
     Tol := #1e-8;
     Nx := nx; Nl := nl; Ny := ny;
     Y := make ny;
     X := {| off := ix; len := jx - ix |};
     L := {| off := il; len := jl - il |};
     S := {| off := is'; len := js - is' |};
     Mdy := make ny;
     Mdx := {| off := ix; len := jx - ix |};
     Mdl := {| off := il; len := jl - il |};
     Mds := {| off := is'; len := js - is' |};
     R := make ny;
     Rx := {| off := ix; len := jx - ix |};
     Rl := {| off := il; len := jl - il |};
     Rs := {| off := is'; len := js - is' |};
     J := Triplet_Init Triplet_new ny ny nnz;
     Lis := GetSolver "umfpack" |}.

(** [calc_min_ratios]: the named results [xrmin], [srmin] start at Go's
    zero value. *)
Definition calc_min_ratios (o : LinIpm) : F * F :=
  let '(xrmin, srmin, _, _) :=
    for_range 0 o.(Nx)
      (fun i '(xrmin, srmin, firstxrmin, firstsrmin) =>
         let '(xrmin, firstxrmin) :=
           if #0 ≺ sget o.(Mdy) o.(Mdx) i then
             if firstxrmin : bool
             then (sget o.(Y) o.(X) i ⊘ sget o.(Mdy) o.(Mdx) i, false)
             else (min xrmin (sget o.(Y) o.(X) i ⊘ sget o.(Mdy) o.(Mdx) i),
                   firstxrmin)
           else (xrmin, firstxrmin) in
         let '(srmin, firstsrmin) :=
           if #0 ≺ sget o.(Mdy) o.(Mds) i then
             if firstsrmin : bool
             then (sget o.(Y) o.(S) i ⊘ sget o.(Mdy) o.(Mds) i, false)
             else (min srmin (sget o.(Y) o.(S) i ⊘ sget o.(Mdy) o.(Mds) i),
                   firstsrmin)
           else (srmin, firstsrmin) in
         (xrmin, srmin, firstxrmin, firstsrmin))
      (#0, #0, true, true) in
  (xrmin, srmin).

(** Lines 119-127 of [Solve]: the starting point before the shifts,
    [L := inv(A*At)*A*c], [X := At*inv(A*At)*b], [S := c - At*L]. *)
Definition starting_la (o : LinIpm) : LinIpm :=
  let AAt := MatAlloc o.(Nl) o.(Nl) in
  let d := make o.(Nl) in
  let e := make o.(Nl) in
  let AAt := SpMatMatTrMul AAt #1 o.(A) in
  let e := fill e (SpMatVecMul e #1 o.(A) o.(C)) in
  let '(d', l) := SPDsolve2 d (sread o.(Y) o.(L)) AAt o.(B) e in
  let d := fill d d' in
  let o := set_Y o (swrite o.(Y) o.(L) l) in
  let o := set_Y o (swrite o.(Y) o.(X)
                      (SpMatTrVecMul (sread o.(Y) o.(X)) #1 o.(A) d)) in
  let o := set_Y o (swrite o.(Y) o.(S)
                      (VecCopy (sread o.(Y) o.(S)) #1 o.(C))) in
  set_Y o (swrite o.(Y) o.(S)
             (SpMatTrVecMulAdd (sread o.(Y) o.(S)) #(-1) o.(A)
                (sread o.(Y) o.(L)))).

(** Lines 128-149 of [Solve]: the two shifts of the starting point.
    [o.X[0]] and [o.S[0]] are read before any loop guard, so an empty [X]
    or [S] is an index out of range: [None] stands for that panic. *)
Definition starting_shift (o : LinIpm) : option LinIpm :=
  if (len o.(X) =? 0) || (len o.(S) =? 0) then None else
  let xmin := sget o.(Y) o.(X) 0 in
  let smin := sget o.(Y) o.(S) 0 in
  let '(xmin, smin) :=
    for_range 1 o.(Nx)
      (fun i '(xmin, smin) =>
         (min xmin (sget o.(Y) o.(X) i), min smin (sget o.(Y) o.(S) i)))
      (xmin, smin) in
  let δx := max (#(-1.5) ⊗ xmin) #0 in
  let δs := max (#(-1.5) ⊗ smin) #0 in
  let '(y, xdots, xsum, ssum) :=
    for_range 0 o.(Nx)
      (fun i '(y, xdots, xsum, ssum) =>
         let y := sset y o.(X) i (sget y o.(X) i ⊕ δx) in
         let y := sset y o.(S) i (sget y o.(S) i ⊕ δs) in
         (y,
          xdots ⊕ sget y o.(X) i ⊗ sget y o.(S) i,
          xsum ⊕ sget y o.(X) i,
          ssum ⊕ sget y o.(S) i))
      (o.(Y), #0, #0, #0) in
  let δx := #0.5 ⊗ xdots ⊘ ssum in
  let δs := #0.5 ⊗ xdots ⊘ xsum in
  let y :=
    for_range 0 o.(Nx)
      (fun i y =>
         let y := sset y o.(X) i (sget y o.(X) i ⊕ δx) in
         sset y o.(S) i (sget y o.(S) i ⊕ δs))
      y in
  Some (set_Y o y).

(** Lines 177-190: the residual, [ctx], [btl] and [μ]. *)
Definition residual (o : LinIpm) : LinIpm * F * F * F :=
  let r := swrite o.(R) o.(Rx)
             (SpMatTrVecMul (sread o.(R) o.(Rx)) #1 o.(A)
                (sread o.(Y) o.(L))) in
  let r := swrite r o.(Rl)
             (SpMatVecMul (sread r o.(Rl)) #1 o.(A) (sread o.(Y) o.(X))) in
  let '(r, ctx, μ) :=
    for_range 0 o.(Nx)
      (fun i '(r, ctx, μ) =>
         let r := sset r o.(Rx) i
                    (sget r o.(Rx) i ⊕
                     (sget o.(Y) o.(S) i ⊖ o.(C) !!! i)) in
         let r := sset r o.(Rs) i
                    (sget o.(Y) o.(X) i ⊗ sget o.(Y) o.(S) i) in
         (r,
          ctx ⊕ o.(C) !!! i ⊗ sget o.(Y) o.(X) i,
          μ ⊕ sget o.(Y) o.(X) i ⊗ sget o.(Y) o.(S) i))
      (r, #0, #0) in
  let '(r, btl) :=
    for_range 0 o.(Nl)
      (fun i '(r, btl) =>
         (sset r o.(Rl) i (sget r o.(Rl) i ⊖ o.(B) !!! i),
          btl ⊕ o.(B) !!! i ⊗ sget o.(Y) o.(L) i))
      (r, #0) in
  let μ := μ ⊘ f_of_int (Z.of_nat o.(Nx)) in
  (set_R o r, ctx, btl, μ).

(** Lines 203-209: the Jacobian is assembled anew. *)
Definition assemble_J (o : LinIpm) : LinIpm :=
  let I := o.(Nx) + o.(Nl) in
  let j := Triplet_Start o.(J) in
  let j := Triplet_PutCCMatAndMatT j o.(A) in
  set_J o
    (for_range 0 o.(Nx)
       (fun i j =>
          let j := Triplet_Put j i (I + i) #1 in
          let j := Triplet_Put j (I + i) i (sget o.(Y) o.(S) i) in
          Triplet_Put j (I + i) (I + i) (sget o.(Y) o.(X) i))
       j).

(** Lines 228-241: the control variables of the affine direction and the
    update of the residual. *)
Definition corrector (o : LinIpm) (μ : F) : LinIpm :=
  let '(xrmin, srmin) := calc_min_ratios o in
  let αpa := min #1 xrmin in
  let αda := min #1 srmin in
  let μaff :=
    for_range 0 o.(Nx)
      (fun i μaff =>
         μaff ⊕
         (sget o.(Y) o.(X) i ⊖ αpa ⊗ sget o.(Mdy) o.(Mdx) i) ⊗
         (sget o.(Y) o.(S) i ⊖ αda ⊗ sget o.(Mdy) o.(Mds) i))
      #0 in
  let μaff := μaff ⊘ f_of_int (Z.of_nat o.(Nx)) in
  let σ := Pow (μaff ⊘ μ) #3 in
  set_R o
    (for_range 0 o.(Nx)
       (fun i r =>
          sset r o.(Rs) i
            (sget r o.(Rs) i ⊕
             (sget o.(Mdy) o.(Mdx) i ⊗ sget o.(Mdy) o.(Mds) i ⊖ σ ⊗ μ)))
       o.(R)).

(** Lines 250-261: the step lengths and the update of the iterate. *)
Definition step (o : LinIpm) : LinIpm :=
  let '(xrmin, srmin) := calc_min_ratios o in
  let αpa := min #1 (#0.99 ⊗ xrmin) in
  let αda := min #1 (#0.99 ⊗ srmin) in
  let y :=
    for_range 0 o.(Nx)
      (fun i y =>
         let y := sset y o.(X) i
                    (sget y o.(X) i ⊖ αpa ⊗ sget o.(Mdy) o.(Mdx) i) in
         sset y o.(S) i
           (sget y o.(S) i ⊖ αda ⊗ sget o.(Mdy) o.(Mds) i))
      o.(Y) in
  let y :=
    for_range 0 o.(Nl)
      (fun i y =>
         sset y o.(L) i
           (sget y o.(L) i ⊖ αda ⊗ sget o.(Mdy) o.(Mdl) i))
      y in
  set_Y o y.

(** [err = call; if err != nil { return }] *)
Definition attempt (r : LinIpm * option error)
    (k : LinIpm -> LinIpm * ctl) : LinIpm * ctl :=
  match r with
  | (o, Some e) => (o, Return e)
  | (o, None) => k o
  end.

Notation "'attempt' o ':=' r 'in' k" := (attempt r (fun o => k))
  (at level 10, o name, r at level 100, k at level 200, only parsing).

(** [o.Lis.SolveR(o.Mdy, o.R, false)]: [mdy := inv(J) * R]. *)
Definition solve_system (o : LinIpm) : LinIpm * option error :=
  let '(lis, mdy, err) := SolveR o.(Lis) o.(Mdy) o.(R) false in
  (set_Mdy (set_Lis o lis) (fill o.(Mdy) mdy), err).

(** Lines 176-261: the body of the iteration loop, at counter [it]. *)
Definition iteration (symmetric timing : bool) (it : Z) (o : LinIpm)
    : LinIpm * ctl :=
  (* compute residual *)
  let '(o, ctx, btl, μ) := residual o in
  (* check convergence *)
  let lerr := Abs (ctx ⊖ btl) ⊘ (#1 ⊕ Abs ctx) in
  if lerr ≺ o.(Tol) then (o, Break) else
  (* assemble Jacobian *)
  let o := assemble_J o in
  (* solve linear system *)
  attempt o := (if (it =? 0)%Z
                then let '(lis, err) :=
                       InitR o.(Lis) o.(J) symmetric false timing in
                     (set_Lis o lis, err)
                else (o, None)) in
  attempt o := (let '(lis, err) := Fact o.(Lis) o.(J) in
                (set_Lis o lis, err)) in
  attempt o := solve_system o in
  (* control variables, update residual *)
  let o := corrector o μ in
  (* solve linear system again *)
  attempt o := solve_system o in
  (* step lengths, update *)
  (step o, Continue).

(** [for it = 0; it < o.NmaxIt; it++ { ... }], entered with [n] passes
    left before [it] reaches [o.NmaxIt]; the result carries the value of
    [it] with which the statement is left. *)
Fixpoint iterations (symmetric timing : bool) (n : nat) (it : Z)
    (o : LinIpm) : LinIpm * Z * loop_exit :=
  match n with
  | O => (o, it, Fell)
  | Datatypes.S n' =>
      match iteration symmetric timing it o with
      | (o', Continue) => iterations symmetric timing n' (it + 1)%Z o'
      | (o', Break) => (o', it, Broke)
      | (o', Return e) => (o', it, Left e)
      end
  end.

(** The starting point of [Solve] (lines 119-149). *)
Definition starting_point (o : LinIpm) : option LinIpm :=
  starting_shift (starting_la o).

(** [Solve] solves the linear programming problem.  The result is the
    receiver as the call leaves it, and how the call ends.  What [verbose]
    prints ([io.Pf]) reads the state and changes none of it. *)
Definition Solve (o : LinIpm) (verbose : bool) : LinIpm * outcome :=
  match starting_point o with
  | None => (starting_la o, Panicked "index out of range")
  | Some o =>
      (* constants for linear solver *)
      let symmetric := false in
      let timing := false in
      (* perform iterations *)
      match iterations symmetric timing (Z.to_nat o.(NmaxIt)) 0%Z o with
      | (o, _, Left e) => (o, Returned (Some e))
      | (o, it, _) =>
          (* check convergence *)
          if (it =? o.(NmaxIt))%Z
          then (o, Returned (Some "iterations did not converge"))
          else (o, Returned None)
      end
  end.

End Solver.

(** ** What a caller does besides [Init] and [Solve] *)

(** [Free] of [la.LinSol]: the one method of the linear solver that
    [linipm.go] calls outside [Solve]. *)
Class LinSolFree (F : Type) {LA : LinAlg F} := {
  Lis_Free : LinSol -> LinSol
}.

Section Caller.
Context {F : Type} {FF : Float64 F} {LA : LinAlg F} {LF : LinSolFree F}.

(** [Free] frees allocated memory: that of the linear solver. *)
Definition Free (o : LinIpm) : LinIpm := set_Lis o (Lis_Free o.(Lis)).

(** [o.Tol = tol]: the field is exported, a caller assigns it between
    [Init] and [Solve]. *)
Definition set_Tol (o : LinIpm) (tol : F) : LinIpm :=
  {| A := o.(A); B := o.(B); C := o.(C); NmaxIt := o.(NmaxIt);
     Tol := tol; Nx := o.(Nx); Nl := o.(Nl); Ny := o.(Ny);
     Y := o.(Y); X := o.(X); L := o.(L); S := o.(S);
     Mdy := o.(Mdy); Mdx := o.(Mdx); Mdl := o.(Mdl); Mds := o.(Mds);
     R := o.(R); Rx := o.(Rx); Rl := o.(Rl); Rs := o.(Rs);
     J := o.(J); Lis := o.(Lis) |}.

End Caller.

(** ** Two number systems *)

(** *** IEEE 754 binary64, as Go's [float64] *)

(** [float64(z)]: the binary64 number nearest to [z]. *)
Definition float_of_Z (z : Z) : float :=
  SF2Prim (binary_normalize prec emax z 0 false).

(** A constant of the source: the binary64 number nearest to [q].  The
    numerators and denominators in [linipm.go] are themselves binary64
    numbers, so one correctly rounded division gives it. *)
Definition float_lit (q : Q) : float :=
  PrimFloat.div (float_of_Z (Qnum q)) (float_of_Z (Zpos (Qden q))).

(** [int(f)]: truncation towards zero.  Where [int] cannot represent the
    value Go leaves the result to the implementation; this is what the
    amd64 conversion instruction returns. *)
Definition float_to_int (f : float) : Z :=
  match Prim2SF f with
  | S754_zero _ => 0%Z
  | S754_finite s m e =>
      let a := if (0 <=? e)%Z then (Zpos m * 2 ^ e)%Z
               else (Zpos m / 2 ^ (- e))%Z in
      let v := if s then (- a)%Z else a in
      if ((- 2 ^ 63 <=? v) && (v <? 2 ^ 63))%Z then v else (- 2 ^ 63)%Z
  | _ => (- 2 ^ 63)%Z
  end.

(** [math.Pow(x, y)] for the exponents used here, natural numbers: the
    product of [y] factors [x] (for [y = 3], what [math.Pow] computes away
    from overflow and underflow). *)
Definition float_pow (x y : float) : float :=
  Z.iter (float_to_int y) (fun a => PrimFloat.mul a x) 1%float.

#[export] Instance float64 : Float64 float := {
  f_lit := float_lit;
  f_add := PrimFloat.add;
  f_sub := PrimFloat.sub;
  f_mul := PrimFloat.mul;
  f_div := PrimFloat.div;
  f_ltb := PrimFloat.ltb;
  f_of_int := float_of_Z;
  f_to_int := float_to_int;
  Abs := PrimFloat.abs;
  Pow := float_pow
}.

(** *** Exact arithmetic: the rationals

    Every operation returns its result in lowest terms. *)

Definition Q_ltb (a b : Q) : bool :=
  match Qcompare a b with Lt => true | _ => false end.

Definition Q_to_int (q : Q) : Z := Z.quot (Qnum q) (Zpos (Qden q)).

#[export] Instance exact : Float64 Q := {
  f_lit := Qred;
  f_add := fun a b => Qred (a + b);
  f_sub := fun a b => Qred (a - b);
  f_mul := fun a b => Qred (a * b);
  f_div := fun a b => Qred (a / b);
  f_ltb := Q_ltb;
  f_of_int := inject_Z;
  f_to_int := Q_to_int;
  Abs := Qabs;
  Pow := fun x y => Qred (Qpower x (Q_to_int y))
}.

(** ** A dense reference model of package [la]

    Used to run the solver on concrete problems.  The theorems below hold
    for every implementation of [LinAlg]. *)

Section Reference.
Context {F : Type} {FF : Float64 F}.

(** Modelled from the spec: [la.MatAlloc], a dense matrix of zeros. *)
Definition ref_MatAlloc (m n : nat) : list (list F) :=
  replicate m (replicate n (#0)).

(** Modelled from the spec: the sum of [α * x * y] over the pairs of two
    rows, accumulated onto [acc] from left to right. *)
Definition ref_axpy (α : F) (acc : F) (xs ys : list F) : F :=
  fold_left (fun acc '(x, y) => acc ⊕ α ⊗ x ⊗ y) (combine xs ys) acc.

(** Modelled from the spec: "M·Mᵀ materialization into a dense buffer". *)
Definition ref_SpMatMatTrMul (b : list (list F)) (α : F)
    (a : list (list F)) : list (list F) :=
  map (fun ri => map (fun rk => ref_axpy α (#0) ri rk) a) a.

(** Modelled from the spec: "matrix–vector product (y ← α·M·x)". *)
Definition ref_SpMatVecMul (v : list F) (α : F) (a : list (list F))
    (u : list F) : list F :=
  map (fun row => ref_axpy α (#0) row u) a.

(** Column [j] of a dense matrix. *)
Definition ref_column (a : list (list F)) (j : nat) : list F :=
  map (fun row => nth j row (#0)) a.

(** Modelled from the spec: "transpose–vector product (y ← α·Mᵀ·x)". *)
Definition ref_SpMatTrVecMul (v : list F) (α : F) (a : list (list F))
    (u : list F) : list F :=
  map (fun j => ref_axpy α (#0) (ref_column a j) u) (seq 0 (length v)).

(** Modelled from the spec: the "additive accumulate variant
    y += α·Mᵀ·x". *)
Definition ref_SpMatTrVecMulAdd (v : list F) (α : F) (a : list (list F))
    (u : list F) : list F :=
  map (fun '(j, vj) => ref_axpy α vj (ref_column a j) u)
      (combine (seq 0 (length v)) v).

(** Modelled from the spec: [la.VecCopy], [a := α * b]. *)
Definition ref_VecCopy (a : list F) (α : F) (b : list F) : list F :=
  map (fun x => α ⊗ x) b.

(** The row whose head is largest in magnitude comes first. *)
Definition pivot_first (rows : list (list F)) : list (list F) :=
  fold_right
    (fun r acc =>
       match acc with
       | [] => [r]
       | p :: rest =>
           if Abs (hd (#0) p) ≺ Abs (hd (#0) r)
           then r :: p :: rest else p :: r :: rest
       end) [] rows.

(** Gaussian elimination with partial pivoting on [n] augmented rows
    (coefficients, then the right-hand side); [None] when a pivot
    vanishes. *)
Fixpoint gauss (n : nat) (rows : list (list F)) : option (list F) :=
  match n with
  | O => Some []
  | Datatypes.S n' =>
      match pivot_first rows with
      | [] => None
      | p :: rest =>
          let a := hd (#0) p in
          if #0 ≺ Abs a then
            let rest' :=
              map (fun r =>
                     let m := hd (#0) r ⊘ a in
                     map (fun '(rj, pj) => rj ⊖ m ⊗ pj)
                         (combine (tl r) (tl p))) rest in
            match gauss n' rest' with
            | None => None
            | Some xs =>
                let rhs := List.last (tl p) (#0) in
                Some ((rhs ⊖ ref_axpy (#1) (#0) (tl p) xs) ⊘ a :: xs)
            end
          else None
      end
  end.

(** Modelled from the spec: a dense solve of [m * x = b]. *)
Definition dense_solve (m : list (list F)) (b : list F) : option (list F) :=
  gauss (length b) (map (fun '(row, bi) => row ++ [bi]) (combine m b)).

(** Modelled from the spec: "two solves against the same dense
    factorization"; a system that cannot be solved leaves the destination
    as it was. *)
Definition ref_SPDsolve2 (x x' : list F) (a : list (list F))
    (b b' : list F) : list F * list F :=
  (default x (dense_solve a b), default x' (dense_solve a b')).

(** Modelled from the spec: the triplet, "start (clear), put(row, col,
    value) (accumulate, duplicates sum)", with its declared capacity. *)
Record RefTriplet := {
  t_m : nat;
  t_n : nat;
  t_max : Z;
  t_entries : list (nat * nat * F)
}.

Definition ref_Triplet_Init (t : RefTriplet) (m n : nat) (max : Z)
    : RefTriplet :=
  {| t_m := m; t_n := n; t_max := max; t_entries := [] |}.

Definition ref_Start (t : RefTriplet) : RefTriplet :=
  {| t_m := t.(t_m); t_n := t.(t_n); t_max := t.(t_max); t_entries := [] |}.

Definition ref_Put (t : RefTriplet) (i j : nat) (v : F) : RefTriplet :=
  {| t_m := t.(t_m); t_n := t.(t_n); t_max := t.(t_max);
     t_entries := t.(t_entries) ++ [(i, j, v)] |}.

(** Modelled from the spec: "bulk insertion of a sparse matrix and its
    transpose at a given offset": [a] below the diagonal block and [aᵀ]
    to its right, both offset by the number of columns of [a]. *)
Definition ref_PutCCMatAndMatT (t : RefTriplet) (a : list (list F))
    : RefTriplet :=
  let n := length (hd [] a) in
  fold_left
    (fun t '(i, row) =>
       fold_left
         (fun t '(j, aij) => ref_Put (ref_Put t (n + i) j aij) j (n + i) aij)
         (combine (seq 0 n) row) t)
    (combine (seq 0 (length a)) a) t.

(** The dense matrix a triplet stands for: duplicates sum. *)
Definition ref_dense (t : RefTriplet) : list (list F) :=
  map (fun i =>
         map (fun j =>
                fold_left
                  (fun acc '(i', j', v) =>
                     if (i' =? i) && (j' =? j) then acc ⊕ v else acc)
                  t.(t_entries) (#0))
             (seq 0 t.(t_n)))
      (seq 0 t.(t_m)).

(** Modelled from the spec: the linear solver backend, "initialize,
    factorize, solve".  Its state is the matrix taken by the last
    factorisation. *)
Definition ref_Fact (lis : option (list (list F))) (t : RefTriplet)
    : option (list (list F)) * option error :=
  (Some (ref_dense t), None).

Definition ref_SolveR (lis : option (list (list F))) (x b : list F)
    (dummy : bool) : option (list (list F)) * list F * option error :=
  match lis with
  | None => (lis, x, Some "factorisation missing")
  | Some m =>
      match dense_solve m b with
      | Some x' => (lis, x', None)
      | None => (lis, x, Some "singular matrix")
      end
  end.

#[export] Instance dense_la : LinAlg F := {
  CCMatrix := list (list F);
  Triplet := RefTriplet;
  LinSol := option (list (list F));
  MatAlloc := ref_MatAlloc;
  SpMatMatTrMul := ref_SpMatMatTrMul;
  SpMatVecMul := ref_SpMatVecMul;
  SpMatTrVecMul := ref_SpMatTrVecMul;
  SpMatTrVecMulAdd := ref_SpMatTrVecMulAdd;
  SPDsolve2 := ref_SPDsolve2;
  VecCopy := ref_VecCopy;
  Triplet_new := {| t_m := 0; t_n := 0; t_max := 0; t_entries := [] |};
  Triplet_Init := ref_Triplet_Init;
  Triplet_Start := ref_Start;
  Triplet_Put := ref_Put;
  Triplet_PutCCMatAndMatT := ref_PutCCMatAndMatT;
  GetSolver := fun _ => None;
  InitR := fun lis _ _ _ _ => (lis, None);
  Fact := ref_Fact;
  SolveR := ref_SolveR
}.

End Reference.

(** ** What the claims speak of *)

Section Vocabulary.
Context {F : Type} {FF : Float64 F} {LA : LinAlg F}.
#[local] Existing Instance F_inhabited.

(** The sum of [f 0], ..., [f (n-1)], accumulated from zero in this
    order. *)
Definition sum_over (n : nat) (f : nat -> F) : F :=
  fold_left (fun acc i => acc ⊕ f i) (seq 0 n) (#0).

(** The minimum of [f 0], ..., [f (n-1)], taken from [f 0] on with
    [min]. *)
Definition min_over (n : nat) (f : nat -> F) : F :=
  fold_left (fun m i => min m (f i)) (seq 1 (n - 1)) (f 0).

(** The value the configuration supplies under [name]: that of its last
    entry of this name. *)
Fixpoint supplied (name : string) (prms : list Prm) : option F :=
  match prms with
  | [] => None
  | p :: rest =>
      match supplied name rest with
      | Some v => Some v
      | None => if String.eqb p.(N) name then Some p.(V) else None
      end
  end.

(** The layout that [Init] gives the solver: the three windows of each
    backing array lie side by side, and the lengths agree with the
    dimensions. *)
Record wf (o : LinIpm) : Prop := {
  wf_X : o.(X) = {| off := 0; len := o.(Nx) |};
  wf_L : o.(L) = {| off := o.(Nx); len := o.(Nl) |};
  wf_S : o.(S) = {| off := o.(Nx) + o.(Nl); len := o.(Nx) |};
  wf_Mdx : o.(Mdx) = {| off := 0; len := o.(Nx) |};
  wf_Mdl : o.(Mdl) = {| off := o.(Nx); len := o.(Nl) |};
  wf_Mds : o.(Mds) = {| off := o.(Nx) + o.(Nl); len := o.(Nx) |};
  wf_Rx : o.(Rx) = {| off := 0; len := o.(Nx) |};
  wf_Rl : o.(Rl) = {| off := o.(Nx); len := o.(Nl) |};
  wf_Rs : o.(Rs) = {| off := o.(Nx) + o.(Nl); len := o.(Nx) |};
  wf_Y : length o.(Y) = 2 * o.(Nx) + o.(Nl);
  wf_Mdy : length o.(Mdy) = 2 * o.(Nx) + o.(Nl);
  wf_R : length o.(R) = 2 * o.(Nx) + o.(Nl);
  wf_B : length o.(B) = o.(Nl);
  wf_C : length o.(C) = o.(Nx)
}.

(** [o'] is [o] with other contents in the arrays [Y], [Mdy], [R], in the
    Jacobian and in the state of the linear solver: what [Solve] can
    change. *)
Definition frame (o o' : LinIpm) : Prop :=
  o' = set_Lis (set_J (set_R (set_Mdy (set_Y o o'.(Y)) o'.(Mdy)) o'.(R))
                  o'.(J)) o'.(Lis).

(** [o'] is [o] with other contents in [Mdy], [R], the Jacobian and the
    linear solver, the lengths kept: the iterate [Y] is the same. *)
Definition same_iterate (o o' : LinIpm) : Prop :=
  frame o o' /\ o'.(Y) = o.(Y) /\
  length o'.(Mdy) = length o.(Mdy) /\ length o'.(R) = length o.(R).

(** What a pass leaves: at [break] or [return] the iterate it started
    with; at its last statement the update [step] of a state that holds
    the iterate it started with. *)
Definition pass_post (o : LinIpm) (res : LinIpm * ctl) : Prop :=
  match snd res with
  | Continue => exists o4, same_iterate o o4 /\ fst res = step o4
  | _ => same_iterate o (fst res)
  end.

(** [n] passes through the loop body, each to its last statement, lead
    from [o] at counter [it] to [o']. *)
Inductive full_passes : nat -> Z -> LinIpm -> LinIpm -> Prop :=
| full_passes_O it o : full_passes 0 it o o
| full_passes_S n it o o' o'' :
    iteration false false it o = (o', Continue) ->
    full_passes n (it + 1)%Z o' o'' ->
    full_passes (Datatypes.S n) it o o''.

(** The objective values [cᵀX] and [bᵀL] at an iterate. *)
Definition ctx_at (o : LinIpm) : F :=
  sum_over o.(Nx) (fun i => o.(C) !!! i ⊗ sget o.(Y) o.(X) i).

Definition btl_at (o : LinIpm) : F :=
  sum_over o.(Nl) (fun i => o.(B) !!! i ⊗ sget o.(Y) o.(L) i).

(** The duality measure [μ = (Σᵢ X[i]*S[i]) / Nx] at an iterate. *)
Definition mu_at (o : LinIpm) : F :=
  sum_over o.(Nx) (fun i => sget o.(Y) o.(X) i ⊗ sget o.(Y) o.(S) i)
  ⊘ f_of_int (Z.of_nat o.(Nx)).

(** The relative error of the objective gap, as a function of the two
    objective values. *)
Definition rel_err (ctx btl : F) : F :=
  Abs (ctx ⊖ btl) ⊘ (#1 ⊕ Abs ctx).

(** One pass of the loop of [calc_min_ratios], for one of its two
    ratios: [v] is [X] or [S], [mdv] is [Mdx] or [Mds], the state is the
    ratio found so far and the flag [first]. *)
Definition ratio_step (v mdv : nat -> F) (i : nat) (st : F * bool)
    : F * bool :=
  let '(rmin, first) := st in
  if #0 ≺ mdv i then
    if first then (v i ⊘ mdv i, false) else (min rmin (v i ⊘ mdv i), first)
  else (rmin, first).

(** The first shifts of the starting point, [max(-1.5*min(X), 0)] and
    [max(-1.5*min(S), 0)]. *)
Definition first_shifts (o : LinIpm) : F * F :=
  (max (#(-1.5) ⊗ min_over o.(Nx) (sget o.(Y) o.(X))) #0,
   max (#(-1.5) ⊗ min_over o.(Nx) (sget o.(Y) o.(S))) #0).

(** [X[i]] and [S[i]] after the first shift. *)
Definition shifted_X (o : LinIpm) (i : nat) : F :=
  sget o.(Y) o.(X) i ⊕ fst (first_shifts o).

Definition shifted_S (o : LinIpm) (i : nat) : F :=
  sget o.(Y) o.(S) i ⊕ snd (first_shifts o).

(** [xᵀs], [Σx] and [Σs] after the first shift. *)
Definition xdots_shifted (o : LinIpm) : F :=
  sum_over o.(Nx) (fun i => shifted_X o i ⊗ shifted_S o i).

Definition xsum_shifted (o : LinIpm) : F := sum_over o.(Nx) (shifted_X o).

Definition ssum_shifted (o : LinIpm) : F := sum_over o.(Nx) (shifted_S o).

(** The second shifts, [0.5*(xᵀs)/Σs] and [0.5*(xᵀs)/Σx]. *)
Definition second_shifts (o : LinIpm) : F * F :=
  (#0.5 ⊗ xdots_shifted o ⊘ ssum_shifted o,
   #0.5 ⊗ xdots_shifted o ⊘ xsum_shifted o).

(** The step lengths of the affine direction, [min(1, xrmin)] and
    [min(1, srmin)]. *)
Definition affine_steps (o : LinIpm) : F * F :=
  (min #1 (fst (calc_min_ratios o)), min #1 (snd (calc_min_ratios o))).

(** [μaff]: the mean of [(X[i] - αpa*Mdx[i]) * (S[i] - αda*Mds[i])]. *)
Definition mu_affine (o : LinIpm) : F :=
  sum_over o.(Nx)
    (fun i =>
       (sget o.(Y) o.(X) i ⊖
        fst (affine_steps o) ⊗ sget o.(Mdy) o.(Mdx) i) ⊗
       (sget o.(Y) o.(S) i ⊖
        snd (affine_steps o) ⊗ sget o.(Mdy) o.(Mds) i))
  ⊘ f_of_int (Z.of_nat o.(Nx)).

(** [σ = (μaff/μ)³] *)
Definition sigma (o : LinIpm) (μ : F) : F := Pow (mu_affine o ⊘ μ) #3.

(** [X[i] > 0] and [S[i] > 0] for every [i]. *)
Definition positive (o : LinIpm) : Prop :=
  forall i, i < o.(Nx) ->
    (#0 ≺ sget o.(Y) o.(X) i) = true /\ (#0 ≺ sget o.(Y) o.(S) i) = true.

End Vocabulary.

(** ** The entries of the Jacobian *)

Section Assembly.
Context {F : Type} {FF : Float64 F} {LA : LinAlg F}.
#[local] Existing Instance F_inhabited.

(** The entries that the loop of lines 205-209 puts into the Jacobian, in
    the order of the calls: row, column, value. *)
Definition jacobian_puts (o : LinIpm) : list (nat * nat * F) :=
  let I := o.(Nx) + o.(Nl) in
  flat_map (fun i => [(i, I + i, #1);
                      (I + i, i, sget o.(Y) o.(S) i);
                      (I + i, I + i, sget o.(Y) o.(X) i)])
           (seq 0 o.(Nx)).

(** A sequence of calls of [Put]. *)
Definition put_all (j : Triplet) (es : list (nat * nat * F)) : Triplet :=
  fold_left (fun j '(r, c, v) => Triplet_Put j r c v) es j.

End Assembly.

(** ** The calls to the linear solver *)

(** A call of a method of [la.LinSol], with the flags passed. *)
Inductive call :=
| CallInitR (symmetric verbose timing : bool)
| CallFact
| CallSolveR (dummy : bool)
| CallFree.

Section Recorder.
Context {F : Type} (LA : LinAlg F) (LF : LinSolFree F).

(** Package [la] with a linear solver that keeps, besides its own state,
    the list of the calls made to it, oldest first.  Nothing else
    differs. *)
Definition recorded : LinAlg F := {|
  CCMatrix := @CCMatrix F LA;
  Triplet := @Triplet F LA;
  LinSol := @LinSol F LA * list call;
  MatAlloc := MatAlloc;
  SpMatMatTrMul := SpMatMatTrMul;
  SpMatVecMul := SpMatVecMul;
  SpMatTrVecMul := SpMatTrVecMul;
  SpMatTrVecMulAdd := SpMatTrVecMulAdd;
  SPDsolve2 := SPDsolve2;
  VecCopy := VecCopy;
  Triplet_new := Triplet_new;
  Triplet_Init := Triplet_Init;
  Triplet_Start := Triplet_Start;
  Triplet_Put := Triplet_Put;
  Triplet_PutCCMatAndMatT := Triplet_PutCCMatAndMatT;
  GetSolver := fun name => (GetSolver name, []);
  InitR := fun lis j symmetric verbose timing =>
    let r := InitR (fst lis) j symmetric verbose timing in
    ((fst r, snd lis ++ [CallInitR symmetric verbose timing]), snd r);
  Fact := fun lis j =>
    let r := Fact (fst lis) j in
    ((fst r, snd lis ++ [CallFact]), snd r);
  SolveR := fun lis x b dummy =>
    let r := SolveR (fst lis) x b dummy in
    ((fst (fst r), snd lis ++ [CallSolveR dummy]), snd (fst r), snd r)
|}.

Definition recorded_Free (lis : @LinSol F LA * list call)
    : @LinSol F LA * list call :=
  (Lis_Free (fst lis), snd lis ++ [CallFree]).

Definition recorded_free : LinSolFree F (LA:=recorded) := {|
  Lis_Free := recorded_Free : @LinSol F recorded -> @LinSol F recorded
|}.

(** The record kept by [recorded]. *)
Definition record_of (lis : @LinSol F recorded) : list call :=
  snd (lis : @LinSol F LA * list call).

End Recorder.

Section Protocol.
Context {F : Type} {FF : Float64 F} {LA : LinAlg F}.
Variable lg : LinSol -> list call.

(** [lg] reads a record of calls off the state of the linear solver:
    every call of [InitR], [Fact] and [SolveR] appends itself to it,
    whether it fails or not. *)
Definition records : Prop :=
  (forall lis j symmetric verbose timing,
     lg (fst (InitR lis j symmetric verbose timing)) =
     lg lis ++ [CallInitR symmetric verbose timing]) /\
  (forall lis j, lg (fst (Fact lis j)) = lg lis ++ [CallFact]) /\
  (forall lis x b dummy,
     lg (fst (fst (SolveR lis x b dummy))) = lg lis ++ [CallSolveR dummy]).

(** The calls recorded in a state of the solver. *)
Definition calls (o : LinIpm) : list call := lg o.(Lis).

(** The calls of the first pass of a [Solve], of a later pass, of the
    pass at counter [it], and of the first [k] passes. *)
Definition first_pass : list call :=
  [CallInitR false false false; CallFact; CallSolveR false; CallSolveR false].

Definition later_pass : list call :=
  [CallFact; CallSolveR false; CallSolveR false].

Definition pass_at (it : Z) : list call :=
  if (it =? 0)%Z then first_pass else later_pass.

Definition passes (k : nat) : list call :=
  flat_map (fun i => pass_at (Z.of_nat i)) (seq 0 k).

(** What the rest of a pass adds to the record: [done] is recorded since
    the pass began at [base], the calls [todo] are still to come; a pass
    that returns an error stops after one of them. *)
Definition log_post (base done todo : list call) (res : LinIpm * ctl)
    : Prop :=
  match snd res with
  | Continue => calls (fst res) = base ++ done ++ todo
  | Break => False
  | Return _ =>
      exists pre, pre `prefix_of` todo /\ done ++ pre <> [] /\
                  calls (fst res) = base ++ done ++ pre
  end.

End Protocol.

(** ** The ratio test and the two updates as the specification words them *)

Section RatioTest.
Context {F : Type} {FF : Float64 F} {LA : LinAlg F}.
#[local] Existing Instance F_inhabited.

(** Modelled from the spec: "for each i where Mdx[i] > 0, candidate ratio
    X[i]/Mdx[i]; xrmin = minimum over such i (unconstrained/∞ semantics if
    no i qualifies)".  [None] stands for ∞; the minimum is taken with
    [min] in the order of the indices. *)
Definition ratio_test (v mdv : nat -> F) (n : nat) : option F :=
  fold_left
    (fun acc i =>
       if #0 ≺ mdv i
       then Some (match acc with
                  | None => v i ⊘ mdv i
                  | Some r => min r (v i ⊘ mdv i)
                  end)
       else acc)
    (seq 0 n) None.

Definition xrmin_spec (o : LinIpm) : option F :=
  ratio_test (sget o.(Y) o.(X)) (sget o.(Mdy) o.(Mdx)) o.(Nx).

Definition srmin_spec (o : LinIpm) : option F :=
  ratio_test (sget o.(Y) o.(S)) (sget o.(Mdy) o.(Mds)) o.(Nx).

(** Modelled from the spec: "αpa = min(1, xrmin)", and "in this case
    treat as yielding step 1" when no index qualifies. *)
Definition affine_length (r : option F) : F :=
  match r with None => #1 | Some r => min #1 r end.

(** Modelled from the spec: "apply a 0.99 safety factor: αpa = min(1,
    0.99·xrmin)"; with ∞ the minimum is 1. *)
Definition final_length (r : option F) : F :=
  match r with None => #1 | Some r => min #1 (#0.99 ⊗ r) end.

(** Modelled from the spec: "μaff = (Σᵢ (X[i] − αpa·Mdx[i])·(S[i] −
    αda·Mds[i])) / Nx; σ = (μaff/μ)³", with the step lengths of the
    affine ratio test. *)
Definition mu_affine_spec (o : LinIpm) : F :=
  sum_over o.(Nx)
    (fun i =>
       (sget o.(Y) o.(X) i ⊖
        affine_length (xrmin_spec o) ⊗ sget o.(Mdy) o.(Mdx) i) ⊗
       (sget o.(Y) o.(S) i ⊖
        affine_length (srmin_spec o) ⊗ sget o.(Mdy) o.(Mds) i))
  ⊘ f_of_int (Z.of_nat o.(Nx)).

Definition sigma_spec (o : LinIpm) (μ : F) : F :=
  Pow (mu_affine_spec o ⊘ μ) #3.

(** Modelled from the spec: "Rs[i] += Mdx[i]·Mds[i] − σ·μ". *)
Definition Rs_spec (o : LinIpm) (μ : F) (i : nat) : F :=
  sget o.(R) o.(Rs) i ⊕
  (sget o.(Mdy) o.(Mdx) i ⊗ sget o.(Mdy) o.(Mds) i ⊖ sigma_spec o μ ⊗ μ).

(** Modelled from the spec: "X −= αpa·Mdx; S −= αda·Mds; L −= αda·Mdl"
    with the step lengths of the final ratio test. *)
Definition X_spec (o : LinIpm) (i : nat) : F :=
  sget o.(Y) o.(X) i ⊖ final_length (xrmin_spec o) ⊗ sget o.(Mdy) o.(Mdx) i.

Definition S_spec (o : LinIpm) (i : nat) : F :=
  sget o.(Y) o.(S) i ⊖ final_length (srmin_spec o) ⊗ sget o.(Mdy) o.(Mds) i.

Definition L_spec (o : LinIpm) (j : nat) : F :=
  sget o.(Y) o.(L) j ⊖ final_length (srmin_spec o) ⊗ sget o.(Mdy) o.(Mdl) j.

End RatioTest.

(** ** Concrete problems and states *)

(** In binary64: minimise [-x1 - 2*x2] subject to [x1 + x2 = 4],
    [x >= 0], with at most [nmaxit] passes. *)
Definition vertex_problem (nmaxit : float) : LinIpm (F:=float) :=
  Init (LA:=dense_la) [[1; 1]]%float [4]%float [-1; -2]%float
    [{| N := "nmaxit"; V := nmaxit |}].

(** Its starting point, and the iterate after the first pass. *)
Definition vertex_start (nmaxit : float) : LinIpm (F:=float) :=
  default (vertex_problem nmaxit) (starting_point (vertex_problem nmaxit)).

Definition vertex_pass1 (nmaxit : float) : LinIpm (F:=float) :=
  fst (iteration false false 0 (vertex_start nmaxit)).

(** The same problem in exact arithmetic. *)
Definition vertex_problem_exact : LinIpm (F:=Q) :=
  Init (LA:=dense_la) [[1; 1]]%Q [4]%Q [-1; -2]%Q [].

(** In binary64: minimise [x1 + 5*x2] subject to [x2 = 1], [x >= 0]; its
    only solution is [x = (0, 1)]. *)
Definition degenerate_problem : LinIpm (F:=float) :=
  Init (LA:=dense_la) [[0; 1]]%float [1]%float [1; 5]%float [].

(** A problem with no variable and no constraint, and one with a variable
    and no constraint. *)
Definition empty_problem : LinIpm (F:=float) :=
  Init (LA:=dense_la) [] [] [] [].

Definition unconstrained_problem : LinIpm (F:=float) :=
  Init (LA:=dense_la) [] [] [1]%float [].

(** A configuration that names a tolerance. *)
Definition tol_problem : LinIpm (F:=float) :=
  Init (LA:=dense_la) [[1; 1]]%float [4]%float [-1; -2]%float
    [{| N := "tol"; V := 0.001%float |}].

(** In binary64: minimise [-x1 - x2] subject to [x1 - x2 = 1], [x >= 0],
    an unbounded problem: both variables gain by growing. *)
Definition unbounded_problem : LinIpm (F:=float) :=
  Init (LA:=dense_la) [[1; -1]]%float [1]%float [-1; -1]%float [].

Definition unbounded_start : LinIpm (F:=float) :=
  default unbounded_problem (starting_point unbounded_problem).

(** Its first pass: the state after the first solve (the affine
    direction in [Mdy]), and after the second (the corrected one). *)
Definition unbounded_affine : LinIpm (F:=float) :=
  let o := fst (fst (fst (residual unbounded_start))) in
  let o := assemble_J o in
  let o := set_Lis o (fst (InitR o.(Lis) o.(J) false false false)) in
  let o := set_Lis o (fst (Fact o.(Lis) o.(J))) in
  fst (solve_system o).

Definition unbounded_corrected : LinIpm (F:=float) :=
  fst (solve_system
         (corrector unbounded_affine (snd (residual unbounded_start)))).

(** A state of the solver on [x1 + x2 = 1] in which no entry of the
    direction is positive in [Mdx] or [Mds]: [X = (1, 2)], [L = (0)],
    [S = (3, 4)], [Mdx = (-1, 0)], [Mdl = (0.5)], [Mds = (-2, -0.5)]. *)
Definition no_ratio_state : LinIpm (F:=float) :=
  set_Mdy
    (set_Y (Init (LA:=dense_la) [[1; 1]]%float [1]%float [1; 1]%float [])
       [1; 2; 0; 3; 4]%float)
    [-1; 0; 0.5; -2; -0.5]%float.

(** The smallest positive binary64 number, [2^-1074]. *)
Definition tiny : float := SF2Prim (S754_finite false 1 (-1074)).

(** A state with [X = (tiny)], [S = (1)] and [Mdx = (1)], [Mds = (0)]. *)
Definition tiny_state : LinIpm (F:=float) :=
  set_Mdy
    (set_Y (Init (LA:=dense_la) [[1]]%float [1]%float [1]%float [])
       [tiny; 0%float; 1%float])
    [1; 0; 0]%float.

(** The state in which [Solve] leaves [vertex_problem 50]. *)
Definition vertex_solved : LinIpm (F:=float) :=
  fst (Solve (vertex_problem 50) false).

(** In binary64: minimise [x1 + x2] subject to [x1 + x2 = 1], [x >= 0].
    Every feasible point is a solution; the starting point has [S = 0],
    and the first Jacobian is singular. *)
Definition singular_problem : LinIpm (F:=float) :=
  Init (LA:=dense_la) [[1; 1]]%float [1]%float [1; 1]%float [].

Definition singular_start : LinIpm (F:=float) :=
  default singular_problem (starting_point singular_problem).

(** A state of the exact solver on [x1 + x2 = 4]: [X = (1, 2)],
    [L = (0)], [S = (3, 4)], [Mdx = (1, -1)], [Mdl = (0)],
    [Mds = (2, 4)]. *)
Definition exact_state : LinIpm (F:=Q) :=
  set_Mdy (set_Y vertex_problem_exact [1; 2; 0; 3; 4]%Q)
    [1; -1; 0; 2; 4]%Q.

(** The exact problem with the tolerance set to zero. *)
Definition zero_tol_problem : LinIpm (F:=Q) :=
  set_Tol vertex_problem_exact 0%Q.

(** The vertex problem with the calls to the reference solver
    recorded. *)
Definition vertex_recorded : LinIpm (F:=float) (LA:=recorded dense_la) :=
  Init (LA:=recorded dense_la) [[1; 1]]%float [4]%float [-1; -2]%float [].

(** Splits a conjunction of closed facts and evaluates each. *)
Ltac evaluate :=
  cbv zeta;
  repeat match goal with |- _ /\ _ => split end; vm_compute; reflexivity.

(** ** Properties *)

Section Properties.
Context {F : Type} {FF : Float64 F} {LA : LinAlg F}.
#[local] Existing Instance F_inhabited.

(** *** Initialisation *)

Lemma nmaxit_fold (prms : list Prm) (n0 : Z) :
  fold_left (fun n p => if String.eqb p.(N) "nmaxit"
                        then f_to_int p.(V) else n) prms n0 =
  match supplied "nmaxit" prms with
  | Some v => f_to_int v
  | None => n0
  end.
Proof.
  revert n0. induction prms as [|p rest IH]; intros n0; simpl.
  - reflexivity.
  - rewrite IH. destruct (supplied "nmaxit" rest) as [v|].
    + reflexivity.
    + destruct (String.eqb p.(N) "nmaxit"); reflexivity.
Qed.

Lemma Init_NmaxIt A0 b c prms :
  (Init A0 b c prms).(NmaxIt) =
  match supplied "nmaxit" prms with
  | Some v => f_to_int v
  | None => 50%Z
  end.
Proof. unfold Init. simpl. apply nmaxit_fold. Qed.

Lemma length_make n : length (make n) = n.
Proof. apply length_replicate. Qed.

Lemma Init_wf A0 b c prms : wf (Init A0 b c prms).
Proof.
  split; simpl; rewrite ?length_make; try reflexivity;
    f_equal; lia.
Qed.

(** C5 (as amended): [Init] checks no dimension and reports nothing.
    Whatever the lengths of [b] and [c], zero included, it returns a
    solver with [Nx = len(c)], [Nl = len(b)], [Ny = 2*Nx + Nl], the
    problem stored as given, and the three backing arrays allocated with
    [Ny] zeros and laid out in windows of lengths [Nx], [Nl], [Nx]. *)
Theorem Init_checks_no_dimension A0 b c prms :
  let o := Init A0 b c prms in
  o.(Nx) = length c /\ o.(Nl) = length b /\
  o.(Ny) = 2 * length c + length b /\
  o.(A) = A0 /\ o.(B) = b /\ o.(C) = c /\
  o.(Y) = make o.(Ny) /\ o.(Mdy) = make o.(Ny) /\ o.(R) = make o.(Ny) /\
  wf o.
Proof.
  intros o. repeat split; try reflexivity; apply (Init_wf A0 b c prms).
Qed.

(** C6 (as amended): [Init] recognises the option [nmaxit] only.  After
    [Init], [NmaxIt] is the value supplied under [nmaxit] converted to
    [int] (50 when none is supplied), [Tol] is 1e-8 whatever the
    configuration holds, and every other entry, one named [tol] included,
    is ignored: the configuration matters through its last [nmaxit] entry
    alone. *)
Theorem Init_recognises_nmaxit_only A0 b c prms :
  (Init A0 b c prms).(NmaxIt) =
    match supplied "nmaxit" prms with
    | Some v => f_to_int v
    | None => 50%Z
    end /\
  (Init A0 b c prms).(Tol) = #1e-8 /\
  Init A0 b c prms =
    Init A0 b c match supplied "nmaxit" prms with
                | Some v => [{| N := "nmaxit"; V := v |}]
                | None => []
                end.
Proof.
  split; [apply Init_NmaxIt|]. split; [reflexivity|].
  unfold Init. rewrite nmaxit_fold.
  destruct (supplied "nmaxit" prms) as [v|]; reflexivity.
Qed.

(** *** Loops *)

Lemma length_swrite (buf : list F) s vs :
  length (swrite buf s vs) = length buf.
Proof. apply length_inserts. Qed.

Lemma length_fill (buf vs : list F) : length (fill buf vs) = length buf.
Proof. apply length_inserts. Qed.

Lemma for_range_proj {St T : Type} (proj : St -> T)
    (body : nat -> St -> St) (g : nat -> T -> T) lo hi s :
  (forall i s, proj (body i s) = g i (proj s)) ->
  proj (for_range lo hi body s) = for_range lo hi g (proj s).
Proof.
  intros Hstep. unfold for_range. revert s.
  induction (seq lo (hi - lo)) as [|i l IH]; intros s; simpl.
  - reflexivity.
  - rewrite IH, Hstep. reflexivity.
Qed.

Lemma fold_seq_inv {St : Type} (P : nat -> St -> Prop)
    (body : nat -> St -> St) n :
  forall lo s,
    P lo s ->
    (forall i s, lo <= i < lo + n -> P i s -> P (Datatypes.S i) (body i s)) ->
    P (lo + n) (fold_left (fun s i => body i s) (seq lo n) s).
Proof.
  induction n as [|n IH]; intros lo s H0 Hstep; simpl.
  - rewrite Nat.add_0_r. exact H0.
  - replace (lo + Datatypes.S n) with (Datatypes.S lo + n) by lia.
    apply IH.
    + apply Hstep; [lia|exact H0].
    + intros i s' Hi. apply Hstep. lia.
Qed.

Lemma for_range_inv {St : Type} (P : nat -> St -> Prop)
    (body : nat -> St -> St) lo hi s :
  lo <= hi -> P lo s ->
  (forall i s, lo <= i < hi -> P i s -> P (Datatypes.S i) (body i s)) ->
  P hi (for_range lo hi body s).
Proof.
  intros Hle H0 Hstep. unfold for_range.
  replace hi with (lo + (hi - lo)) at 1 by lia.
  apply fold_seq_inv; [exact H0|].
  intros i s' Hi. apply Hstep. lia.
Qed.

Lemma for_range_sum (n : nat) (f : nat -> F) :
  for_range 0 n (fun i acc => acc ⊕ f i) (#0) = sum_over n f.
Proof. unfold for_range, sum_over. rewrite Nat.sub_0_r. reflexivity. Qed.

Lemma for_range_S {St : Type} (body : nat -> St -> St) lo hi s :
  lo <= hi ->
  for_range lo (Datatypes.S hi) body s = body hi (for_range lo hi body s).
Proof.
  intros Hle. unfold for_range.
  replace (Datatypes.S hi - lo) with (Datatypes.S (hi - lo)) by lia.
  rewrite seq_S, fold_left_app. simpl.
  replace (lo + (hi - lo)) with hi by lia. reflexivity.
Qed.

Lemma sum_over_S (n : nat) (f : nat -> F) :
  sum_over (Datatypes.S n) f = sum_over n f ⊕ f n.
Proof.
  unfold sum_over. rewrite seq_S, fold_left_app. reflexivity.
Qed.

(** A loop that rewrites one window element by element. *)
Lemma map1_loop (y0 : list F) (s : slice) (g : nat -> F -> F) n k :
  k <= n -> off s + n <= length y0 ->
  let y := for_range 0 k
             (fun i y => sset y s i (g i (sget y s i))) y0 in
  length y = length y0 /\
  forall j, y !!! j =
            if decide (off s <= j < off s + k)
            then g (j - off s) (y0 !!! j) else y0 !!! j.
Proof.
  intros Hk Hlen. cbv zeta.
  set (P := fun (k : nat) (y : list F) =>
              k <= n -> length y = length y0 /\
              forall j, y !!! j =
                        if decide (off s <= j < off s + k)
                        then g (j - off s) (y0 !!! j) else y0 !!! j).
  enough (HP : P k (for_range 0 k
                      (fun i y => sset y s i (g i (sget y s i))) y0))
    by exact (HP Hk).
  apply (for_range_inv P); [lia| |]; unfold P.
  - intros _. split; [reflexivity|]. intros j.
    case_decide; [lia|reflexivity].
  - intros i y Hi IH Hle. destruct IH as [IHlen IHj]; [lia|].
    unfold sset, sget. split; [rewrite length_insert; exact IHlen|].
    intros j. rewrite list_lookup_total_insert, !IHj.
    repeat case_decide; try lia; try reflexivity.
    replace (j - off s) with i by lia.
    replace (off s + i) with j by lia. reflexivity.
Qed.

(** A loop that rewrites two windows side by side, element by element. *)
Lemma map2_loop (y0 : list F) (s1 s2 : slice) (g1 g2 : nat -> F -> F) n k :
  k <= n -> off s1 + n <= off s2 -> off s2 + n <= length y0 ->
  let y := for_range 0 k
             (fun i y =>
                let y := sset y s1 i (g1 i (sget y s1 i)) in
                sset y s2 i (g2 i (sget y s2 i))) y0 in
  length y = length y0 /\
  forall j, y !!! j =
            if decide (off s1 <= j < off s1 + k)
            then g1 (j - off s1) (y0 !!! j)
            else if decide (off s2 <= j < off s2 + k)
                 then g2 (j - off s2) (y0 !!! j) else y0 !!! j.
Proof.
  intros Hk H12 Hlen. cbv zeta.
  set (P := fun (k : nat) (y : list F) =>
              k <= n -> length y = length y0 /\
              forall j, y !!! j =
                        if decide (off s1 <= j < off s1 + k)
                        then g1 (j - off s1) (y0 !!! j)
                        else if decide (off s2 <= j < off s2 + k)
                             then g2 (j - off s2) (y0 !!! j)
                             else y0 !!! j).
  enough (HP : P k (for_range 0 k
                      (fun i y =>
                         let y := sset y s1 i (g1 i (sget y s1 i)) in
                         sset y s2 i (g2 i (sget y s2 i))) y0))
    by exact (HP Hk).
  apply (for_range_inv P); [lia| |]; unfold P.
  - intros _. split; [reflexivity|]. intros j.
    repeat case_decide; try lia; reflexivity.
  - intros i y Hi IH Hle. destruct IH as [IHlen IHj]; [lia|].
    unfold sset, sget. split; [rewrite !length_insert; exact IHlen|].
    intros j.
    rewrite !list_lookup_total_insert, ?length_insert, !IHj.
    repeat case_decide; try lia; try reflexivity.
    + replace (j - off s2) with i by lia.
      replace (off s2 + i) with j by lia. reflexivity.
    + replace (j - off s1) with i by lia.
      replace (off s1 + i) with j by lia. reflexivity.
Qed.

(** *** The residual and the convergence test *)

Lemma for_range_const {T : Type} lo hi (x : T) :
  for_range lo hi (fun _ x => x) x = x.
Proof.
  unfold for_range. induction (seq lo (hi - lo)); [reflexivity|assumption].
Qed.

Lemma residual_spec (o : LinIpm) :
  exists r,
    length r = length o.(R) /\
    residual o =
    (set_R o r,
     sum_over o.(Nx) (fun i => o.(C) !!! i ⊗ sget o.(Y) o.(X) i),
     sum_over o.(Nl) (fun i => o.(B) !!! i ⊗ sget o.(Y) o.(L) i),
     sum_over o.(Nx) (fun i => sget o.(Y) o.(X) i ⊗ sget o.(Y) o.(S) i)
       ⊘ f_of_int (Z.of_nat o.(Nx))).
Proof.
  unfold residual.
  match goal with
  | |- context [for_range 0 (Nx o) ?body ?s0] =>
      pose proof (for_range_proj (fun '(r, ctx, μ) => ctx) body
                    (fun i acc => acc ⊕ o.(C) !!! i ⊗ sget o.(Y) o.(X) i)
                    0 o.(Nx) s0) as Hctx;
      pose proof (for_range_proj (fun '(r, ctx, μ) => μ) body
                    (fun i acc =>
                       acc ⊕ sget o.(Y) o.(X) i ⊗ sget o.(Y) o.(S) i)
                    0 o.(Nx) s0) as Hmu;
      pose proof (for_range_proj (fun '(r, ctx, μ) => length r) body
                    (fun _ n => n) 0 o.(Nx) s0) as Hlen1;
      destruct (for_range 0 (Nx o) body s0) as [[r1 ctx] μ]
  end.
  rewrite Hctx, for_range_sum by (intros i [[? ?] ?]; reflexivity).
  rewrite Hmu, for_range_sum by (intros i [[? ?] ?]; reflexivity).
  rewrite for_range_const, !length_swrite in Hlen1.
  specialize (Hlen1 ltac:(intros i [[? ?] ?]; unfold sset;
                           rewrite !length_insert; reflexivity)).
  clear Hctx Hmu.
  match goal with
  | |- context [for_range 0 (Nl o) ?body ?s0] =>
      pose proof (for_range_proj (fun '(r, btl) => btl) body
                    (fun i acc => acc ⊕ o.(B) !!! i ⊗ sget o.(Y) o.(L) i)
                    0 o.(Nl) s0) as Hbtl;
      pose proof (for_range_proj (fun '(r, btl) => length r) body
                    (fun _ n => n) 0 o.(Nl) s0) as Hlen2;
      destruct (for_range 0 (Nl o) body s0) as [r2 btl]
  end.
  rewrite Hbtl, for_range_sum by (intros i [? ?]; reflexivity).
  rewrite for_range_const in Hlen2.
  specialize (Hlen2 ltac:(intros i [? ?]; unfold sset;
                           rewrite !length_insert; reflexivity)).
  exists r2. split; [congruence|reflexivity].
Qed.

Lemma iteration_break sym tim it o :
  (rel_err (ctx_at o) (btl_at o) ≺ o.(Tol)) = true ->
  iteration sym tim it o = (fst (fst (fst (residual o))), Break).
Proof.
  intros Hlt. unfold iteration.
  destruct (residual_spec o) as (r & _ & ->). simpl.
  unfold rel_err, ctx_at, btl_at in Hlt. rewrite Hlt. reflexivity.
Qed.

Lemma attempt_not_break r k :
  (forall o', snd (k o') <> Break) -> snd (attempt r k) <> Break.
Proof.
  intros Hk. destruct r as [o' [e|]]; simpl; [discriminate|apply Hk].
Qed.

Lemma iteration_no_break sym tim it o :
  (rel_err (ctx_at o) (btl_at o) ≺ o.(Tol)) = false ->
  snd (iteration sym tim it o) <> Break.
Proof.
  intros Hlt. unfold iteration.
  destruct (residual_spec o) as (r & _ & ->). simpl.
  unfold rel_err, ctx_at, btl_at in Hlt. rewrite Hlt.
  repeat (apply attempt_not_break; intros ?). simpl. discriminate.
Qed.

Lemma full_passes_iterations n it o o' :
  full_passes n it o o' ->
  iterations false false n it o = (o', (it + Z.of_nat n)%Z, Fell).
Proof.
  induction 1 as [it o|n it o o' o'' Hpass _ IH]; simpl.
  - rewrite Z.add_0_r. reflexivity.
  - rewrite Hpass, IH. do 2 f_equal. lia.
Qed.

Lemma full_passes_then n m it o o' :
  full_passes n it o o' ->
  iterations false false (n + Datatypes.S m) it o =
  match iteration false false (it + Z.of_nat n)%Z o' with
  | (o'', Continue) =>
      iterations false false m (it + Z.of_nat n + 1)%Z o''
  | (o'', Break) => (o'', (it + Z.of_nat n)%Z, Broke)
  | (o'', Return e) => (o'', (it + Z.of_nat n)%Z, Left e)
  end.
Proof.
  induction 1 as [it o|n it o o' o'' Hpass _ IH]; simpl.
  - rewrite Z.add_0_r. reflexivity.
  - rewrite Hpass, IH.
    replace (it + 1 + Z.of_nat n)%Z with (it + Z.pos (Pos.of_succ_nat n))%Z
      by lia.
    reflexivity.
Qed.

(** *** What a call of [Solve] leaves alone *)

Lemma frame_refl o : frame o o.
Proof. destruct o. reflexivity. Qed.

Lemma frame_trans o1 o2 o3 : frame o1 o2 -> frame o2 o3 -> frame o1 o3.
Proof.
  unfold frame. intros H12 H23. rewrite H23. rewrite H12 at 1.
  reflexivity.
Qed.

Lemma frame_set_Y o y : frame o (set_Y o y).
Proof. destruct o. reflexivity. Qed.

Lemma frame_set_Mdy o y : frame o (set_Mdy o y).
Proof. destruct o. reflexivity. Qed.

Lemma frame_set_R o y : frame o (set_R o y).
Proof. destruct o. reflexivity. Qed.

Lemma frame_set_J o j : frame o (set_J o j).
Proof. destruct o. reflexivity. Qed.

Lemma frame_set_Lis o l : frame o (set_Lis o l).
Proof. destruct o. reflexivity. Qed.

Lemma frame_starting_la o : frame o (starting_la o).
Proof.
  unfold starting_la. destruct (SPDsolve2 _ _ _ _ _) as [d' l].
  destruct o. reflexivity.
Qed.

Lemma starting_shift_Some o o1 :
  starting_shift o = Some o1 -> exists y, o1 = set_Y o y.
Proof.
  unfold starting_shift.
  destruct ((len o.(X) =? 0) || (len o.(S) =? 0)); [discriminate|].
  destruct (for_range 1 _ _ _) as [xmin smin].
  destruct (for_range 0 _ _ _) as [[[y xdots] xsum] ssum].
  intros [= <-]. eexists. reflexivity.
Qed.

Lemma frame_starting_point o o1 : starting_point o = Some o1 -> frame o o1.
Proof.
  unfold starting_point. intros Hs.
  apply starting_shift_Some in Hs as [y ->].
  eapply frame_trans; [apply frame_starting_la|apply frame_set_Y].
Qed.

Lemma starting_point_frame_Y o o1 :
  starting_point o = Some o1 -> o1 = set_Y o o1.(Y).
Proof.
  unfold starting_point. intros Hs.
  apply starting_shift_Some in Hs as [y ->].
  unfold starting_la. destruct (SPDsolve2 _ _ _ _ _) as [d' l].
  reflexivity.
Qed.

Lemma starting_point_Some o :
  0 < len o.(X) -> 0 < len o.(S) -> exists o1, starting_point o = Some o1.
Proof.
  intros HX HS. unfold starting_point, starting_shift.
  pose proof (frame_starting_la o) as Hf. rewrite Hf. simpl.
  destruct (len o.(X)); [lia|]. destruct (len o.(S)); [lia|]. simpl.
  destruct (for_range 1 _ _ _) as [xmin smin].
  destruct (for_range 0 _ _ _) as [[[y xdots] xsum] ssum].
  eexists. reflexivity.
Qed.

Lemma frame_residual o : frame o (fst (fst (fst (residual o)))).
Proof. destruct (residual_spec o) as (r & _ & ->). apply frame_set_R. Qed.

Lemma frame_solve_system o : frame o (fst (solve_system o)).
Proof.
  unfold solve_system. destruct (SolveR _ _ _ _) as [[lis mdy] err].
  destruct o. reflexivity.
Qed.

Lemma frame_corrector o μ : frame o (corrector o μ).
Proof.
  unfold corrector. destruct (calc_min_ratios o). apply frame_set_R.
Qed.

Lemma frame_step o : frame o (step o).
Proof. unfold step. destruct (calc_min_ratios o). apply frame_set_Y. Qed.

Lemma frame_attempt o r k :
  frame o (fst r) ->
  (forall o', frame o o' -> frame o (fst (k o'))) ->
  frame o (fst (attempt r k)).
Proof.
  intros Hr Hk. destruct r as [o' [e|]]; simpl in *; [exact Hr|].
  apply Hk, Hr.
Qed.

Lemma frame_iteration sym tim it o : frame o (fst (iteration sym tim it o)).
Proof.
  unfold iteration. pose proof (frame_residual o) as Hr.
  destruct (residual o) as [[[o1 ctx] btl] μ]. simpl in Hr.
  destruct (_ ≺ _); [exact Hr|].
  assert (Hj : frame o (assemble_J o1)).
  { eapply frame_trans; [exact Hr|apply frame_set_J]. }
  apply frame_attempt.
  { destruct (it =? 0)%Z; [|exact Hj].
    destruct (InitR _ _ _ _ _) as [lis err]. simpl.
    eapply frame_trans; [exact Hj|apply frame_set_Lis]. }
  intros o2 H2. apply frame_attempt.
  { destruct (Fact _ _) as [lis err]. simpl.
    eapply frame_trans; [exact H2|apply frame_set_Lis]. }
  intros o3 H3. apply frame_attempt.
  { eapply frame_trans; [exact H3|apply frame_solve_system]. }
  intros o4 H4. apply frame_attempt.
  { eapply frame_trans; [exact H4|].
    eapply frame_trans; [apply frame_corrector|apply frame_solve_system]. }
  intros o5 H5. simpl.
  eapply frame_trans; [exact H5|apply frame_step].
Qed.

Lemma frame_NmaxIt o o' : frame o o' -> o'.(NmaxIt) = o.(NmaxIt).
Proof. intros ->. reflexivity. Qed.

Lemma frame_full_passes n it o o' : full_passes n it o o' -> frame o o'.
Proof.
  induction 1 as [it o|n it o o' o'' Hpass _ IH].
  - apply frame_refl.
  - eapply frame_trans; [|exact IH].
    pose proof (frame_iteration false false it o) as Hi.
    rewrite Hpass in Hi. exact Hi.
Qed.

(** *** The iteration loop *)

Lemma Solve_fell o verbose o1 o2 :
  starting_point o = Some o1 ->
  (0 <= o.(NmaxIt))%Z ->
  full_passes (Z.to_nat o.(NmaxIt)) 0 o1 o2 ->
  Solve o verbose = (o2, Returned (Some "iterations did not converge")).
Proof.
  intros Hs Hn Hp. unfold Solve. rewrite Hs.
  pose proof (frame_starting_point _ _ Hs) as Hf1.
  rewrite (frame_NmaxIt _ _ Hf1).
  rewrite (full_passes_iterations _ _ _ _ Hp).
  rewrite (frame_NmaxIt _ _ (frame_full_passes _ _ _ _ Hp)).
  rewrite (frame_NmaxIt _ _ Hf1).
  replace (0 + Z.of_nat (Z.to_nat o.(NmaxIt)))%Z with o.(NmaxIt) by lia.
  rewrite Z.eqb_refl. reflexivity.
Qed.

Lemma Solve_skipped o verbose o1 :
  starting_point o = Some o1 ->
  (o.(NmaxIt) < 0)%Z ->
  Solve o verbose = (o1, Returned None).
Proof.
  intros Hs Hn. unfold Solve. rewrite Hs.
  pose proof (frame_starting_point _ _ Hs) as Hf1.
  rewrite (frame_NmaxIt _ _ Hf1).
  replace (Z.to_nat o.(NmaxIt)) with 0 by lia. cbn [iterations].
  rewrite (frame_NmaxIt _ _ Hf1).
  destruct (Z.eqb_spec 0 o.(NmaxIt)); [lia|reflexivity].
Qed.

Lemma Solve_broke o verbose o1 n o2 :
  starting_point o = Some o1 ->
  full_passes n 0 o1 o2 ->
  (Z.of_nat n < o.(NmaxIt))%Z ->
  (rel_err (ctx_at o2) (btl_at o2) ≺ o2.(Tol)) = true ->
  Solve o verbose = (fst (fst (fst (residual o2))), Returned None).
Proof.
  intros Hs Hp Hn Hlt. unfold Solve. rewrite Hs.
  pose proof (frame_starting_point _ _ Hs) as Hf1.
  pose proof (frame_full_passes _ _ _ _ Hp) as Hf2.
  rewrite (frame_NmaxIt _ _ Hf1).
  replace (Z.to_nat o.(NmaxIt))
    with (n + Datatypes.S (Z.to_nat o.(NmaxIt) - n - 1)) by lia.
  rewrite (full_passes_then _ _ _ _ _ Hp).
  rewrite (iteration_break _ _ _ _ Hlt).
  rewrite (frame_NmaxIt _ _ (frame_residual o2)).
  rewrite (frame_NmaxIt _ _ Hf2), (frame_NmaxIt _ _ Hf1).
  destruct (Z.eqb_spec (0 + Z.of_nat n) o.(NmaxIt)); [lia|reflexivity].
Qed.

(** C3: at the top of every pass through the loop, reached after [n]
    full passes with [n < NmaxIt], [Solve] leaves the loop by [break]
    exactly when [|ctx - btl| / (1 + |ctx|) < Tol], with [ctx = cᵀX] and
    [btl = bᵀL] taken at the current iterate, and then it returns no
    error; nothing but the two objective values and the tolerance enters
    the test. *)
Theorem convergence_is_objective_gap o verbose o1 n o2 :
  starting_point o = Some o1 ->
  full_passes n 0 o1 o2 ->
  (Z.of_nat n < o.(NmaxIt))%Z ->
  (snd (iteration false false (Z.of_nat n) o2) = Break <->
   (rel_err (ctx_at o2) (btl_at o2) ≺ o2.(Tol)) = true) /\
  ((rel_err (ctx_at o2) (btl_at o2) ≺ o2.(Tol)) = true ->
   Solve o verbose = (fst (fst (fst (residual o2))), Returned None)).
Proof.
  intros Hs Hp Hn. split.
  - split.
    + intros Hb.
      destruct (rel_err (ctx_at o2) (btl_at o2) ≺ o2.(Tol)) eqn:Hlt;
        [reflexivity|].
      exfalso. exact (iteration_no_break _ _ _ _ Hlt Hb).
    + intros Hlt. rewrite (iteration_break _ _ _ _ Hlt). reflexivity.
  - intros Hlt. exact (Solve_broke _ verbose _ _ _ Hs Hp Hn Hlt).
Qed.

(** C4: when the loop makes [NmaxIt] full passes, none of which ends at
    the convergence test, [Solve] returns the error "iterations did not
    converge"; with [NmaxIt = 0] this happens at once, at the starting
    point, with the residual, the direction, the Jacobian and the linear
    solver untouched. *)
Theorem Solve_iterations_exhausted o verbose o1 o2 :
  starting_point o = Some o1 ->
  (0 <= o.(NmaxIt))%Z ->
  full_passes (Z.to_nat o.(NmaxIt)) 0 o1 o2 ->
  Solve o verbose = (o2, Returned (Some "iterations did not converge")) /\
  (o.(NmaxIt) = 0%Z ->
   o2 = o1 /\ o2.(R) = o.(R) /\ o2.(Mdy) = o.(Mdy) /\
   o2.(J) = o.(J) /\ o2.(Lis) = o.(Lis)).
Proof.
  intros Hs Hn Hp. split; [exact (Solve_fell _ verbose _ _ Hs Hn Hp)|].
  intros H0. rewrite H0 in Hp. simpl in Hp. inversion Hp; subst.
  apply starting_point_frame_Y in Hs. rewrite Hs.
  repeat split; reflexivity.
Qed.

(** C10: when the configuration supplies an [nmaxit] that [int(p.V)]
    converts to a negative number (a value of -1 or below), [Solve] (on a
    problem with at least one variable) returns no error after the
    starting point: no pass through the loop is made, and the residual,
    the direction, the Jacobian and the linear solver are as [Init] left
    them. *)
Theorem Solve_negative_nmaxit A0 b c prms v verbose :
  supplied "nmaxit" prms = Some v ->
  (f_to_int v < 0)%Z ->
  0 < length c ->
  let o := Init A0 b c prms in
  exists o1,
    starting_point o = Some o1 /\
    Solve o verbose = (o1, Returned None) /\
    iterations false false (Z.to_nat o.(NmaxIt)) 0 o1 = (o1, 0%Z, Fell) /\
    o1.(R) = o.(R) /\ o1.(Mdy) = o.(Mdy) /\
    o1.(J) = o.(J) /\ o1.(Lis) = o.(Lis).
Proof.
  intros Hv Hneg Hc o.
  destruct (starting_point_Some o) as [o1 Hs]; [simpl; lia..|].
  assert (HN : (o.(NmaxIt) < 0)%Z).
  { unfold o. rewrite Init_NmaxIt, Hv. exact Hneg. }
  exists o1. split; [exact Hs|]. split; [exact (Solve_skipped _ _ _ Hs HN)|].
  split.
  { replace (Z.to_nat o.(NmaxIt)) with 0 by lia. reflexivity. }
  apply starting_point_frame_Y in Hs. rewrite Hs.
  repeat split; reflexivity.
Qed.

(** *** The ratio test *)

Lemma calc_min_ratios_split o :
  calc_min_ratios o =
  (fst (for_range 0 o.(Nx)
          (ratio_step (sget o.(Y) o.(X)) (sget o.(Mdy) o.(Mdx)))
          (#0, true)),
   fst (for_range 0 o.(Nx)
          (ratio_step (sget o.(Y) o.(S)) (sget o.(Mdy) o.(Mds)))
          (#0, true))).
Proof.
  unfold calc_min_ratios.
  match goal with
  | |- context [for_range 0 (Nx o) ?body ?s0] =>
      pose proof (for_range_proj
                    (fun '(xrmin, srmin, fx, fs) => (xrmin, fx : bool)) body
                    (ratio_step (sget o.(Y) o.(X)) (sget o.(Mdy) o.(Mdx)))
                    0 o.(Nx) s0) as Hx;
      pose proof (for_range_proj
                    (fun '(xrmin, srmin, fx, fs) => (srmin, fs : bool)) body
                    (ratio_step (sget o.(Y) o.(S)) (sget o.(Mdy) o.(Mds)))
                    0 o.(Nx) s0) as Hs;
      destruct (for_range 0 (Nx o) body s0) as [[[xrmin srmin] fx] fs]
  end.
  rewrite <- Hx, <- Hs; [reflexivity| |];
    intros i [[[xr sr] fx'] fs']; unfold ratio_step;
    destruct (#0 ≺ _), (#0 ≺ _), fx', fs'; reflexivity.
Qed.

Lemma ratio_loop_none (v mdv : nat -> F) n :
  (forall i, i < n -> (#0 ≺ mdv i) = false) ->
  for_range 0 n (ratio_step v mdv) (#0, true) = (#0, true).
Proof.
  intros Hnone.
  set (P := fun (k : nat) (st : F * bool) => k <= n -> st = (#0, true)).
  enough (HP : P n (for_range 0 n (ratio_step v mdv) (#0, true)))
    by (apply HP; lia).
  apply (for_range_inv P); [lia| |]; unfold P.
  - reflexivity.
  - intros i st Hi IH Hle. rewrite IH by lia. unfold ratio_step.
    rewrite Hnone by lia. reflexivity.
Qed.

(** When no [Mdx[i]] is positive, [xrmin] keeps the zero value it starts
    with, and likewise [srmin] when no [Mds[i]] is positive. *)
Lemma calc_min_ratios_none o :
  ((forall i, i < o.(Nx) -> (#0 ≺ sget o.(Mdy) o.(Mdx) i) = false) ->
   fst (calc_min_ratios o) = #0) /\
  ((forall i, i < o.(Nx) -> (#0 ≺ sget o.(Mdy) o.(Mds) i) = false) ->
   snd (calc_min_ratios o) = #0).
Proof.
  rewrite calc_min_ratios_split. cbn [fst snd].
  split; intros Hnone; rewrite ratio_loop_none by exact Hnone; reflexivity.
Qed.

(** *** The update of the iterate *)

Lemma wf_offsets o :
  wf o ->
  off o.(X) = 0 /\ off o.(L) = o.(Nx) /\ off o.(S) = o.(Nx) + o.(Nl).
Proof.
  intros Hwf. rewrite (wf_X _ Hwf), (wf_L _ Hwf), (wf_S _ Hwf).
  repeat split; reflexivity.
Qed.

Lemma step_spec o :
  wf o ->
  let αpa := min #1 (#0.99 ⊗ fst (calc_min_ratios o)) in
  let αda := min #1 (#0.99 ⊗ snd (calc_min_ratios o)) in
  exists y,
    step o = set_Y o y /\ length y = length o.(Y) /\
    (forall i, i < o.(Nx) ->
       sget y o.(X) i = sget o.(Y) o.(X) i ⊖ αpa ⊗ sget o.(Mdy) o.(Mdx) i) /\
    (forall i, i < o.(Nx) ->
       sget y o.(S) i = sget o.(Y) o.(S) i ⊖ αda ⊗ sget o.(Mdy) o.(Mds) i) /\
    (forall i, i < o.(Nl) ->
       sget y o.(L) i = sget o.(Y) o.(L) i ⊖ αda ⊗ sget o.(Mdy) o.(Mdl) i).
Proof.
  intros Hwf. cbv zeta. unfold step.
  destruct (calc_min_ratios o) as [xrmin srmin]. cbn [fst snd].
  set (αpa := min #1 (#0.99 ⊗ xrmin)). set (αda := min #1 (#0.99 ⊗ srmin)).
  pose proof (map2_loop o.(Y) o.(X) o.(S)
                (fun i v => v ⊖ αpa ⊗ sget o.(Mdy) o.(Mdx) i)
                (fun i v => v ⊖ αda ⊗ sget o.(Mdy) o.(Mds) i)
                o.(Nx) o.(Nx)) as H1.
  cbv zeta beta in H1.
  destruct H1 as [Hlen1 H1];
    [lia|rewrite (wf_X _ Hwf), (wf_S _ Hwf); simpl; lia
    |rewrite (wf_S _ Hwf), (wf_Y _ Hwf); simpl; lia|].
  match type of Hlen1 with length ?t = _ => set (y1 := t) in * end.
  pose proof (map1_loop y1 o.(L)
                (fun i v => v ⊖ αda ⊗ sget o.(Mdy) o.(Mdl) i)
                o.(Nl) o.(Nl)) as H2.
  cbv zeta beta in H2.
  destruct H2 as [Hlen2 H2];
    [lia|rewrite Hlen1, (wf_L _ Hwf), (wf_Y _ Hwf); simpl; lia|].
  match type of Hlen2 with length ?t = _ => set (y2 := t) in * end.
  exists y2. split; [reflexivity|]. split; [congruence|].
  destruct (wf_offsets o Hwf) as (EX & EL & ES).
  unfold sget in H1, H2. unfold sget.
  repeat split; intros i Hi; rewrite H2, H1;
    repeat case_decide; try lia; repeat f_equal; lia.
Qed.

(** What the update computes, with the ratios as [calc_min_ratios]
    returns them (zero when no entry qualifies): it takes the step lengths
    [αpa = min(1, 0.99*xrmin)] and [αda = min(1, 0.99*srmin)] from the
    ratios of the current (corrected) direction and sets
    [X[i] -= αpa*Mdx[i]], [S[i] -= αda*Mds[i]] for every [i] and
    [L[j] -= αda*Mdl[j]] for every [j]: the multipliers move with the dual
    step length.  Nothing but [Y] changes. *)
Theorem step_update o :
  wf o ->
  let αpa := min #1 (#0.99 ⊗ fst (calc_min_ratios o)) in
  let αda := min #1 (#0.99 ⊗ snd (calc_min_ratios o)) in
  let o' := step o in
  (forall i, i < o.(Nx) ->
     sget o'.(Y) o'.(X) i =
       sget o.(Y) o.(X) i ⊖ αpa ⊗ sget o.(Mdy) o.(Mdx) i /\
     sget o'.(Y) o'.(S) i =
       sget o.(Y) o.(S) i ⊖ αda ⊗ sget o.(Mdy) o.(Mds) i) /\
  (forall j, j < o.(Nl) ->
     sget o'.(Y) o'.(L) j =
       sget o.(Y) o.(L) j ⊖ αda ⊗ sget o.(Mdy) o.(Mdl) j) /\
  o' = set_Y o o'.(Y).
Proof.
  intros Hwf αpa αda o'.
  destruct (step_spec o Hwf) as (y & Hy & _ & HX & HS & HL).
  unfold o'. rewrite Hy. simpl.
  split; [intros i Hi; split; [apply HX|apply HS]; exact Hi|].
  split; [exact HL|reflexivity].
Qed.

(** *** The update of the residual *)

Lemma corrector_spec o μ :
  wf o ->
  exists r,
    corrector o μ = set_R o r /\ length r = length o.(R) /\
    (forall i, i < o.(Nx) ->
       sget r o.(Rs) i =
       sget o.(R) o.(Rs) i ⊕
       (sget o.(Mdy) o.(Mdx) i ⊗ sget o.(Mdy) o.(Mds) i ⊖
        sigma o μ ⊗ μ)) /\
    (forall j, j < o.(Nx) + o.(Nl) -> r !!! j = o.(R) !!! j).
Proof.
  intros Hwf. unfold corrector, sigma, mu_affine, affine_steps.
  destruct (calc_min_ratios o) as [xrmin srmin]. cbn [fst snd].
  rewrite for_range_sum.
  match goal with
  | |- context [Pow ?a ?b] => set (σ := Pow a b)
  end.
  pose proof (map1_loop o.(R) o.(Rs)
                (fun i v =>
                   v ⊕ (sget o.(Mdy) o.(Mdx) i ⊗ sget o.(Mdy) o.(Mds) i ⊖
                         σ ⊗ μ))
                o.(Nx) o.(Nx)) as H1.
  cbv zeta beta in H1.
  destruct H1 as [Hlen1 H1];
    [lia|rewrite (wf_Rs _ Hwf), (wf_R _ Hwf); simpl; lia|].
  match type of Hlen1 with length ?t = _ => set (r1 := t) in * end.
  exists r1. split; [reflexivity|]. split; [exact Hlen1|].
  assert (ERs : off o.(Rs) = o.(Nx) + o.(Nl))
    by (rewrite (wf_Rs _ Hwf); reflexivity).
  unfold sget in H1. unfold sget.
  split; intros i Hi; rewrite H1;
    repeat case_decide; try lia; repeat f_equal; lia.
Qed.

(** What the corrector computes, with the ratios as [calc_min_ratios]
    returns them (zero when no entry qualifies): only the [Rs] window of [R]
    changes.  With [αpa = min(1, xrmin)] and [αda = min(1, srmin)] of the
    affine direction, [μaff = (Σᵢ (X[i] - αpa*Mdx[i]) * (S[i] -
    αda*Mds[i])) / Nx] and [σ = (μaff/μ)³], every [Rs[i]] grows by
    [Mdx[i]*Mds[i] - σ*μ], and [Rx], [Rl] and everything outside [R] stay
    as they are. *)
Theorem corrector_updates_Rs_only o μ :
  wf o ->
  let o' := corrector o μ in
  (forall i, i < o.(Nx) ->
     sget o'.(R) o'.(Rs) i =
     sget o.(R) o.(Rs) i ⊕
     (sget o.(Mdy) o.(Mdx) i ⊗ sget o.(Mdy) o.(Mds) i ⊖ sigma o μ ⊗ μ) /\
     sget o'.(R) o'.(Rx) i = sget o.(R) o.(Rx) i) /\
  (forall j, j < o.(Nl) -> sget o'.(R) o'.(Rl) j = sget o.(R) o.(Rl) j) /\
  o' = set_R o o'.(R).
Proof.
  intros Hwf o'.
  destruct (corrector_spec o μ Hwf) as (r & Hr & _ & HRs & Hrest).
  unfold o'. rewrite Hr. simpl.
  split; [|split; [|reflexivity]].
  - intros i Hi. split; [apply HRs; exact Hi|].
    unfold sget. apply Hrest. rewrite (wf_Rx _ Hwf). simpl. lia.
  - intros j Hj. unfold sget. apply Hrest.
    rewrite (wf_Rl _ Hwf). simpl. lia.
Qed.

(** *** The starting point *)

Lemma min_loop (o : LinIpm) :
  for_range 1 o.(Nx)
    (fun i '(xmin, smin) =>
       (min xmin (sget o.(Y) o.(X) i), min smin (sget o.(Y) o.(S) i)))
    (sget o.(Y) o.(X) 0, sget o.(Y) o.(S) 0) =
  (min_over o.(Nx) (sget o.(Y) o.(X)), min_over o.(Nx) (sget o.(Y) o.(S))).
Proof.
  match goal with
  | |- for_range 1 _ ?body ?s0 = _ =>
      pose proof (for_range_proj fst body
                    (fun i m => min m (sget o.(Y) o.(X) i)) 1 o.(Nx) s0)
        as Hx;
      pose proof (for_range_proj snd body
                    (fun i m => min m (sget o.(Y) o.(S) i)) 1 o.(Nx) s0)
        as Hs;
      destruct (for_range 1 o.(Nx) body s0) as [xmin smin]
  end.
  simpl in Hx, Hs.
  rewrite Hx, Hs by (intros i [? ?]; reflexivity). reflexivity.
Qed.

Lemma shift_loop (o : LinIpm) (δx δs : F) :
  wf o ->
  let plain := fun i y =>
                 let y := sset y o.(X) i (sget y o.(X) i ⊕ δx) in
                 sset y o.(S) i (sget y o.(S) i ⊕ δs) in
  for_range 0 o.(Nx)
    (fun i '(y, xdots, xsum, ssum) =>
       let y := sset y o.(X) i (sget y o.(X) i ⊕ δx) in
       let y := sset y o.(S) i (sget y o.(S) i ⊕ δs) in
       (y,
        xdots ⊕ sget y o.(X) i ⊗ sget y o.(S) i,
        xsum ⊕ sget y o.(X) i,
        ssum ⊕ sget y o.(S) i))
    (o.(Y), #0, #0, #0) =
  (for_range 0 o.(Nx) plain o.(Y),
   sum_over o.(Nx)
     (fun i => (sget o.(Y) o.(X) i ⊕ δx) ⊗ (sget o.(Y) o.(S) i ⊕ δs)),
   sum_over o.(Nx) (fun i => sget o.(Y) o.(X) i ⊕ δx),
   sum_over o.(Nx) (fun i => sget o.(Y) o.(S) i ⊕ δs)).
Proof.
  intros Hwf plain.
  destruct (wf_offsets o Hwf) as (EX & EL & ES).
  pose proof (wf_Y _ Hwf) as EY.
  set (P := fun (k : nat) (st : list F * F * F * F) =>
              k <= o.(Nx) ->
              st =
              (for_range 0 k plain o.(Y),
               sum_over k
                 (fun i => (sget o.(Y) o.(X) i ⊕ δx) ⊗
                           (sget o.(Y) o.(S) i ⊕ δs)),
               sum_over k (fun i => sget o.(Y) o.(X) i ⊕ δx),
               sum_over k (fun i => sget o.(Y) o.(S) i ⊕ δs))).
  match goal with
  | |- ?lhs = _ => enough (HP : P o.(Nx) lhs) by (apply HP; lia)
  end.
  apply (for_range_inv P); [lia| |]; unfold P.
  - intros _. reflexivity.
  - intros i st Hi IH Hle. rewrite IH by lia. clear IH.
    rewrite (for_range_S plain) by lia.
    set (y := for_range 0 i plain o.(Y)).
    destruct (map2_loop o.(Y) o.(X) o.(S)
                (fun i v => v ⊕ δx) (fun i v => v ⊕ δs)
                o.(Nx) i) as [Hlen Hy]; [lia..|].
    fold plain in Hlen, Hy. fold y in Hlen, Hy.
    assert (HyX : sget (plain i y) o.(X) i = sget o.(Y) o.(X) i ⊕ δx).
    { unfold plain, sget, sset.
      rewrite !list_lookup_total_insert, ?length_insert, !Hy.
      repeat case_decide; try lia; reflexivity. }
    assert (HyS : sget (plain i y) o.(S) i = sget o.(Y) o.(S) i ⊕ δs).
    { unfold plain, sget, sset.
      rewrite !list_lookup_total_insert, ?length_insert, !Hy.
      repeat case_decide; try lia; reflexivity. }
    rewrite !sum_over_S.
    change (sset (sset y o.(X) i (sget y o.(X) i ⊕ δx)) o.(S) i
              (sget (sset y o.(X) i (sget y o.(X) i ⊕ δx)) o.(S) i ⊕ δs))
      with (plain i y).
    rewrite HyX, HyS. reflexivity.
Qed.

Lemma starting_shift_spec o :
  wf o -> 0 < o.(Nx) ->
  exists y,
    starting_shift o = Some (set_Y o y) /\ length y = length o.(Y) /\
    (forall i, i < o.(Nx) ->
       sget y o.(X) i = shifted_X o i ⊕ fst (second_shifts o)) /\
    (forall i, i < o.(Nx) ->
       sget y o.(S) i = shifted_S o i ⊕ snd (second_shifts o)) /\
    (forall j, j < o.(Nl) -> sget y o.(L) j = sget o.(Y) o.(L) j).
Proof.
  intros Hwf HNx.
  destruct (wf_offsets o Hwf) as (EX & EL & ES).
  pose proof (wf_Y _ Hwf) as EY.
  unfold starting_shift.
  replace (len o.(X)) with o.(Nx) by (rewrite (wf_X _ Hwf); reflexivity).
  replace (len o.(S)) with o.(Nx) by (rewrite (wf_S _ Hwf); reflexivity).
  destruct (Nat.eqb_spec o.(Nx) 0) as [|_]; [lia|]. cbn [orb].
  rewrite min_loop.
  change (max (#(-1.5) ⊗ min_over o.(Nx) (sget o.(Y) o.(X))) #0)
    with (fst (first_shifts o)).
  change (max (#(-1.5) ⊗ min_over o.(Nx) (sget o.(Y) o.(S))) #0)
    with (snd (first_shifts o)).
  rewrite (shift_loop o _ _ Hwf).
  change (sum_over o.(Nx)
            (fun i => (sget o.(Y) o.(X) i ⊕ fst (first_shifts o)) ⊗
                      (sget o.(Y) o.(S) i ⊕ snd (first_shifts o))))
    with (xdots_shifted o).
  change (sum_over o.(Nx) (fun i => sget o.(Y) o.(X) i ⊕ fst (first_shifts o)))
    with (xsum_shifted o).
  change (sum_over o.(Nx) (fun i => sget o.(Y) o.(S) i ⊕ snd (first_shifts o)))
    with (ssum_shifted o).
  change (#0.5 ⊗ xdots_shifted o ⊘ ssum_shifted o)
    with (fst (second_shifts o)).
  change (#0.5 ⊗ xdots_shifted o ⊘ xsum_shifted o)
    with (snd (second_shifts o)).
  destruct (map2_loop o.(Y) o.(X) o.(S)
              (fun i v => v ⊕ fst (first_shifts o))
              (fun i v => v ⊕ snd (first_shifts o))
              o.(Nx) o.(Nx)) as [Hlen1 H1]; [lia..|].
  match type of Hlen1 with length ?t = _ => set (y1 := t) in * end.
  destruct (map2_loop y1 o.(X) o.(S)
              (fun i v => v ⊕ fst (second_shifts o))
              (fun i v => v ⊕ snd (second_shifts o))
              o.(Nx) o.(Nx)) as [Hlen2 H2]; [lia..|].
  match type of Hlen2 with length ?t = _ => set (y2 := t) in * end.
  exists y2. split; [reflexivity|]. split; [congruence|].
  unfold shifted_X, shifted_S, sget.
  repeat split; intros i Hi; rewrite H2, H1;
    repeat case_decide; try lia; repeat f_equal; lia.
Qed.

Lemma wf_frame o o' :
  wf o -> frame o o' ->
  length o'.(Y) = length o.(Y) ->
  length o'.(Mdy) = length o.(Mdy) ->
  length o'.(R) = length o.(R) ->
  wf o'.
Proof.
  intros Hwf Hf HY HMdy HR. rewrite Hf.
  destruct Hwf. split; simpl; first [congruence|lia].
Qed.

Lemma starting_la_Y o :
  length (starting_la o).(Y) = length o.(Y) /\
  (starting_la o).(Mdy) = o.(Mdy) /\ (starting_la o).(R) = o.(R).
Proof.
  unfold starting_la. destruct (SPDsolve2 _ _ _ _ _) as [d' l]. simpl.
  rewrite !length_swrite. repeat split; reflexivity.
Qed.

Lemma wf_starting_la o : wf o -> wf (starting_la o).
Proof.
  intros Hwf. destruct (starting_la_Y o) as (HY & HMdy & HR).
  apply (wf_frame o); [exact Hwf|apply frame_starting_la|congruence..].
Qed.

Lemma frame_Nx o o' : frame o o' -> o'.(Nx) = o.(Nx).
Proof. intros ->. reflexivity. Qed.

Lemma frame_Nl o o' : frame o o' -> o'.(Nl) = o.(Nl).
Proof. intros ->. reflexivity. Qed.

Lemma starting_point_spec o :
  wf o -> 0 < o.(Nx) ->
  let o0 := starting_la o in
  exists y,
    starting_point o = Some (set_Y o0 y) /\ length y = length o.(Y) /\
    (forall i, i < o.(Nx) ->
       sget y o0.(X) i = shifted_X o0 i ⊕ fst (second_shifts o0)) /\
    (forall i, i < o.(Nx) ->
       sget y o0.(S) i = shifted_S o0 i ⊕ snd (second_shifts o0)) /\
    (forall j, j < o.(Nl) -> sget y o0.(L) j = sget o0.(Y) o0.(L) j).
Proof.
  intros Hwf HNx o0. unfold starting_point. fold o0.
  pose proof (frame_starting_la o) as Hf. fold o0 in Hf.
  pose proof (frame_Nx _ _ Hf) as ENx. pose proof (frame_Nl _ _ Hf) as ENl.
  destruct (starting_la_Y o) as (HY & _). fold o0 in HY.
  destruct (starting_shift_spec o0) as (y & Hy & Hlen & HX & HS & HL);
    [apply wf_starting_la; exact Hwf|lia|].
  exists y. rewrite <- ENx, <- ENl.
  repeat split; [exact Hy|congruence|exact HX|exact HS|exact HL].
Qed.

(** C7: with [X = Aᵀ·d] and [S = c - Aᵀ·L] set, the starting point adds
    to every entry of [X] the shift [max(-1.5*min(X), 0)] and to every
    entry of [S] the shift [max(-1.5*min(S), 0)], and then to every entry
    of [X] the shift [0.5*(xᵀs)/Σs] and to every entry of [S] the shift
    [0.5*(xᵀs)/Σx], the product and the sums being those of the vectors
    after the first shift; [L] keeps its values. *)
Theorem starting_point_shifts o :
  wf o -> 0 < o.(Nx) ->
  let o0 := starting_la o in
  let δx1 := max (#(-1.5) ⊗ min_over o.(Nx) (sget o0.(Y) o0.(X))) #0 in
  let δs1 := max (#(-1.5) ⊗ min_over o.(Nx) (sget o0.(Y) o0.(S))) #0 in
  let x1 := fun i => sget o0.(Y) o0.(X) i ⊕ δx1 in
  let s1 := fun i => sget o0.(Y) o0.(S) i ⊕ δs1 in
  let xdots := sum_over o.(Nx) (fun i => x1 i ⊗ s1 i) in
  let δx2 := #0.5 ⊗ xdots ⊘ sum_over o.(Nx) s1 in
  let δs2 := #0.5 ⊗ xdots ⊘ sum_over o.(Nx) x1 in
  exists o1,
    starting_point o = Some o1 /\
    (forall i, i < o.(Nx) ->
       sget o1.(Y) o1.(X) i = x1 i ⊕ δx2 /\
       sget o1.(Y) o1.(S) i = s1 i ⊕ δs2) /\
    (forall j, j < o.(Nl) ->
       sget o1.(Y) o1.(L) j = sget o0.(Y) o0.(L) j) /\
    o1 = set_Y o o1.(Y).
Proof.
  intros Hwf HNx o0 δx1 δs1 x1 s1 xdots δx2 δs2.
  destruct (starting_point_spec o Hwf HNx) as (y & Hy & _ & HX & HS & HL).
  fold o0 in Hy, HX, HS, HL.
  pose proof (frame_Nx _ _ (frame_starting_la o)) as ENx. fold o0 in ENx.
  exists (set_Y o0 y). split; [exact Hy|]. simpl.
  split; [|split; [exact HL|exact (starting_point_frame_Y _ _ Hy)]].
  intros i Hi. rewrite (HX i Hi), (HS i Hi).
  unfold second_shifts, xdots_shifted, xsum_shifted, ssum_shifted,
    shifted_X, shifted_S, first_shifts.
  rewrite ENx. split; reflexivity.
Qed.

(** *** A pass changes the iterate at its last statement only *)

Lemma same_iterate_refl o : same_iterate o o.
Proof. split; [apply frame_refl|repeat split; reflexivity]. Qed.

Lemma same_iterate_trans o1 o2 o3 :
  same_iterate o1 o2 -> same_iterate o2 o3 -> same_iterate o1 o3.
Proof.
  intros (Hf12 & HY12 & HM12 & HR12) (Hf23 & HY23 & HM23 & HR23).
  split; [exact (frame_trans _ _ _ Hf12 Hf23)|].
  repeat split; congruence.
Qed.

Lemma same_iterate_residual o : same_iterate o (fst (fst (fst (residual o)))).
Proof.
  destruct (residual_spec o) as (r & Hlen & ->). simpl.
  split; [apply frame_set_R|]. repeat split; try reflexivity; exact Hlen.
Qed.

Lemma same_iterate_set_J o j : same_iterate o (set_J o j).
Proof. split; [apply frame_set_J|repeat split; reflexivity]. Qed.

Lemma same_iterate_set_Lis o l : same_iterate o (set_Lis o l).
Proof. split; [apply frame_set_Lis|repeat split; reflexivity]. Qed.

Lemma same_iterate_solve_system o : same_iterate o (fst (solve_system o)).
Proof.
  split; [apply frame_solve_system|].
  unfold solve_system. destruct (SolveR _ _ _ _) as [[lis mdy] err]. simpl.
  rewrite length_fill. repeat split; reflexivity.
Qed.

Lemma same_iterate_corrector o μ : wf o -> same_iterate o (corrector o μ).
Proof.
  intros Hwf. destruct (corrector_spec o μ Hwf) as (r & -> & Hlen & _).
  split; [apply frame_set_R|]. repeat split; try reflexivity; exact Hlen.
Qed.

Lemma wf_same_iterate o o' : wf o -> same_iterate o o' -> wf o'.
Proof.
  intros Hwf (Hf & HY & HM & HR).
  apply (wf_frame o); [exact Hwf|exact Hf|congruence..].
Qed.

Lemma wf_step o : wf o -> wf (step o).
Proof.
  intros Hwf. destruct (step_spec o Hwf) as (y & Hy & Hlen & _).
  rewrite Hy. apply (wf_frame o); [exact Hwf|apply frame_set_Y|..];
    simpl; congruence.
Qed.

Lemma pass_post_attempt o r k :
  same_iterate o (fst r) ->
  (forall o', same_iterate o o' -> pass_post o (k o')) ->
  pass_post o (attempt r k).
Proof.
  intros Hr Hk. destruct r as [o' [e|]]; simpl in *; [exact Hr|].
  apply Hk, Hr.
Qed.

Lemma iteration_pass_post sym tim it o :
  wf o -> pass_post o (iteration sym tim it o).
Proof.
  intros Hwf. unfold iteration.
  pose proof (same_iterate_residual o) as Hr.
  destruct (residual o) as [[[o1 ctx] btl] μ]. simpl in Hr.
  destruct (_ ≺ _); [exact Hr|].
  assert (Hj : same_iterate o (assemble_J o1)).
  { eapply same_iterate_trans; [exact Hr|apply same_iterate_set_J]. }
  apply pass_post_attempt.
  { destruct (it =? 0)%Z; [|exact Hj].
    destruct (InitR _ _ _ _ _) as [lis err]. simpl.
    eapply same_iterate_trans; [exact Hj|apply same_iterate_set_Lis]. }
  intros o2 H2. apply pass_post_attempt.
  { destruct (Fact _ _) as [lis err]. simpl.
    eapply same_iterate_trans; [exact H2|apply same_iterate_set_Lis]. }
  intros o3 H3. apply pass_post_attempt.
  { eapply same_iterate_trans; [exact H3|apply same_iterate_solve_system]. }
  intros o4 H4.
  assert (H4c : same_iterate o (corrector o4 μ)).
  { eapply same_iterate_trans; [exact H4|].
    apply same_iterate_corrector, (wf_same_iterate o); assumption. }
  apply pass_post_attempt.
  { eapply same_iterate_trans; [exact H4c|apply same_iterate_solve_system]. }
  intros o5 H5. exists o5. split; [exact H5|reflexivity].
Qed.

Lemma wf_full_passes n it o o' : full_passes n it o o' -> wf o -> wf o'.
Proof.
  induction 1 as [it o|n it o o' o'' Hpass _ IH]; intros Hwf; [exact Hwf|].
  apply IH. pose proof (iteration_pass_post false false it o Hwf) as Hp.
  unfold pass_post in Hp. rewrite Hpass in Hp. simpl in Hp.
  destruct Hp as (o4 & H4 & ->).
  apply wf_step, (wf_same_iterate o); assumption.
Qed.

Lemma wf_starting_point o o1 : wf o -> starting_point o = Some o1 -> wf o1.
Proof.
  intros Hwf Hs. destruct (Nat.eq_dec o.(Nx) 0) as [E0|Hpos].
  - exfalso. unfold starting_point, starting_shift in Hs.
    pose proof (frame_starting_la o) as Hf. rewrite Hf in Hs. simpl in Hs.
    rewrite (wf_X _ Hwf), E0 in Hs. simpl in Hs. discriminate.
  - destruct (starting_point_spec o Hwf) as (y & Hy & Hlen & _); [lia|].
    rewrite Hs in Hy. injection Hy as ->.
    apply (wf_frame (starting_la o));
      [apply wf_starting_la; exact Hwf|apply frame_set_Y|..]; simpl;
      destruct (starting_la_Y o) as (HY & HM & HR); congruence.
Qed.

Lemma attempt_Continue r k o' :
  attempt r k = (o', Continue) ->
  exists o1, r = (o1, None) /\ k o1 = (o', Continue).
Proof.
  destruct r as [o1 [e|]]; simpl; [discriminate|].
  intros Hk. exists o1. split; [reflexivity|exact Hk].
Qed.

(** X1: a pass that reaches its last statement solved the system twice,
    the second time on the residual updated by [corrector] with the
    duality measure [μ] of the iterate it started with; up to there the
    state still holds this iterate, and the pass ends with the update
    [step]. *)
Lemma pass_structure sym tim it o o' :
  wf o ->
  iteration sym tim it o = (o', Continue) ->
  exists o2 o3 o4,
    same_iterate o o2 /\
    solve_system o2 = (o3, None) /\
    solve_system (corrector o3 (mu_at o)) = (o4, None) /\
    same_iterate o o4 /\
    o' = step o4.
Proof.
  intros Hwf. unfold iteration.
  pose proof (same_iterate_residual o) as Hr.
  destruct (residual_spec o) as (r & _ & Hres). rewrite Hres in Hr |- *.
  cbn [fst] in Hr. fold (mu_at o).
  destruct (_ ≺ _); [discriminate|].
  intros H1. apply attempt_Continue in H1 as (o1 & E1 & H2).
  apply attempt_Continue in H2 as (o2 & E2 & H3).
  apply attempt_Continue in H3 as (o3 & E3 & H4).
  apply attempt_Continue in H4 as (o4 & E4 & H5).
  injection H5 as <-.
  assert (S1 : same_iterate o o1).
  { destruct (it =? 0)%Z.
    - destruct (InitR _ _ _ _ _) as [lis err]. injection E1 as <- _.
      eapply same_iterate_trans; [exact Hr|].
      eapply same_iterate_trans;
        [apply same_iterate_set_J|apply same_iterate_set_Lis].
    - injection E1 as <-.
      eapply same_iterate_trans; [exact Hr|apply same_iterate_set_J]. }
  assert (S2 : same_iterate o o2).
  { destruct (Fact _ _) as [lis err]. injection E2 as <- _.
    eapply same_iterate_trans; [exact S1|apply same_iterate_set_Lis]. }
  assert (S3 : same_iterate o o3).
  { pose proof (same_iterate_solve_system o2) as H. rewrite E3 in H.
    eapply same_iterate_trans; [exact S2|exact H]. }
  exists o2, o3, o4. split; [exact S2|]. split; [exact E3|].
  split; [exact E4|]. split; [|reflexivity].
  pose proof (same_iterate_solve_system (corrector o3 (mu_at o))) as H.
  rewrite E4 in H.
  eapply same_iterate_trans; [exact S3|].
  eapply same_iterate_trans; [|exact H].
  apply same_iterate_corrector, (wf_same_iterate o); assumption.
Qed.

Lemma wf_iterations sym tim n it o :
  wf o -> wf (fst (fst (iterations sym tim n it o))).
Proof.
  revert it o. induction n as [|n IH]; intros it o Hwf; simpl;
    [exact Hwf|].
  pose proof (iteration_pass_post sym tim it o Hwf) as Hp.
  unfold pass_post in Hp.
  destruct (iteration sym tim it o) as [o' [| |e]]; simpl in Hp |- *;
    try exact (wf_same_iterate _ _ Hwf Hp).
  destruct Hp as (o4 & H4 & ->).
  apply IH, wf_step, (wf_same_iterate o); assumption.
Qed.

(** X2: [Solve] keeps the layout that [Init] set up: whatever package [la]
    and the linear solver return, the arrays keep their lengths and the
    windows their places. *)
Lemma Solve_keeps_layout o verbose : wf o -> wf (fst (Solve o verbose)).
Proof.
  intros Hwf. unfold Solve.
  destruct (starting_point o) as [o1|] eqn:Hs;
    [|apply wf_starting_la; exact Hwf].
  pose proof (wf_iterations false false (Z.to_nat o1.(NmaxIt)) 0 o1
                (wf_starting_point _ _ Hwf Hs)) as Hfin.
  destruct (iterations false false (Z.to_nat o1.(NmaxIt)) 0 o1)
    as [[o' it'] [| |e]]; simpl in Hfin |- *; try exact Hfin;
    destruct (it' =? o'.(NmaxIt))%Z; exact Hfin.
Qed.

(** X3: when no [Mdx[i]] is positive, [calc_min_ratios] returns for
    [xrmin] the zero value it starts with. *)
Lemma xrmin_zero_value o :
  (forall i, i < o.(Nx) -> (#0 ≺ sget o.(Mdy) o.(Mdx) i) = false) ->
  fst (calc_min_ratios o) = #0.
Proof. apply calc_min_ratios_none. Qed.

End Properties.

(** ** Strict positivity in exact arithmetic *)

Section Exact.
Context {LA : LinAlg Q}.
#[local] Existing Instance F_inhabited.
Local Open Scope Q_scope.

Lemma Q_ltb_lt (a b : Q) : (a ≺ b) = true <-> a < b.
Proof.
  simpl. unfold Q_ltb. rewrite Qlt_alt.
  destruct (a ?= b); split; congruence.
Qed.

Lemma Q_ltb_ge (a b : Q) : (a ≺ b) = false <-> b <= a.
Proof.
  split.
  - intros Hf. apply Qnot_lt_le. intros Hlt.
    apply Q_ltb_lt in Hlt. congruence.
  - intros Hle. destruct (a ≺ b) eqn:E; [|reflexivity].
    apply Q_ltb_lt in E. apply Qle_not_lt in Hle. contradiction.
Qed.

Lemma ex_lit (q : Q) : #q == q.
Proof. apply Qred_correct. Qed.

Lemma ex_add (a b : Q) : a ⊕ b == a + b.
Proof. apply Qred_correct. Qed.

Lemma ex_sub (a b : Q) : a ⊖ b == a - b.
Proof. apply Qred_correct. Qed.

Lemma ex_mul (a b : Q) : a ⊗ b == a * b.
Proof. apply Qred_correct. Qed.

Lemma ex_div (a b : Q) : a ⊘ b == a / b.
Proof. apply Qred_correct. Qed.

Lemma ex_min_le (a b : Q) : min a b <= a /\ min a b <= b.
Proof.
  unfold min. destruct (a ≺ b) eqn:E.
  - apply Q_ltb_lt in E. split; lra.
  - apply Q_ltb_ge in E. split; lra.
Qed.

Lemma ex_min_ge (a b c : Q) : c <= a -> c <= b -> c <= min a b.
Proof. intros Ha Hb. unfold min. destruct (a ≺ b); assumption. Qed.

Lemma ex_max_ge (a b : Q) : a <= max a b /\ b <= max a b.
Proof.
  unfold max. destruct (b ≺ a) eqn:E.
  - apply Q_ltb_lt in E. split; lra.
  - apply Q_ltb_ge in E. split; lra.
Qed.

Lemma ex_div_pos (a b : Q) : 0 < a -> 0 < b -> 0 < a / b.
Proof. intros Ha Hb. apply Qlt_shift_div_l; [exact Hb|lra]. Qed.

Lemma ex_div_mul (a b : Q) : 0 < b -> (a / b) * b == a.
Proof. intros Hb. field. lra. Qed.

(** The ratio found by [calc_min_ratios] is not negative, and no
    qualifying entry has a smaller ratio. *)
Lemma ratio_loop_bound (v mdv : nat -> Q) (n : nat) :
  (forall i, (i < n)%nat -> 0 < v i) ->
  let r := fst (for_range 0 n (ratio_step v mdv) (#0, true)) in
  0 <= r /\ forall i, (i < n)%nat -> 0 < mdv i -> r * mdv i <= v i.
Proof.
  intros Hv.
  set (P := fun (k : nat) (st : Q * bool) =>
              (k <= n)%nat ->
              0 <= fst st /\
              (snd st = true -> forall i, (i < k)%nat -> ~ 0 < mdv i) /\
              (forall i, (i < k)%nat -> 0 < mdv i -> fst st * mdv i <= v i)).
  enough (HP : P n (for_range 0 n (ratio_step v mdv) (#0, true))).
  { destruct HP as (H0 & _ & Hb); [lia|]. split; assumption. }
  apply (for_range_inv P); [lia| |]; unfold P.
  - intros _. cbn [fst snd]. rewrite ex_lit.
    split; [lra|]. split; intros; lia.
  - intros k [r first] Hk IH Hle.
    destruct IH as (H0 & Hfirst & Hb); [lia|].
    cbn [fst snd] in H0, Hfirst, Hb.
    unfold ratio_step. destruct (#0 ≺ mdv k) eqn:Em.
    + apply Q_ltb_lt in Em. rewrite ex_lit in Em.
      assert (Hvk : 0 < v k) by (apply Hv; lia).
      assert (Hq : 0 < v k ⊘ mdv k)
        by (rewrite ex_div; apply ex_div_pos; assumption).
      assert (Hqm : (v k ⊘ mdv k) * mdv k == v k)
        by (rewrite ex_div; apply ex_div_mul; assumption).
      set (ρ := v k ⊘ mdv k) in *.
      destruct first; cbn [fst snd].
      * split; [lra|]. split; [discriminate|].
        intros i Hi Hmi.
        destruct (Nat.eq_dec i k) as [->|Hne]; [lra|].
        exfalso. apply (Hfirst eq_refl i); [lia|exact Hmi].
      * destruct (ex_min_le r ρ) as [Hl Hr].
        split; [apply ex_min_ge; lra|].
        split; [discriminate|].
        intros i Hi Hmi. destruct (Nat.eq_dec i k) as [->|Hne].
        -- apply Qle_trans with (ρ * mdv k); [|lra].
           apply Qmult_le_compat_r; lra.
        -- apply Qle_trans with (r * mdv i); [|apply Hb; [lia|exact Hmi]].
           apply Qmult_le_compat_r; lra.
    + apply Q_ltb_ge in Em. rewrite ex_lit in Em. cbn [fst snd].
      split; [exact H0|]. split.
      * intros Hf i Hi Hmi. destruct (Nat.eq_dec i k) as [->|Hne]; [lra|].
        apply (Hfirst Hf i); [lia|exact Hmi].
      * intros i Hi Hmi. destruct (Nat.eq_dec i k) as [->|Hne]; [lra|].
        apply Hb; [lia|exact Hmi].
Qed.

(** A step of length [min(1, 0.99*r)] against a direction entry [m]
    keeps a positive entry [x] positive. *)
Lemma ex_step_positive (x m r : Q) :
  0 < x -> 0 <= r -> (0 < m -> r * m <= x) ->
  (#0 ≺ x ⊖ min #1 (#0.99 ⊗ r) ⊗ m) = true.
Proof.
  intros Hx Hr Hb. apply Q_ltb_lt. rewrite ex_lit, ex_sub, ex_mul.
  assert (Hβ : #0.99 ⊗ r == 0.99 * r) by (rewrite ex_mul, ex_lit; lra).
  assert (H1 : #1 == 1) by apply ex_lit.
  set (β := #0.99 ⊗ r) in *. set (one := #1) in *.
  set (α := min one β).
  assert (Hα : 0 <= α /\ α <= 0.99 * r).
  { unfold α. destruct (ex_min_le one β) as [_ Hle].
    split; [apply ex_min_ge|]; lra. }
  destruct Hα as [Hα0 Hα1].
  destruct (Qlt_le_dec 0 m) as [Hm|Hm].
  - specialize (Hb Hm).
    assert (α * m <= 0.99 * r * m)
      by (apply Qmult_le_compat_r; lra).
    lra.
  - assert (0 <= α * - m) by (apply Qmult_le_0_compat; lra).
    lra.
Qed.

Lemma positive_Q o i :
  positive o -> (i < o.(Nx))%nat ->
  0 < sget o.(Y) o.(X) i /\ 0 < sget o.(Y) o.(S) i.
Proof.
  intros Hpos Hi. destruct (Hpos i Hi) as [HX HS].
  apply Q_ltb_lt in HX, HS. rewrite ex_lit in HX, HS. split; assumption.
Qed.

Lemma positive_same_iterate o o' :
  same_iterate o o' -> positive o -> positive o'.
Proof.
  intros (Hf & HY & _) Hpos i Hi. rewrite HY. rewrite Hf in Hi |- *.
  simpl in Hi |- *. apply Hpos, Hi.
Qed.

(** The update keeps a strictly positive iterate strictly positive. *)
Lemma step_positive o : wf o -> positive o -> positive (step o).
Proof.
  intros Hwf Hpos.
  destruct (step_spec o Hwf) as (y & Hy & _ & HX & HS & _).
  rewrite calc_min_ratios_split in HX, HS. cbn [fst snd] in HX, HS.
  destruct (ratio_loop_bound (sget o.(Y) o.(X)) (sget o.(Mdy) o.(Mdx)) o.(Nx))
    as [Hx0 Hxb]; [intros i Hi; apply (positive_Q o i Hpos Hi)|].
  destruct (ratio_loop_bound (sget o.(Y) o.(S)) (sget o.(Mdy) o.(Mds)) o.(Nx))
    as [Hs0 Hsb]; [intros i Hi; apply (positive_Q o i Hpos Hi)|].
  rewrite Hy. intros i Hi. simpl in Hi |- *.
  destruct (positive_Q o i Hpos Hi) as [HXi HSi].
  rewrite (HX i Hi), (HS i Hi).
  split; apply ex_step_positive; auto.
Qed.

Lemma positive_full_passes n it o o' :
  full_passes n it o o' -> wf o -> positive o -> positive o'.
Proof.
  induction 1 as [it o|n it o o' o'' Hpass Hrest IH]; intros Hwf Hpos;
    [exact Hpos|].
  pose proof (iteration_pass_post false false it o Hwf) as Hp.
  unfold pass_post in Hp. rewrite Hpass in Hp. simpl in Hp.
  destruct Hp as (o4 & H4 & ->).
  assert (Hwf4 : wf o4) by (apply (wf_same_iterate o); assumption).
  apply IH; [apply wf_step; exact Hwf4|].
  apply step_positive; [exact Hwf4|].
  apply (positive_same_iterate o); assumption.
Qed.

Lemma positive_iterations sym tim n it o :
  wf o -> positive o -> positive (fst (fst (iterations sym tim n it o))).
Proof.
  revert it o. induction n as [|n IH]; intros it o Hwf Hpos; simpl;
    [exact Hpos|].
  pose proof (iteration_pass_post sym tim it o Hwf) as Hp.
  unfold pass_post in Hp.
  destruct (iteration sym tim it o) as [o' [| |e]]; simpl in Hp |- *;
    try exact (positive_same_iterate _ _ Hp Hpos).
  destruct Hp as (o4 & H4 & ->).
  assert (Hwf4 : wf o4) by (apply (wf_same_iterate o); assumption).
  apply IH; [apply wf_step; exact Hwf4|].
  apply step_positive; [exact Hwf4|].
  apply (positive_same_iterate o); assumption.
Qed.

(** Sums and minima of rationals. *)
Lemma ex_sum_O (f : nat -> Q) : sum_over 0 f == 0.
Proof. unfold sum_over. simpl. apply ex_lit. Qed.

Lemma ex_sum_S (n : nat) (f : nat -> Q) :
  sum_over (Datatypes.S n) f == sum_over n f + f n.
Proof. rewrite sum_over_S. apply ex_add. Qed.

Lemma ex_sum_nonneg (n : nat) (f : nat -> Q) :
  (forall i, (i < n)%nat -> 0 <= f i) -> 0 <= sum_over n f.
Proof.
  induction n as [|n IH]; intros Hf.
  - rewrite ex_sum_O. lra.
  - rewrite ex_sum_S. assert (0 <= f n) by (apply Hf; lia).
    assert (0 <= sum_over n f) by (apply IH; intros; apply Hf; lia). lra.
Qed.

Lemma ex_sum_prod_pos (n : nat) (f g : nat -> Q) :
  (forall i, (i < n)%nat -> 0 <= f i) ->
  (forall i, (i < n)%nat -> 0 <= g i) ->
  0 < sum_over n (fun i => f i ⊗ g i) ->
  0 < sum_over n f /\ 0 < sum_over n g.
Proof.
  induction n as [|n IH]; intros Hf Hg Hfg.
  - rewrite ex_sum_O in Hfg. lra.
  - rewrite ex_sum_S, ex_mul in Hfg. rewrite !ex_sum_S.
    assert (Hfn : 0 <= f n) by (apply Hf; lia).
    assert (Hgn : 0 <= g n) by (apply Hg; lia).
    assert (Hsf : 0 <= sum_over n f)
      by (apply ex_sum_nonneg; intros; apply Hf; lia).
    assert (Hsg : 0 <= sum_over n g)
      by (apply ex_sum_nonneg; intros; apply Hg; lia).
    destruct (Qlt_le_dec 0 (sum_over n (fun i => f i ⊗ g i))) as [Hp|Hp].
    + destruct IH as [IHf IHg];
        [intros; apply Hf; lia|intros; apply Hg; lia|exact Hp|]. lra.
    + assert (Hprod : 0 < f n * g n) by lra.
      destruct (Qlt_le_dec 0 (f n)) as [Hf0|Hf0];
        destruct (Qlt_le_dec 0 (g n)) as [Hg0|Hg0]; try lra.
      * assert (E : g n == 0) by lra. rewrite E in Hprod. lra.
      * assert (E : f n == 0) by lra. rewrite E in Hprod. lra.
      * assert (E : f n == 0) by lra. rewrite E in Hprod. lra.
Qed.

Lemma ex_min_over_le (n : nat) (f : nat -> Q) i :
  (i < n)%nat -> min_over n f <= f i.
Proof.
  intros Hi. unfold min_over.
  pose proof (fold_seq_inv
                (fun (k : nat) (m : Q) => forall j, (j < k)%nat -> m <= f j)
                (fun i m => min m (f i)) (n - 1) 1 (f 0%nat)) as Hinv.
  replace (1 + (n - 1))%nat with n in Hinv by lia.
  apply Hinv; [| |exact Hi].
  - intros j Hj. replace j with 0%nat by lia. lra.
  - intros k m Hk IH j Hj. destruct (ex_min_le m (f k)) as [Hl Hr].
    destruct (Nat.eq_dec j k) as [->|Hne]; [exact Hr|].
    apply Qle_trans with m; [exact Hl|apply IH; lia].
Qed.

(** After the first shift no entry is negative. *)
Lemma ex_first_shift (x m : Q) :
  m <= x -> 0 <= x ⊕ max (#(-1.5) ⊗ m) #0.
Proof.
  intros Hm. rewrite ex_add.
  assert (Ha : #(-1.5) ⊗ m == -1.5 * m) by (rewrite ex_mul, ex_lit; lra).
  assert (H0 : #0 == 0) by apply ex_lit.
  destruct (ex_max_ge (#(-1.5) ⊗ m) #0) as [Hl Hr].
  set (δ := max (#(-1.5) ⊗ m) #0) in *.
  destruct (Qlt_le_dec m 0); lra.
Qed.

Lemma shifted_nonneg o i :
  (0 < o.(Nx))%nat -> (i < o.(Nx))%nat ->
  0 <= shifted_X o i /\ 0 <= shifted_S o i.
Proof.
  intros HNx Hi. unfold shifted_X, shifted_S, first_shifts. cbn [fst snd].
  split; apply ex_first_shift, ex_min_over_le; exact Hi.
Qed.

(** The starting point is strictly positive when, after the first shift,
    [xᵀs] is. *)
Lemma starting_point_positive o :
  wf o -> (0 < o.(Nx))%nat ->
  (#0 ≺ xdots_shifted (starting_la o)) = true ->
  exists o1, starting_point o = Some o1 /\ positive o1.
Proof.
  intros Hwf HNx Hdots. apply Q_ltb_lt in Hdots. rewrite ex_lit in Hdots.
  destruct (starting_point_spec o Hwf HNx) as (y & Hy & _ & HX & HS & _).
  set (o0 := starting_la o) in *.
  pose proof (frame_Nx _ _ (frame_starting_la o)) as ENx. fold o0 in ENx.
  assert (HNx0 : (0 < o0.(Nx))%nat) by lia.
  destruct (ex_sum_prod_pos o0.(Nx) (shifted_X o0) (shifted_S o0))
    as [Hxsum Hssum];
    [intros; apply shifted_nonneg; assumption..|exact Hdots|].
  fold (xsum_shifted o0) in Hxsum. fold (ssum_shifted o0) in Hssum.
  assert (Hδx : 0 < fst (second_shifts o0)).
  { unfold second_shifts. cbn [fst]. rewrite ex_div, ex_mul, ex_lit.
    apply ex_div_pos; lra. }
  assert (Hδs : 0 < snd (second_shifts o0)).
  { unfold second_shifts. cbn [snd]. rewrite ex_div, ex_mul, ex_lit.
    apply ex_div_pos; lra. }
  exists (set_Y o0 y). split; [exact Hy|].
  intros i Hi. simpl in Hi |- *.
  rewrite (HX i), (HS i) by lia.
  destruct (shifted_nonneg o0 i) as [Hx Hs]; [lia..|].
  split; apply Q_ltb_lt; rewrite ex_lit, ex_add; lra.
Qed.

(** C2 (as amended): in exact arithmetic, for a problem with at least one
    variable whose starting vectors have [xᵀs > 0] after the first shift,
    [X[i] > 0] and [S[i] > 0] hold for every [i] at the starting point,
    at the iterate after every update, and in the state [Solve] leaves. *)
Theorem positivity_in_exact_arithmetic o :
  wf o -> (0 < o.(Nx))%nat ->
  (#0 ≺ xdots_shifted (starting_la o)) = true ->
  exists o1,
    starting_point o = Some o1 /\
    (forall n o2, full_passes n 0 o1 o2 -> positive o2) /\
    (forall verbose, positive (fst (Solve o verbose))).
Proof.
  intros Hwf HNx Hdots.
  destruct (starting_point_positive o Hwf HNx Hdots) as (o1 & Hs & Hpos).
  pose proof (wf_starting_point _ _ Hwf Hs) as Hwf1.
  exists o1. split; [exact Hs|]. split.
  - intros n o2 Hp. exact (positive_full_passes _ _ _ _ Hp Hwf1 Hpos).
  - intros verbose. unfold Solve. rewrite Hs.
    pose proof (positive_iterations false false
                  (Z.to_nat o1.(NmaxIt)) 0 o1 Hwf1 Hpos) as Hfin.
    destruct (iterations false false (Z.to_nat o1.(NmaxIt)) 0 o1)
      as [[o' it'] [| |e]]; simpl in Hfin |- *; try exact Hfin;
      destruct (it' =? o'.(NmaxIt))%Z; exact Hfin.
Qed.

End Exact.

(** ** How a call of [Solve] ends *)

Section Outcomes.
Context {F : Type} {FF : Float64 F} {LA : LinAlg F}.
#[local] Existing Instance F_inhabited.

(** The loop read backwards: however it is left, it made some number
    [k] of full passes first. *)
Lemma iterations_inv n :
  forall it o o' it' ex,
    iterations false false n it o = (o', it', ex) ->
    exists k o2,
      full_passes k it o o2 /\ k <= n /\ it' = (it + Z.of_nat k)%Z /\
      match ex with
      | Fell => k = n /\ o' = o2
      | Broke => k < n /\ iteration false false it' o2 = (o', Break)
      | Left e => k < n /\ iteration false false it' o2 = (o', Return e)
      end.
Proof.
  induction n as [|n IH]; intros it o o' it' ex; simpl.
  - intros [= <- <- <-]. exists 0, o.
    split; [constructor|]. split; [lia|]. split; [lia|]. split; reflexivity.
  - destruct (iteration false false it o) as [o1 [| |e]] eqn:Hit.
    + intros H. apply IH in H as (k & o2 & Hp & Hk & Hit' & Hex).
      exists (Datatypes.S k), o2.
      split; [econstructor; eassumption|]. split; [lia|]. split; [lia|].
      destruct ex; destruct Hex as [Hk' Hex]; (split; [lia|exact Hex]).
    + intros [= <- <- <-]. exists 0, o.
      split; [constructor|]. split; [lia|]. split; [lia|].
      split; [lia|exact Hit].
    + intros [= <- <- <-]. exists 0, o.
      split; [constructor|]. split; [lia|]. split; [lia|].
      split; [lia|exact Hit].
Qed.

Lemma iteration_Break_test sym tim it o o' :
  iteration sym tim it o = (o', Break) ->
  (rel_err (ctx_at o) (btl_at o) ≺ o.(Tol)) = true /\
  o' = fst (fst (fst (residual o))).
Proof.
  intros Hit.
  destruct (rel_err (ctx_at o) (btl_at o) ≺ o.(Tol)) eqn:Ht.
  - rewrite (iteration_break _ _ _ _ Ht) in Hit. injection Hit as <-.
    split; reflexivity.
  - exfalso. apply (iteration_no_break sym tim it o Ht).
    rewrite Hit. reflexivity.
Qed.

(** The objective values read [C], [B], [Y] and the windows only. *)
Lemma test_residual o :
  let o' := fst (fst (fst (residual o))) in
  ctx_at o' = ctx_at o /\ btl_at o' = btl_at o /\ o'.(Tol) = o.(Tol).
Proof.
  destruct (residual_spec o) as (r & _ & ->). cbv zeta. simpl.
  repeat split; reflexivity.
Qed.

(** How [Solve] ends once the starting point is there. *)
Lemma Solve_inv o verbose o1 :
  starting_point o = Some o1 ->
  exists k o2 o' it' ex,
    iterations false false (Z.to_nat o.(NmaxIt)) 0 o1 = (o', it', ex) /\
    full_passes k 0 o1 o2 /\ k <= Z.to_nat o.(NmaxIt) /\
    it' = Z.of_nat k /\
    match ex with
    | Fell => k = Z.to_nat o.(NmaxIt) /\ o' = o2
    | Broke => k < Z.to_nat o.(NmaxIt) /\
               iteration false false it' o2 = (o', Break)
    | Left e => k < Z.to_nat o.(NmaxIt) /\
                iteration false false it' o2 = (o', Return e)
    end /\
    o'.(NmaxIt) = o.(NmaxIt) /\
    Solve o verbose =
    match ex with
    | Left e => (o', Returned (Some e))
    | _ => if (it' =? o.(NmaxIt))%Z
           then (o', Returned (Some "iterations did not converge"))
           else (o', Returned None)
    end.
Proof.
  intros Hs. unfold Solve. rewrite Hs.
  pose proof (frame_starting_point _ _ Hs) as Hf1.
  rewrite (frame_NmaxIt _ _ Hf1).
  destruct (iterations false false (Z.to_nat o.(NmaxIt)) 0 o1)
    as [[o' it'] ex] eqn:Hit.
  destruct (iterations_inv _ _ _ _ _ _ Hit) as (k & o2 & Hp & Hk & Hit' & Hex).
  pose proof (frame_full_passes _ _ _ _ Hp) as Hf2.
  assert (HN : o'.(NmaxIt) = o.(NmaxIt)).
  { rewrite <- (frame_NmaxIt _ _ Hf1), <- (frame_NmaxIt _ _ Hf2).
    destruct ex; destruct Hex as [_ Hex].
    - subst o'. reflexivity.
    - pose proof (frame_iteration false false it' o2) as H.
      rewrite Hex in H. exact (frame_NmaxIt _ _ H).
    - pose proof (frame_iteration false false it' o2) as H.
      rewrite Hex in H. exact (frame_NmaxIt _ _ H). }
  exists k, o2, o', it', ex.
  split; [reflexivity|]. split; [exact Hp|]. split; [exact Hk|].
  split; [lia|]. split; [exact Hex|]. split; [exact HN|].
  destruct ex; rewrite ?HN; reflexivity.
Qed.

(** X4: when [Solve] returns [nil], either the loop was never entered
    ([NmaxIt < 0]) or the convergence test held at the top of a pass
    [n < NmaxIt]; the iterate returned is the one that passed the test. *)
Theorem Solve_success_sound o verbose o1 o' :
  starting_point o = Some o1 ->
  Solve o verbose = (o', Returned None) ->
  ((o.(NmaxIt) < 0)%Z /\ o' = o1) \/
  (exists n o2,
     full_passes n 0 o1 o2 /\ (Z.of_nat n < o.(NmaxIt))%Z /\
     o' = fst (fst (fst (residual o2))) /\
     (rel_err (ctx_at o') (btl_at o') ≺ o'.(Tol)) = true).
Proof.
  intros Hs HS.
  destruct (Solve_inv o verbose o1 Hs)
    as (k & o2 & o3 & it' & ex & _ & Hp & Hk & Hit' & Hex & _ & HS').
  rewrite HS in HS'. destruct ex as [| |e]; [| |discriminate].
  - destruct Hex as [Hkn ->].
    destruct (Z.eqb_spec it' o.(NmaxIt)) as [E|NE]; [discriminate|].
    injection HS' as ->. left.
    assert (Hneg : (o.(NmaxIt) < 0)%Z) by lia.
    split; [exact Hneg|].
    replace k with 0 in Hp by lia. inversion Hp. reflexivity.
  - destruct Hex as [Hkn Hbr].
    destruct (Z.eqb_spec it' o.(NmaxIt)) as [E|NE]; [discriminate|].
    injection HS' as ->. right.
    apply iteration_Break_test in Hbr as [Ht ->].
    exists k, o2. split; [exact Hp|]. split; [lia|]. split; [reflexivity|].
    destruct (test_residual o2) as (-> & -> & ->). exact Ht.
Qed.

(** X5: when [Solve] returns an error, either all [NmaxIt] passes were made
    and the error is "iterations did not converge", or the linear solver
    failed in a pass [n < NmaxIt]: the error is the one this pass returned,
    and [X], [L], [S] are left as the pass found them. *)
Theorem Solve_error_origin o verbose o1 o' e :
  wf o ->
  starting_point o = Some o1 ->
  Solve o verbose = (o', Returned (Some e)) ->
  exists n o2,
    full_passes n 0 o1 o2 /\
    ((Z.of_nat n = o.(NmaxIt) /\ e = "iterations did not converge" /\
      o' = o2) \/
     ((Z.of_nat n < o.(NmaxIt))%Z /\
      iteration false false (Z.of_nat n) o2 = (o', Return e) /\
      o'.(Y) = o2.(Y))).
Proof.
  intros Hwf Hs HS.
  destruct (Solve_inv o verbose o1 Hs)
    as (k & o2 & o3 & it' & ex & _ & Hp & Hk & Hit' & Hex & _ & HS').
  rewrite HS in HS'. exists k, o2. split; [exact Hp|].
  destruct ex as [| |e'].
  - destruct Hex as [Hkn ->].
    destruct (Z.eqb_spec it' o.(NmaxIt)) as [E|NE]; [|discriminate].
    injection HS' as -> ->. left. split; [lia|]. split; reflexivity.
  - destruct Hex as [Hkn Hbr]. exfalso.
    destruct (Z.eqb_spec it' o.(NmaxIt)) as [E|NE]; [lia|discriminate].
  - destruct Hex as [Hkn Hret]. injection HS' as -> ->. right.
    split; [lia|]. subst it'. split; [exact Hret|].
    assert (Hwf2 : wf o2).
    { apply (wf_full_passes _ _ _ _ Hp), (wf_starting_point o); assumption. }
    pose proof (iteration_pass_post false false (Z.of_nat k) o2 Hwf2) as Hpp.
    unfold pass_post in Hpp. rewrite Hret in Hpp. simpl in Hpp.
    apply Hpp.
Qed.

(** [Solve] panics at [o.X[0]] exactly when the window [X] or [S] is
    empty. *)
Lemma Solve_panics o verbose :
  (exists msg, snd (Solve o verbose) = Panicked msg) <->
  len o.(X) = 0 \/ len o.(S) = 0.
Proof.
  unfold Solve, starting_point. 
  assert (Hsh : starting_shift (starting_la o) = None <->
                len o.(X) = 0 \/ len o.(S) = 0).
  { unfold starting_shift.
    pose proof (frame_starting_la o) as Hf. rewrite Hf. simpl.
    destruct (len o.(X)) as [|nx], (len o.(S)) as [|ns]; simpl;
      try (split; [intros _; auto|reflexivity]).
    destruct (for_range 1 _ _ _) as [xmin smin].
    destruct (for_range 0 _ _ _) as [[[y xdots] xsum] ssum].
    split; [discriminate|intros [?|?]; discriminate]. }
  destruct (starting_shift (starting_la o)) as [o1|] eqn:Hs.
  - split; [|intros H; apply Hsh in H; discriminate].
    intros [msg H]. exfalso.
    destruct (iterations _ _ _ _ _) as [[o' it'] [| |e]]; simpl in H;
      try discriminate; destruct (it' =? _)%Z; discriminate.
  - split; [intros _; apply Hsh; reflexivity|].
    intros _. eexists. reflexivity.
Qed.

Lemma Solve_panics_at o verbose :
  len o.(X) = 0 \/ len o.(S) = 0 ->
  Solve o verbose = (starting_la o, Panicked "index out of range").
Proof.
  intros H0. unfold Solve, starting_point, starting_shift.
  pose proof (frame_starting_la o) as Hf. rewrite Hf. cbn [X S set_Lis set_J set_R set_Mdy set_Y].
  destruct H0 as [-> | ->]; [reflexivity|].
  rewrite orb_true_r. reflexivity.
Qed.

Lemma Init_Nx A0 b c prms : (Init A0 b c prms).(Nx) = length c.
Proof. reflexivity. Qed.

(** X7: on a solver that [Init] has set up, [Solve] panics exactly when
    the problem has no variable ([c] is empty): [o.X[0]] is read with no
    guard.  The panic comes after the calls of package [la] for the
    starting point. *)
Theorem Solve_panics_without_variable A0 b c prms verbose :
  ((exists msg, snd (Solve (Init A0 b c prms) verbose) = Panicked msg) <->
   c = []) /\
  (c = [] ->
   Solve (Init A0 b c prms) verbose =
   (starting_la (Init A0 b c prms), Panicked "index out of range")).
Proof.
  pose proof (Init_wf A0 b c prms) as Hwf.
  pose proof (Init_Nx A0 b c prms) as HNx.
  set (o := Init A0 b c prms) in *.
  assert (Hlen : len o.(X) = 0 \/ len o.(S) = 0 <-> c = []).
  { rewrite (wf_X _ Hwf), (wf_S _ Hwf). cbn [len]. rewrite HNx.
    destruct c; simpl; split; try lia; try discriminate; auto. }
  split.
  - rewrite Solve_panics. exact Hlen.
  - intros Hc. apply Solve_panics_at, Hlen, Hc.
Qed.

(** X6: whatever way [Solve] ends after the starting point, the [X], [L],
    [S] it leaves are those after a whole number [k] of passes, with
    [k <= NmaxIt] (and [k = 0] for a negative [NmaxIt]): a pass that ends
    at [break] or with an error of the linear solver has not touched
    them. *)
Theorem Solve_whole_passes o verbose o1 :
  wf o ->
  starting_point o = Some o1 ->
  exists k o2,
    full_passes k 0 o1 o2 /\
    (Z.of_nat k <= Z.max 0 o.(NmaxIt))%Z /\
    (fst (Solve o verbose)).(Y) = o2.(Y).
Proof.
  intros Hwf Hs.
  destruct (Solve_inv o verbose o1 Hs)
    as (k & o2 & o' & it' & ex & _ & Hp & Hk & Hit' & Hex & _ & HS).
  exists k, o2. split; [exact Hp|]. split; [lia|].
  assert (Hwf2 : wf o2).
  { apply (wf_full_passes _ _ _ _ Hp), (wf_starting_point o); assumption. }
  assert (Hfst : fst (Solve o verbose) = o').
  { rewrite HS. destruct ex; [destruct (it' =? _)%Z..|]; reflexivity. }
  rewrite Hfst.
  pose proof (iteration_pass_post false false it' o2 Hwf2) as Hpp.
  unfold pass_post in Hpp.
  destruct ex as [| |e]; destruct Hex as [_ Hex].
  - subst o'. reflexivity.
  - rewrite Hex in Hpp. simpl in Hpp. apply Hpp.
  - rewrite Hex in Hpp. simpl in Hpp. apply Hpp.
Qed.

End Outcomes.

(** ** Layout, residual, Jacobian and ratio test *)

Section Layout.
Context {F : Type} {FF : Float64 F} {LA : LinAlg F}.
#[local] Existing Instance F_inhabited.

(** *** The windows on the arrays *)

Lemma tile3 (y : list F) nx nl :
  length y = 2 * nx + nl ->
  take nx (drop 0 y) ++ take nl (drop nx y) ++ take nx (drop (nx + nl) y) = y.
Proof.
  intros Hlen. rewrite drop_0.
  rewrite (take_ge (drop (nx + nl) y)) by (rewrite length_drop; lia).
  rewrite <- (drop_drop y nl nx), take_drop, take_drop. reflexivity.
Qed.

(** X8: the three windows of each array lie side by side and cover it:
    [Y] is [X], [L], [S] one after the other, and likewise [Mdy] and
    [R]. *)
Theorem windows_tile o :
  wf o ->
  sread o.(Y) o.(X) ++ sread o.(Y) o.(L) ++ sread o.(Y) o.(S) = o.(Y) /\
  sread o.(Mdy) o.(Mdx) ++ sread o.(Mdy) o.(Mdl) ++ sread o.(Mdy) o.(Mds)
    = o.(Mdy) /\
  sread o.(R) o.(Rx) ++ sread o.(R) o.(Rl) ++ sread o.(R) o.(Rs) = o.(R).
Proof.
  intros Hwf. unfold sread.
  rewrite (wf_X _ Hwf), (wf_L _ Hwf), (wf_S _ Hwf), (wf_Mdx _ Hwf),
    (wf_Mdl _ Hwf), (wf_Mds _ Hwf), (wf_Rx _ Hwf), (wf_Rl _ Hwf),
    (wf_Rs _ Hwf).
  cbn [off len].
  repeat split; apply tile3;
    [apply (wf_Y _ Hwf)|apply (wf_Mdy _ Hwf)|apply (wf_R _ Hwf)].
Qed.

Lemma sread_sset_same (y : list F) s i v :
  i < len s ->
  sread (sset y s i v) s = <[i := v]> (sread y s).
Proof.
  intros Hi. unfold sread, sset.
  rewrite drop_insert_ge by lia. rewrite take_insert_lt by lia.
  replace (off s + i - off s) with i by lia. reflexivity.
Qed.

Lemma sread_sset_other (y : list F) s t i v :
  i < len s ->
  off s + len s <= off t \/ off t + len t <= off s ->
  sread (sset y s i v) t = sread y t.
Proof.
  intros Hi Hd. unfold sread, sset. destruct Hd as [Hd|Hd].
  - rewrite drop_insert_lt by lia. reflexivity.
  - rewrite drop_insert_ge by lia. rewrite take_insert_ge by lia.
    reflexivity.
Qed.

(** X9: an assignment through one of the windows [X], [L], [S] is an
    assignment to [Y] at the window's place: it is read back through the
    window and through [Y], and the other two windows do not see it. *)
Theorem window_write_read o (v : F) :
  wf o ->
  (forall i, i < o.(Nx) ->
     let y := sset o.(Y) o.(X) i v in
     y !!! i = v /\
     sread y o.(X) = <[i := v]> (sread o.(Y) o.(X)) /\
     sread y o.(L) = sread o.(Y) o.(L) /\
     sread y o.(S) = sread o.(Y) o.(S)) /\
  (forall j, j < o.(Nl) ->
     let y := sset o.(Y) o.(L) j v in
     y !!! (o.(Nx) + j) = v /\
     sread y o.(X) = sread o.(Y) o.(X) /\
     sread y o.(L) = <[j := v]> (sread o.(Y) o.(L)) /\
     sread y o.(S) = sread o.(Y) o.(S)) /\
  (forall i, i < o.(Nx) ->
     let y := sset o.(Y) o.(S) i v in
     y !!! (o.(Nx) + o.(Nl) + i) = v /\
     sread y o.(X) = sread o.(Y) o.(X) /\
     sread y o.(L) = sread o.(Y) o.(L) /\
     sread y o.(S) = <[i := v]> (sread o.(Y) o.(S))).
Proof.
  intros Hwf. pose proof (wf_Y _ Hwf) as HY.
  pose proof (wf_X _ Hwf) as EX. pose proof (wf_L _ Hwf) as EL.
  pose proof (wf_S _ Hwf) as ES.
  repeat split.
  all: try (unfold sset; rewrite ?EX, ?EL, ?ES; cbn [off];
            rewrite list_lookup_total_insert; case_decide;
            [reflexivity|lia]).
  all: try (apply sread_sset_same; rewrite ?EX, ?EL, ?ES; cbn [len]; lia).
  all: apply sread_sset_other; rewrite ?EX, ?EL, ?ES; cbn [off len]; lia.
Qed.

(** *** The residual *)

Lemma lookup_swrite (buf : list F) s vs j :
  off s + len s <= length buf -> len s <= length vs ->
  swrite buf s vs !!! j =
  if decide (off s <= j < off s + len s)
  then vs !!! (j - off s) else buf !!! j.
Proof.
  intros Hb Hv. unfold swrite.
  assert (Hl : length (take (len s) vs) = len s)
    by (rewrite length_take; lia).
  case_decide.
  - rewrite list_lookup_total_inserts by lia.
    apply lookup_total_take_lt. lia.
  - destruct (decide (j < off s)).
    + apply list_lookup_total_inserts_lt; lia.
    + apply list_lookup_total_inserts_ge. lia.
Qed.

Lemma sread_swrite_other (buf : list F) s t vs :
  off s + len s <= length buf ->
  off s + len s <= off t \/ off t + len t <= off s ->
  sread (swrite buf s vs) t = sread buf t.
Proof.
  intros Hb Hd. unfold sread.
  apply list_eq. intros k.
  destruct (decide (k < len t)) as [Hk|Hk].
  - rewrite !lookup_take_lt, !lookup_drop by lia. unfold swrite.
    assert (Hl : length (take (len s) vs) <= len s)
      by (rewrite length_take; lia).
    destruct Hd as [Hd|Hd].
    + apply list_lookup_inserts_ge. lia.
    + apply list_lookup_inserts_lt. lia.
  - rewrite !lookup_take_ge by lia. reflexivity.
Qed.

Lemma residual_contents o :
  wf o ->
  let rx := SpMatTrVecMul (sread o.(R) o.(Rx)) #1 o.(A)
              (sread o.(Y) o.(L)) in
  let rl := SpMatVecMul (sread o.(R) o.(Rl)) #1 o.(A)
              (sread o.(Y) o.(X)) in
  length rx = o.(Nx) -> length rl = o.(Nl) ->
  exists r,
    residual o = (set_R o r, ctx_at o, btl_at o, mu_at o) /\
    length r = length o.(R) /\
    (forall i, i < o.(Nx) ->
       sget r o.(Rx) i =
         rx !!! i ⊕ (sget o.(Y) o.(S) i ⊖ o.(C) !!! i) /\
       sget r o.(Rs) i = sget o.(Y) o.(X) i ⊗ sget o.(Y) o.(S) i) /\
    (forall j, j < o.(Nl) ->
       sget r o.(Rl) j = rl !!! j ⊖ o.(B) !!! j).
Proof.
  intros Hwf rx rl Hrx Hrl.
  pose proof (wf_Rx _ Hwf) as ERx. pose proof (wf_Rl _ Hwf) as ERl.
  pose proof (wf_Rs _ Hwf) as ERs. pose proof (wf_R _ Hwf) as HR.
  unfold residual. fold rx.
  rewrite (sread_swrite_other o.(R) o.(Rx) o.(Rl))
    by (rewrite ?ERx, ?ERl; cbn [off len]; lia).
  fold rl.
  set (r1 := swrite (swrite o.(R) o.(Rx) rx) o.(Rl) rl).
  assert (Hlen1 : length r1 = length o.(R))
    by (unfold r1; rewrite !length_swrite; reflexivity).
  assert (H1 : forall j, r1 !!! j =
            if decide (j < o.(Nx)) then rx !!! j
            else if decide (j < o.(Nx) + o.(Nl)) then rl !!! (j - o.(Nx))
                 else o.(R) !!! j).
  { intros j. unfold r1.
    rewrite lookup_swrite
      by (rewrite ?length_swrite, ?ERl; cbn [off len]; lia).
    rewrite lookup_swrite by (rewrite ?ERx; cbn [off len]; lia).
    rewrite ERx, ERl. cbn [off len].
    repeat case_decide; try lia; try reflexivity.
    f_equal. lia. }
  set (g1 := fun (i : nat) (v : F) =>
               v ⊕ (sget o.(Y) o.(S) i ⊖ o.(C) !!! i)).
  set (g2 := fun (i : nat) (_ : F) =>
               sget o.(Y) o.(X) i ⊗ sget o.(Y) o.(S) i).
  match goal with
  | |- context [for_range 0 (Nx o) ?body ?s0] =>
      pose proof (for_range_proj (fun '(r, ctx, μ) => ctx) body
                    (fun i acc => acc ⊕ o.(C) !!! i ⊗ sget o.(Y) o.(X) i)
                    0 o.(Nx) s0) as Hctx;
      pose proof (for_range_proj (fun '(r, ctx, μ) => μ) body
                    (fun i acc =>
                       acc ⊕ sget o.(Y) o.(X) i ⊗ sget o.(Y) o.(S) i)
                    0 o.(Nx) s0) as Hmu;
      pose proof (for_range_proj (fun '(r, ctx, μ) => r) body
                    (fun i r =>
                       let r := sset r o.(Rx) i (g1 i (sget r o.(Rx) i)) in
                       sset r o.(Rs) i (g2 i (sget r o.(Rs) i)))
                    0 o.(Nx) s0) as Hr2;
      destruct (for_range 0 (Nx o) body s0) as [[r2 ctx] μ]
  end.
  rewrite Hctx, for_range_sum by (intros i [[? ?] ?]; reflexivity).
  rewrite Hmu, for_range_sum by (intros i [[? ?] ?]; reflexivity).
  specialize (Hr2 ltac:(intros i [[? ?] ?]; reflexivity)).
  clear Hctx Hmu.
  destruct (map2_loop r1 o.(Rx) o.(Rs) g1 g2 o.(Nx) o.(Nx))
    as [Hlen2 H2];
    [lia|rewrite ERx, ERs; cbn [off]; lia
    |rewrite Hlen1, ERs, HR; cbn [off]; lia|].
  rewrite <- Hr2 in Hlen2, H2. clear Hr2.
  set (g3 := fun (i : nat) (v : F) => v ⊖ o.(B) !!! i).
  match goal with
  | |- context [for_range 0 (Nl o) ?body ?s0] =>
      pose proof (for_range_proj (fun '(r, btl) => btl) body
                    (fun i acc => acc ⊕ o.(B) !!! i ⊗ sget o.(Y) o.(L) i)
                    0 o.(Nl) s0) as Hbtl;
      pose proof (for_range_proj (fun '(r, btl) => r) body
                    (fun i r => sset r o.(Rl) i (g3 i (sget r o.(Rl) i)))
                    0 o.(Nl) s0) as Hr3;
      destruct (for_range 0 (Nl o) body s0) as [r3 btl]
  end.
  rewrite Hbtl, for_range_sum by (intros i [? ?]; reflexivity).
  specialize (Hr3 ltac:(intros i [? ?]; reflexivity)).
  clear Hbtl.
  destruct (map1_loop r2 o.(Rl) g3 o.(Nl) o.(Nl)) as [Hlen3 H3];
    [lia|rewrite Hlen2, Hlen1, ERl, HR; cbn [off]; lia|].
  rewrite <- Hr3 in Hlen3, H3. clear Hr3.
  exists r3. split; [reflexivity|]. split; [congruence|].
  unfold sget in H2, H3.
  assert (Hg : forall s i, sget r3 s i = r3 !!! (off s + i))
    by reflexivity.
  split.
  - intros i Hi. rewrite !Hg.
    rewrite ERx, ERl, ERs in *. cbn [off] in *.
    rewrite !H3, !H2, !H1. unfold g1, g2.
    repeat case_decide; try lia. split; repeat f_equal; lia.
  - intros j Hj. rewrite Hg.
    rewrite ERx, ERl, ERs in *. cbn [off] in *.
    rewrite !H3, !H2, !H1. unfold g3.
    repeat case_decide; try lia. repeat f_equal; lia.
Qed.

(** X10: the residual phase of a pass overwrites [R] entirely from the
    iterate: with [rx] and [rl] the products [Aᵀ*L] and [A*X] that package
    [la] writes into [Rx] and [Rl], it leaves [Rx[i] = rx[i] + (S[i] -
    C[i])], [Rs[i] = X[i]*S[i]] and [Rl[j] = rl[j] - B[j]], returns
    [ctx = cᵀX], [btl = bᵀL] and [μ = (Σ X[i]*S[i]) / Nx], and changes
    nothing but [R]. *)
Theorem residual_values o :
  wf o ->
  let rx := SpMatTrVecMul (sread o.(R) o.(Rx)) #1 o.(A)
              (sread o.(Y) o.(L)) in
  let rl := SpMatVecMul (sread o.(R) o.(Rl)) #1 o.(A)
              (sread o.(Y) o.(X)) in
  length rx = o.(Nx) -> length rl = o.(Nl) ->
  let o' := fst (fst (fst (residual o))) in
  residual o = (o', ctx_at o, btl_at o, mu_at o) /\
  o' = set_R o o'.(R) /\
  (forall i, i < o.(Nx) ->
     sget o'.(R) o'.(Rx) i =
       rx !!! i ⊕ (sget o.(Y) o.(S) i ⊖ o.(C) !!! i) /\
     sget o'.(R) o'.(Rs) i = sget o.(Y) o.(X) i ⊗ sget o.(Y) o.(S) i) /\
  (forall j, j < o.(Nl) ->
     sget o'.(R) o'.(Rl) j = rl !!! j ⊖ o.(B) !!! j).
Proof.
  intros Hwf rx rl Hrx Hrl o'.
  destruct (residual_contents o Hwf Hrx Hrl) as (r & Hres & _ & Hxs & Hl).
  unfold o'. rewrite Hres. cbn [fst]. simpl.
  split; [reflexivity|]. split; [reflexivity|]. split; assumption.
Qed.

(** *** The Jacobian *)

Lemma put_all_app (j : Triplet) es1 es2 :
  put_all j (es1 ++ es2) = put_all (put_all j es1) es2.
Proof. apply fold_left_app. Qed.

Lemma jacobian_loop o (j : Triplet) n :
  for_range 0 n
    (fun i j =>
       let j := Triplet_Put j i (o.(Nx) + o.(Nl) + i) #1 in
       let j := Triplet_Put j (o.(Nx) + o.(Nl) + i) i
                  (sget o.(Y) o.(S) i) in
       Triplet_Put j (o.(Nx) + o.(Nl) + i) (o.(Nx) + o.(Nl) + i)
         (sget o.(Y) o.(X) i)) j =
  put_all j
    (flat_map (fun i => [(i, o.(Nx) + o.(Nl) + i, #1);
                         (o.(Nx) + o.(Nl) + i, i, sget o.(Y) o.(S) i);
                         (o.(Nx) + o.(Nl) + i, o.(Nx) + o.(Nl) + i,
                          sget o.(Y) o.(X) i)])
              (seq 0 n)).
Proof.
  induction n as [|n IH]; [reflexivity|].
  rewrite for_range_S by lia. rewrite IH.
  rewrite seq_S, flat_map_app, put_all_app. reflexivity.
Qed.

(** X11: in every pass the Jacobian is started anew, receives [A] and its
    transpose, and then exactly [3*Nx] entries from the loop: for every
    [i] a one at [(i, I+i)], [S[i]] at [(I+i, i)] and [X[i]] at
    [(I+i, I+i)] with [I = Nx+Nl], all of them inside the [Ny] by [Ny]
    matrix that [Init] declares.  Nothing but the Jacobian changes. *)
Theorem assemble_J_puts o :
  assemble_J o =
    set_J o (put_all (Triplet_PutCCMatAndMatT (Triplet_Start o.(J)) o.(A))
               (jacobian_puts o)) /\
  length (jacobian_puts o) = 3 * o.(Nx) /\
  Forall (fun '(r, c, _) => r < 2 * o.(Nx) + o.(Nl) /\
                            c < 2 * o.(Nx) + o.(Nl)) (jacobian_puts o).
Proof.
  split; [|split].
  - unfold assemble_J, jacobian_puts. rewrite jacobian_loop. reflexivity.
  - unfold jacobian_puts. cbv zeta.
    rewrite (flat_map_constant_length (c := 3)) by reflexivity.
    rewrite length_seq. lia.
  - unfold jacobian_puts. cbv zeta. apply Forall_flat_map.
    apply Forall_forall. intros i Hi. apply elem_of_seq in Hi.
    repeat constructor; lia.
Qed.

(** *** The ratio test: the ratio returned is one of the candidates *)

Lemma min_cases (a b : F) : min a b = a \/ min a b = b.
Proof. unfold min. destruct (a ≺ b); auto. Qed.

Lemma ratio_loop_attained (v mdv : nat -> F) n :
  let st := for_range 0 n (ratio_step v mdv) (#0, true) in
  (snd st = true /\ forall i, i < n -> (#0 ≺ mdv i) = false) \/
  (snd st = false /\
   exists k, k < n /\ (#0 ≺ mdv k) = true /\ fst st = v k ⊘ mdv k).
Proof.
  induction n as [|n IH]; cbv zeta.
  - left. split; [reflexivity|]. intros i Hi. lia.
  - rewrite for_range_S by lia. cbv zeta in IH.
    destruct (for_range 0 n (ratio_step v mdv) (#0, true)) as [r first].
    cbn [fst snd] in IH. unfold ratio_step.
    destruct (#0 ≺ mdv n) eqn:Em.
    + right. destruct IH as [[-> Hnone]|[-> (k & Hk & Hmk & Hr)]];
        cbn [fst snd].
      * split; [reflexivity|]. exists n. repeat split; [lia|exact Em].
      * split; [reflexivity|].
        destruct (min_cases r (v n ⊘ mdv n)) as [E|E]; rewrite E.
        -- exists k. repeat split; [lia|exact Hmk|exact Hr].
        -- exists n. repeat split; [lia|exact Em].
    + destruct IH as [[-> Hnone]|[-> (k & Hk & Hmk & Hr)]];
        cbn [fst snd].
      * left. split; [reflexivity|]. intros i Hi.
        destruct (decide (i = n)) as [->|Hne]; [exact Em|].
        apply Hnone. lia.
      * right. split; [reflexivity|].
        exists k. repeat split; [lia|exact Hmk|exact Hr].
Qed.

(** X12: when some [Mdx[i]] is positive, the [xrmin] that
    [calc_min_ratios] returns is one of the ratios [X[k]/Mdx[k]] with
    [Mdx[k] > 0], and likewise [srmin] is one of the ratios
    [S[k]/Mds[k]] with [Mds[k] > 0]: never a value of its own. *)
Theorem ratio_is_candidate o :
  ((exists i, i < o.(Nx) /\ (#0 ≺ sget o.(Mdy) o.(Mdx) i) = true) ->
   exists k, k < o.(Nx) /\ (#0 ≺ sget o.(Mdy) o.(Mdx) k) = true /\
     fst (calc_min_ratios o) =
       sget o.(Y) o.(X) k ⊘ sget o.(Mdy) o.(Mdx) k) /\
  ((exists i, i < o.(Nx) /\ (#0 ≺ sget o.(Mdy) o.(Mds) i) = true) ->
   exists k, k < o.(Nx) /\ (#0 ≺ sget o.(Mdy) o.(Mds) k) = true /\
     snd (calc_min_ratios o) =
       sget o.(Y) o.(S) k ⊘ sget o.(Mdy) o.(Mds) k).
Proof.
  rewrite calc_min_ratios_split. cbn [fst snd].
  split; intros (i & Hi & Hm).
  - destruct (ratio_loop_attained (sget o.(Y) o.(X)) (sget o.(Mdy) o.(Mdx))
                o.(Nx)) as [[_ Hnone]|[_ Hk]]; [|exact Hk].
    rewrite Hnone in Hm by exact Hi. discriminate.
  - destruct (ratio_loop_attained (sget o.(Y) o.(S)) (sget o.(Mdy) o.(Mds))
                o.(Nx)) as [[_ Hnone]|[_ Hk]]; [|exact Hk].
    rewrite Hnone in Hm by exact Hi. discriminate.
Qed.

End Layout.

(** ** The ratio test of the code against the specification's *)

Section RatioTestProperties.
Context {F : Type} {FF : Float64 F} {LA : LinAlg F}.
#[local] Existing Instance F_inhabited.

Lemma ratio_test_S (v mdv : nat -> F) n :
  ratio_test v mdv (Datatypes.S n) =
  if #0 ≺ mdv n
  then Some (match ratio_test v mdv n with
             | None => v n ⊘ mdv n
             | Some r => min r (v n ⊘ mdv n)
             end)
  else ratio_test v mdv n.
Proof. unfold ratio_test. rewrite seq_S, fold_left_app. reflexivity. Qed.

(** The loop of [calc_min_ratios] holds the ratio of the specification
    when there is one, and its flag says whether there is one. *)
Lemma ratio_loop_ratio_test (v mdv : nat -> F) n :
  for_range 0 n (ratio_step v mdv) (#0, true) =
  (default #0 (ratio_test v mdv n),
   match ratio_test v mdv n with None => true | Some _ => false end).
Proof.
  induction n as [|n IH]; [reflexivity|].
  rewrite for_range_S by lia. rewrite IH, ratio_test_S.
  unfold ratio_step.
  destruct (#0 ≺ mdv n); destruct (ratio_test v mdv n); reflexivity.
Qed.

Lemma calc_min_ratios_ratio_test o :
  calc_min_ratios o =
  (default #0 (xrmin_spec o), default #0 (srmin_spec o)).
Proof.
  rewrite calc_min_ratios_split, !ratio_loop_ratio_test. reflexivity.
Qed.

Lemma affine_length_Some (r : option F) :
  is_Some r -> min #1 (default #0 r) = affine_length r.
Proof. intros [x ->]. reflexivity. Qed.

Lemma final_length_Some (r : option F) :
  is_Some r -> min #1 (#0.99 ⊗ default #0 r) = final_length r.
Proof. intros [x ->]. reflexivity. Qed.

(** X19: the corrector changes only the [Rs] window of [R] ([Rx], [Rl]
    and everything outside [R] stay), and when the affine ratio test has a
    candidate on both sides (some [Mdx[i] > 0] and some [Mds[i] > 0]) the
    new [Rs[i]] is the one of the specification: [Rs[i] + (Mdx[i]*Mds[i] -
    σ*μ)] with [σ = (μaff/μ)³] and [μaff] taken at the step lengths
    [min(1, xrmin)], [min(1, srmin)] of the least ratios. *)
Theorem corrector_as_specified o μ :
  wf o ->
  let o' := corrector o μ in
  o' = set_R o o'.(R) /\
  (forall i, i < o.(Nx) -> sget o'.(R) o'.(Rx) i = sget o.(R) o.(Rx) i) /\
  (forall j, j < o.(Nl) -> sget o'.(R) o'.(Rl) j = sget o.(R) o.(Rl) j) /\
  (is_Some (xrmin_spec o) -> is_Some (srmin_spec o) ->
   forall i, i < o.(Nx) -> sget o'.(R) o'.(Rs) i = Rs_spec o μ i).
Proof.
  intros Hwf o'.
  destruct (corrector_spec o μ Hwf) as (r & Hr & _ & HRs & Hrest).
  unfold o'. rewrite Hr. cbn [R Rx Rl Rs set_R].
  split; [reflexivity|]. split; [|split].
  - intros i Hi. unfold sget. apply Hrest.
    rewrite (wf_Rx _ Hwf). simpl. lia.
  - intros j Hj. unfold sget. apply Hrest.
    rewrite (wf_Rl _ Hwf). simpl. lia.
  - intros Hx Hs i Hi. rewrite (HRs i Hi).
    unfold Rs_spec, sigma_spec, mu_affine_spec, sigma, mu_affine,
      affine_steps.
    rewrite calc_min_ratios_ratio_test. cbn [fst snd].
    rewrite (affine_length_Some _ Hx), (affine_length_Some _ Hs).
    reflexivity.
Qed.

(** X20: the final update changes nothing but [Y]; when the final ratio
    test has a candidate among the [Mdx[i] > 0], every [X[i]] becomes
    [X[i] - αpa*Mdx[i]] with [αpa = min(1, 0.99*xrmin)] of the least
    ratio, and when it has one among the [Mds[i] > 0], every [S[i]]
    becomes [S[i] - αda*Mds[i]] and every [L[j]] becomes
    [L[j] - αda*Mdl[j]] with [αda = min(1, 0.99*srmin)]: the multipliers
    move with the dual step length. *)
Theorem update_as_specified o :
  wf o ->
  let o' := step o in
  o' = set_Y o o'.(Y) /\
  (is_Some (xrmin_spec o) ->
   forall i, i < o.(Nx) -> sget o'.(Y) o'.(X) i = X_spec o i) /\
  (is_Some (srmin_spec o) ->
   (forall i, i < o.(Nx) -> sget o'.(Y) o'.(S) i = S_spec o i) /\
   (forall j, j < o.(Nl) -> sget o'.(Y) o'.(L) j = L_spec o j)).
Proof.
  intros Hwf o'.
  destruct (step_spec o Hwf) as (y & Hy & _ & HX & HS & HL).
  unfold o'. rewrite Hy. cbn [Y X L S set_Y].
  rewrite calc_min_ratios_ratio_test in HX, HS, HL.
  cbn [fst snd] in HX, HS, HL.
  split; [reflexivity|]. split.
  - intros Hx i Hi. rewrite (HX i Hi). unfold X_spec.
    rewrite (final_length_Some _ Hx). reflexivity.
  - intros Hs. split.
    + intros i Hi. rewrite (HS i Hi). unfold S_spec.
      rewrite (final_length_Some _ Hs). reflexivity.
    + intros j Hj. rewrite (HL j Hj). unfold L_spec.
      rewrite (final_length_Some _ Hs). reflexivity.
Qed.

End RatioTestProperties.

(** ** The starting point before the shifts *)

Section Start.
Context {F : Type} {FF : Float64 F} {LA : LinAlg F}.
#[local] Existing Instance F_inhabited.

Lemma fill_full (buf vs : list F) :
  length vs = length buf -> fill buf vs = vs.
Proof.
  intros Hlen. unfold fill. rewrite take_ge by lia.
  apply list_eq. intros k.
  destruct (decide (k < length vs)) as [Hk|Hk].
  - rewrite list_lookup_inserts by lia. f_equal. lia.
  - rewrite list_lookup_inserts_ge by lia.
    rewrite !lookup_ge_None_2 by lia. reflexivity.
Qed.

Lemma sread_swrite_same (buf : list F) s vs :
  off s + len s <= length buf -> length vs = len s ->
  sread (swrite buf s vs) s = vs.
Proof.
  intros Hb Hv. unfold sread, swrite. rewrite (take_ge vs) by lia.
  apply list_eq. intros k.
  destruct (decide (k < len s)) as [Hk|Hk].
  - rewrite lookup_take_lt, lookup_drop by lia.
    rewrite list_lookup_inserts by (rewrite ?Hv; lia). f_equal. lia.
  - rewrite lookup_take_ge by lia.
    rewrite lookup_ge_None_2 by lia. reflexivity.
Qed.

(** X17: the starting point before the shifts, in the layout of [Init] and
    with every vector that package [la] returns of the length of its
    destination: with [e = A*c], [(d, l)] the two solutions against [A*Aᵀ]
    for the right-hand sides [b] and [e], [Solve] leaves [L = l],
    [X = Aᵀ*d] and [S] the result of [SpMatTrVecMulAdd] on the copy of [c]
    with [-1], [A] and the new [L]; [Y] is these three one after the
    other. *)
Theorem starting_la_values o :
  wf o ->
  let AAt := SpMatMatTrMul (MatAlloc o.(Nl) o.(Nl)) #1 o.(A) in
  let e := SpMatVecMul (make o.(Nl)) #1 o.(A) o.(C) in
  let d := fst (SPDsolve2 (make o.(Nl)) (sread o.(Y) o.(L)) AAt o.(B) e) in
  let l := snd (SPDsolve2 (make o.(Nl)) (sread o.(Y) o.(L)) AAt o.(B) e) in
  let x := SpMatTrVecMul (sread o.(Y) o.(X)) #1 o.(A) d in
  let s0 := VecCopy (sread o.(Y) o.(S)) #1 o.(C) in
  let s := SpMatTrVecMulAdd s0 #(-1) o.(A) l in
  length e = o.(Nl) -> length d = o.(Nl) -> length l = o.(Nl) ->
  length x = o.(Nx) -> length s0 = o.(Nx) -> length s = o.(Nx) ->
  let o' := starting_la o in
  sread o'.(Y) o'.(X) = x /\ sread o'.(Y) o'.(L) = l /\
  sread o'.(Y) o'.(S) = s /\ o'.(Y) = x ++ l ++ s /\
  o' = set_Y o o'.(Y).
Proof.
  intros Hwf AAt e.
  destruct (SPDsolve2 (make o.(Nl)) (sread o.(Y) o.(L)) AAt o.(B) e)
    as [d l] eqn:Esolve.
  intros d0 l0. cbn [fst snd] in d0, l0. subst d0 l0.
  intros x s0 s He Hd Hl Hx Hs0 Hs o'.
  pose proof (wf_X _ Hwf) as EX. pose proof (wf_L _ Hwf) as EL.
  pose proof (wf_S _ Hwf) as ES. pose proof (wf_Y _ Hwf) as HY.
  assert (Ho' : o' =
            set_Y o
              (swrite (swrite (swrite (swrite o.(Y) o.(L) l) o.(X) x)
                         o.(S) s0) o.(S) s)).
  { unfold o', starting_la. fold AAt.
    rewrite (fill_full (make o.(Nl)) (SpMatVecMul _ _ _ _))
      by (fold e; rewrite He, length_make; reflexivity).
    fold e.
    rewrite Esolve. cbn [Y X L S A C set_Y].
    rewrite (fill_full (make o.(Nl)) d)
      by (rewrite length_make; exact Hd).
    rewrite (sread_swrite_other o.(Y) o.(L) o.(X))
      by (rewrite ?EX, ?EL; cbn [off len]; lia).
    fold x.
    rewrite (sread_swrite_other _ o.(X) o.(S))
      by (rewrite ?length_swrite, ?EX, ?ES; cbn [off len]; lia).
    rewrite (sread_swrite_other o.(Y) o.(L) o.(S))
      by (rewrite ?ES, ?EL; cbn [off len]; lia).
    fold s0.
    rewrite (sread_swrite_same _ o.(S) s0)
      by (rewrite ?length_swrite, ?ES; cbn [off len]; lia).
    rewrite (sread_swrite_other _ o.(S) o.(L))
      by (rewrite ?length_swrite, ?ES, ?EL; cbn [off len]; lia).
    rewrite (sread_swrite_other _ o.(X) o.(L))
      by (rewrite ?length_swrite, ?EX, ?EL; cbn [off len]; lia).
    rewrite (sread_swrite_same o.(Y) o.(L) l)
      by (rewrite ?EL; cbn [off len]; lia).
    reflexivity. }
  rewrite Ho'. cbn [Y X L S set_Y].
  set (y4 := swrite _ o.(S) s).
  assert (HX' : sread y4 o.(X) = x).
  { unfold y4.
    rewrite !(sread_swrite_other _ o.(S) o.(X))
      by (rewrite ?length_swrite, ?EX, ?ES; cbn [off len]; lia).
    apply sread_swrite_same;
      rewrite ?length_swrite, ?EX; cbn [off len]; lia. }
  assert (HL' : sread y4 o.(L) = l).
  { unfold y4.
    rewrite !(sread_swrite_other _ o.(S) o.(L))
      by (rewrite ?length_swrite, ?EL, ?ES; cbn [off len]; lia).
    rewrite (sread_swrite_other _ o.(X) o.(L))
      by (rewrite ?length_swrite, ?EX, ?EL; cbn [off len]; lia).
    apply sread_swrite_same; rewrite ?EL; cbn [off len]; lia. }
  assert (HS' : sread y4 o.(S) = s).
  { unfold y4. apply sread_swrite_same;
      rewrite ?length_swrite, ?ES; cbn [off len]; lia. }
  split; [exact HX'|]. split; [exact HL'|]. split; [exact HS'|].
  split; [|reflexivity].
  rewrite <- HX', <- HL', <- HS'. unfold sread.
  rewrite EX, EL, ES. cbn [off len]. symmetry. apply tile3.
  unfold y4. rewrite !length_swrite. exact HY.
Qed.

End Start.

(** ** The protocol of the linear solver *)

Section Calls.
Context {F : Type} {FF : Float64 F} {LA : LinAlg F}.
Variable lg : LinSol -> list call.
Hypothesis Hrec : records lg.
#[local] Existing Instance F_inhabited.

Lemma Lis_residual (o : LinIpm) :
  (fst (fst (fst (residual o)))).(Lis) = o.(Lis).
Proof. destruct (residual_spec o) as (r & _ & ->). reflexivity. Qed.

Lemma Lis_corrector (o : LinIpm) μ : (corrector o μ).(Lis) = o.(Lis).
Proof. unfold corrector. destruct (calc_min_ratios o). reflexivity. Qed.

Lemma Lis_step (o : LinIpm) : (step o).(Lis) = o.(Lis).
Proof. unfold step. destruct (calc_min_ratios o). reflexivity. Qed.

Lemma Lis_starting_point (o o1 : LinIpm) :
  starting_point o = Some o1 -> o1.(Lis) = o.(Lis).
Proof. intros Hs. rewrite (starting_point_frame_Y _ _ Hs). reflexivity. Qed.

Lemma Lis_starting_la (o : LinIpm) : (starting_la o).(Lis) = o.(Lis).
Proof.
  unfold starting_la. destruct (SPDsolve2 _ _ _ _ _). reflexivity.
Qed.

Lemma log_attempt base done c todo (r : LinIpm * option error) k :
  calls lg (fst r) = base ++ done ++ [c] ->
  log_post lg base (done ++ [c]) todo (k (fst r)) ->
  log_post lg base done (c :: todo) (attempt r k).
Proof.
  intros Hr Hk. destruct r as [o' [e|]]; cbn [attempt fst] in *.
  - unfold log_post. cbn [snd fst]. exists [c].
    split; [exists todo; reflexivity|].
    split; [destruct done; discriminate|exact Hr].
  - unfold log_post in *. destruct (snd (k o')) as [| |e].
    + rewrite Hk, <- !app_assoc. reflexivity.
    + exact Hk.
    + destruct Hk as (pre & Hpre & _ & Hc). exists (c :: pre).
      split; [apply prefix_cons, Hpre|].
      split; [destruct done; discriminate|].
      rewrite Hc, <- !app_assoc. reflexivity.
Qed.

Lemma calls_corrector (o : LinIpm) μ :
  calls lg (corrector o μ) = calls lg o.
Proof. unfold calls. rewrite Lis_corrector. reflexivity. Qed.

Lemma calls_step (o : LinIpm) : calls lg (step o) = calls lg o.
Proof. unfold calls. rewrite Lis_step. reflexivity. Qed.

Lemma calls_solve_system (o : LinIpm) :
  calls lg (fst (solve_system o)) = calls lg o ++ [CallSolveR false].
Proof.
  destruct Hrec as (_ & _ & HS). unfold solve_system, calls.
  specialize (HS o.(Lis) o.(Mdy) o.(R) false).
  destruct (SolveR _ _ _ _) as [[lis mdy] err]. exact HS.
Qed.

Lemma calls_InitR (o : LinIpm) symmetric verbose timing :
  calls lg (fst (let '(lis, err) :=
                   InitR o.(Lis) o.(J) symmetric verbose timing in
                 (set_Lis o lis, err))) =
  calls lg o ++ [CallInitR symmetric verbose timing].
Proof.
  destruct Hrec as (HI & _ & _). unfold calls.
  specialize (HI o.(Lis) o.(J) symmetric verbose timing).
  destruct (InitR _ _ _ _ _) as [lis err]. exact HI.
Qed.

Lemma calls_Fact (o : LinIpm) :
  calls lg (fst (let '(lis, err) := Fact o.(Lis) o.(J) in
                 (set_Lis o lis, err))) =
  calls lg o ++ [CallFact].
Proof.
  destruct Hrec as (_ & HF & _). unfold calls.
  specialize (HF o.(Lis) o.(J)).
  destruct (Fact _ _) as [lis err]. exact HF.
Qed.

(** The rest of a pass from [Fact] on. *)
Lemma pass_rest_calls base done (o2 : LinIpm) μ :
  calls lg o2 = base ++ done ->
  log_post lg base done later_pass
    (attempt (let '(lis, err) := Fact o2.(Lis) o2.(J) in
              (set_Lis o2 lis, err))
       (fun o3 =>
          attempt (solve_system o3)
            (fun o4 =>
               attempt (solve_system (corrector o4 μ))
                 (fun o5 => (step o5, Continue))))).
Proof.
  intros H2. unfold later_pass.
  apply log_attempt.
  { rewrite calls_Fact, H2, <- app_assoc. reflexivity. }
  apply log_attempt.
  { rewrite calls_solve_system, calls_Fact, H2, <- !app_assoc.
    reflexivity. }
  apply log_attempt.
  { rewrite calls_solve_system, calls_corrector, calls_solve_system,
      calls_Fact, H2, <- !app_assoc.
    reflexivity. }
  unfold log_post. cbn [snd fst].
  rewrite calls_step, calls_solve_system, calls_corrector,
    calls_solve_system, calls_Fact, H2, <- !app_assoc.
  reflexivity.
Qed.

Lemma iteration_calls it (o : LinIpm) :
  let res := iteration false false it o in
  match snd res with
  | Continue => calls lg (fst res) = calls lg o ++ pass_at it
  | Break => calls lg (fst res) = calls lg o
  | Return _ =>
      exists pre,
        pre `prefix_of` pass_at it /\ pre <> [] /\
        calls lg (fst res) = calls lg o ++ pre
  end.
Proof.
  cbv zeta. unfold iteration.
  destruct (residual_spec o) as (r & _ & ->).
  destruct (_ ≺ _); [reflexivity|].
  set (o1 := assemble_J (set_R o r)).
  assert (H1 : calls lg o1 = calls lg o) by reflexivity.
  clearbody o1.
  match goal with
  | |- match snd ?res with _ => _ end =>
      enough (Hpost : log_post lg (calls lg o) [] (pass_at it) res)
  end.
  { unfold log_post in Hpost. cbn [app] in Hpost.
    destruct (snd _); [exact Hpost|contradiction|].
    destruct Hpost as (pre & Hp & Hne & Hc). exists pre.
    repeat split; assumption. }
  unfold pass_at. destruct (it =? 0)%Z.
  - unfold first_pass. apply log_attempt.
    { rewrite calls_InitR, H1. reflexivity. }
    apply pass_rest_calls. rewrite calls_InitR, H1. reflexivity.
  - cbn [attempt]. apply pass_rest_calls. rewrite H1, app_nil_r.
    reflexivity.
Qed.

Lemma full_passes_calls_from n it (o o' : LinIpm) :
  full_passes n it o o' ->
  forall k, it = Z.of_nat k ->
    calls lg o ++ flat_map (fun i => pass_at (Z.of_nat i)) (seq k n) =
    calls lg o'.
Proof.
  induction 1 as [it o|n it o o' o'' Hpass _ IH]; intros k Hk.
  - simpl. apply app_nil_r.
  - pose proof (iteration_calls it o) as Hc. cbv zeta in Hc.
    rewrite Hpass in Hc. cbn [fst snd] in Hc.
    rewrite <- (IH (Datatypes.S k)) by lia.
    rewrite Hc. cbn [seq flat_map]. rewrite <- app_assoc, Hk.
    reflexivity.
Qed.

Lemma full_passes_calls n (o o' : LinIpm) :
  full_passes n 0 o o' -> calls lg o' = calls lg o ++ passes n.
Proof.
  intros Hp. symmetry. apply (full_passes_calls_from _ _ _ _ Hp 0).
  reflexivity.
Qed.

Lemma no_Free_pass_at it : Forall (fun c => c <> CallFree) (pass_at it).
Proof.
  unfold pass_at, first_pass, later_pass.
  destruct (it =? 0)%Z; repeat constructor; discriminate.
Qed.

Lemma no_Free_passes k : Forall (fun c => c <> CallFree) (passes k).
Proof.
  unfold passes. apply Forall_flat_map, Forall_forall.
  intros i _. apply no_Free_pass_at.
Qed.


End Calls.

Section RecorderRecords.
Context {F : Type} {FF : Float64 F} (LA : LinAlg F).

(** The recorder keeps a record in the sense of [records]. *)
Lemma recorded_records : records (LA:=recorded LA) (record_of LA).
Proof. repeat split. Qed.

End RecorderRecords.

(** ** More on exact arithmetic *)

Section ExactMore.
Context {LA : LinAlg Q}.
#[local] Existing Instance F_inhabited.
Local Open Scope Q_scope.

(** *** The ratio test in exact arithmetic *)

Lemma ratio_loop_least (v mdv : nat -> Q) (n : nat) :
  let st := for_range 0 n (ratio_step v mdv) (#0, true) in
  forall i, (i < n)%nat -> 0 < mdv i -> fst st <= v i / mdv i.
Proof.
  set (P := fun (k : nat) (st : Q * bool) =>
              (k <= n)%nat ->
              (snd st = true -> forall i, (i < k)%nat -> ~ 0 < mdv i) /\
              (forall i, (i < k)%nat -> 0 < mdv i -> fst st <= v i / mdv i)).
  enough (HP : P n (for_range 0 n (ratio_step v mdv) (#0, true))).
  { destruct HP as (_ & Hb); [lia|]. exact Hb. }
  apply (for_range_inv P); [lia| |]; unfold P.
  - intros _. split; intros; lia.
  - intros k [r first] Hk IH Hle.
    destruct IH as (Hfirst & Hb); [lia|]. cbn [fst snd] in Hfirst, Hb.
    unfold ratio_step. destruct (#0 ≺ mdv k) eqn:Em.
    + apply Q_ltb_lt in Em. rewrite ex_lit in Em.
      assert (Hq : v k ⊘ mdv k == v k / mdv k) by apply ex_div.
      set (ρ := v k ⊘ mdv k) in *.
      destruct first; cbn [fst snd].
      * split; [discriminate|]. intros i Hi Hmi.
        destruct (Nat.eq_dec i k) as [->|Hne]; [lra|].
        exfalso. apply (Hfirst eq_refl i); [lia|exact Hmi].
      * destruct (ex_min_le r ρ) as [Hl Hr].
        split; [discriminate|]. intros i Hi Hmi.
        destruct (Nat.eq_dec i k) as [->|Hne]; [lra|].
        apply Qle_trans with r; [exact Hl|]. apply Hb; [lia|exact Hmi].
    + apply Q_ltb_ge in Em. rewrite ex_lit in Em. cbn [fst snd].
      split.
      * intros Hf i Hi Hmi. destruct (Nat.eq_dec i k) as [->|Hne]; [lra|].
        apply (Hfirst Hf i); [lia|exact Hmi].
      * intros i Hi Hmi. destruct (Nat.eq_dec i k) as [->|Hne]; [lra|].
        apply Hb; [lia|exact Hmi].
Qed.

(** X13: in exact arithmetic the ratios that [calc_min_ratios] returns are
    lower bounds: [xrmin <= X[i]/Mdx[i]] for every [i] with
    [Mdx[i] > 0], and [srmin <= S[i]/Mds[i]] for every [i] with
    [Mds[i] > 0]. *)
Theorem ratio_is_least o i :
  (i < o.(Nx))%nat ->
  (0 < sget o.(Mdy) o.(Mdx) i ->
   fst (calc_min_ratios o) <= sget o.(Y) o.(X) i / sget o.(Mdy) o.(Mdx) i) /\
  (0 < sget o.(Mdy) o.(Mds) i ->
   snd (calc_min_ratios o) <= sget o.(Y) o.(S) i / sget o.(Mdy) o.(Mds) i).
Proof.
  intros Hi. rewrite calc_min_ratios_split. cbn [fst snd].
  split; intros Hm; apply ratio_loop_least; assumption.
Qed.

(** *** The step lengths and the update in exact arithmetic *)

(** A step length [min(1, c*r)] with [0 <= c <= 1] lies in [[0, 1]] and
    does not pass [c*r]. *)
Lemma ex_step_length (c r : Q) :
  0 <= c -> 0 <= r ->
  0 <= min #1 (c ⊗ r) /\ min #1 (c ⊗ r) <= 1 /\ min #1 (c ⊗ r) <= c * r.
Proof.
  intros Hc Hr.
  assert (Hβ : c ⊗ r == c * r) by apply ex_mul.
  assert (H1 : #1 == 1) by apply ex_lit.
  assert (Hcr : 0 <= c * r) by (apply Qmult_le_0_compat; assumption).
  set (β := c ⊗ r) in *. set (one := #1) in *.
  destruct (ex_min_le one β) as [Hl Hle].
  split; [apply ex_min_ge; lra|]. split; lra.
Qed.

Lemma ex_step_fraction (x m r : Q) :
  0 < x -> 0 <= r -> (0 < m -> r * m <= x) ->
  0.01 * x <= x ⊖ min #1 (#0.99 ⊗ r) ⊗ m.
Proof.
  intros Hx Hr Hb. rewrite ex_sub, ex_mul.
  assert (Hc : #0.99 == 0.99) by apply ex_lit.
  assert (Hβ : #0.99 ⊗ r == 0.99 * r) by (rewrite ex_mul, Hc; reflexivity).
  assert (H1 : #1 == 1) by apply ex_lit.
  set (β := #0.99 ⊗ r) in *. set (one := #1) in *.
  set (α := min one β).
  assert (Hα : 0 <= α /\ α <= 0.99 * r).
  { unfold α. destruct (ex_min_le one β) as [_ Hle].
    split; [apply ex_min_ge|]; lra. }
  destruct Hα as [Hα0 Hα1].
  destruct (Qlt_le_dec 0 m) as [Hm|Hm].
  - specialize (Hb Hm).
    assert (α * m <= 0.99 * r * m)
      by (apply Qmult_le_compat_r; lra).
    lra.
  - assert (0 <= α * - m) by (apply Qmult_le_0_compat; lra).
    lra.
Qed.

(** X14: in exact arithmetic, at an iterate with [X > 0] and [S > 0], the
    step lengths [αpa = min(1, 0.99*xrmin)] and [αda = min(1,
    0.99*srmin)] lie in [[0, 1]], and the update keeps at least one
    hundredth of every entry: [X[i] >= 0.01*X[i]] before, and the same
    for [S]. *)
Theorem step_keeps_fraction o :
  wf o -> positive o ->
  let αpa := min #1 (#0.99 ⊗ fst (calc_min_ratios o)) in
  let αda := min #1 (#0.99 ⊗ snd (calc_min_ratios o)) in
  let o' := step o in
  (0 <= αpa /\ αpa <= 1) /\ (0 <= αda /\ αda <= 1) /\
  forall i, (i < o.(Nx))%nat ->
    0.01 * sget o.(Y) o.(X) i <= sget o'.(Y) o'.(X) i /\
    0.01 * sget o.(Y) o.(S) i <= sget o'.(Y) o'.(S) i.
Proof.
  intros Hwf Hpos. cbv zeta.
  destruct (step_spec o Hwf) as (y & Hy & _ & HX & HS & _).
  rewrite calc_min_ratios_split in HX, HS |- *. cbn [fst snd] in HX, HS |- *.
  destruct (ratio_loop_bound (sget o.(Y) o.(X)) (sget o.(Mdy) o.(Mdx)) o.(Nx))
    as [Hx0 Hxb]; [intros i Hi; apply (positive_Q o i Hpos Hi)|].
  destruct (ratio_loop_bound (sget o.(Y) o.(S)) (sget o.(Mdy) o.(Mds)) o.(Nx))
    as [Hs0 Hsb]; [intros i Hi; apply (positive_Q o i Hpos Hi)|].
  assert (Hc : 0 <= #0.99) by (rewrite ex_lit; lra).
  split; [|split].
  - destruct (ex_step_length #0.99 _ Hc Hx0) as (H0 & H1 & _).
    split; assumption.
  - destruct (ex_step_length #0.99 _ Hc Hs0) as (H0 & H1 & _).
    split; assumption.
  - rewrite Hy. intros i Hi. cbn [Y X S set_Y].
    destruct (positive_Q o i Hpos Hi) as [HXi HSi].
    rewrite (HX i Hi), (HS i Hi).
    split; apply ex_step_fraction; auto.
Qed.

(** *** The centring parameter in exact arithmetic *)

Lemma ex_sum_pos (n : nat) (f : nat -> Q) :
  (0 < n)%nat -> (forall i, (i < n)%nat -> 0 < f i) -> 0 < sum_over n f.
Proof.
  intros Hn Hf. induction n as [|n IH]; [lia|].
  rewrite ex_sum_S. assert (0 < f n) by (apply Hf; lia).
  destruct n as [|n'].
  - rewrite ex_sum_O. lra.
  - assert (0 < sum_over (Datatypes.S n') f)
      by (apply IH; [lia|intros i Hi; apply Hf; lia]).
    lra.
Qed.

(** A trial step of length [min(1, r)] does not leave the orthant. *)
Lemma ex_trial_nonneg (x m r : Q) :
  0 < x -> 0 <= r -> (0 < m -> r * m <= x) ->
  0 <= x ⊖ min #1 r ⊗ m.
Proof.
  intros Hx Hr Hb. rewrite ex_sub, ex_mul.
  assert (H1 : #1 == 1) by apply ex_lit.
  set (one := #1) in *. set (α := min one r).
  assert (Hα : 0 <= α /\ α <= r).
  { unfold α. destruct (ex_min_le one r) as [_ Hle].
    split; [apply ex_min_ge; lra|exact Hle]. }
  destruct Hα as [Hα0 Hα1].
  destruct (Qlt_le_dec 0 m) as [Hm|Hm].
  - specialize (Hb Hm).
    assert (α * m <= r * m) by (apply Qmult_le_compat_r; lra).
    lra.
  - assert (0 <= α * - m) by (apply Qmult_le_0_compat; lra).
    lra.
Qed.

Lemma ex_of_nat_pos (n : nat) : (0 < n)%nat -> 0 < f_of_int (Z.of_nat n).
Proof.
  intros Hn. simpl. unfold Qlt. simpl. lia.
Qed.

Lemma ex_cube_nonneg (q : Q) : 0 <= q -> 0 <= Pow q #3.
Proof.
  intros Hq. simpl.
  change (Q_to_int (Qred 3)) with 3%Z.
  rewrite Qred_correct. simpl.
  repeat apply Qmult_le_0_compat; exact Hq.
Qed.

(** X15: in exact arithmetic, at an iterate with [X > 0] and [S > 0] of a
    problem with a variable, the duality measure [μ] is positive (the
    division [μaff/μ] is by a positive number), the affine trial point
    [X[i] - αpa*Mdx[i]], [S[i] - αda*Mds[i]] is not negative in any entry,
    and so [μaff >= 0] and the centring parameter [σ = (μaff/μ)³ >= 0]. *)
Theorem centring_nonneg o :
  wf o -> positive o -> (0 < o.(Nx))%nat ->
  0 < mu_at o /\
  (forall i, (i < o.(Nx))%nat ->
     0 <= sget o.(Y) o.(X) i ⊖
            fst (affine_steps o) ⊗ sget o.(Mdy) o.(Mdx) i /\
     0 <= sget o.(Y) o.(S) i ⊖
            snd (affine_steps o) ⊗ sget o.(Mdy) o.(Mds) i) /\
  0 <= mu_affine o /\
  0 <= sigma o (mu_at o).
Proof.
  intros Hwf Hpos Hn.
  assert (Hμ : 0 < mu_at o).
  { unfold mu_at. rewrite ex_div. apply ex_div_pos.
    - apply ex_sum_pos; [exact Hn|]. intros i Hi.
      destruct (positive_Q o i Hpos Hi) as [HXi HSi].
      rewrite ex_mul. apply Qmult_lt_0_compat; assumption.
    - apply ex_of_nat_pos, Hn. }
  assert (Htrial : forall i, (i < o.(Nx))%nat ->
            0 <= sget o.(Y) o.(X) i ⊖
                   fst (affine_steps o) ⊗ sget o.(Mdy) o.(Mdx) i /\
            0 <= sget o.(Y) o.(S) i ⊖
                   snd (affine_steps o) ⊗ sget o.(Mdy) o.(Mds) i).
  { unfold affine_steps. rewrite calc_min_ratios_split. cbn [fst snd].
    destruct (ratio_loop_bound (sget o.(Y) o.(X)) (sget o.(Mdy) o.(Mdx))
                o.(Nx)) as [Hx0 Hxb];
      [intros i Hi; apply (positive_Q o i Hpos Hi)|].
    destruct (ratio_loop_bound (sget o.(Y) o.(S)) (sget o.(Mdy) o.(Mds))
                o.(Nx)) as [Hs0 Hsb];
      [intros i Hi; apply (positive_Q o i Hpos Hi)|].
    intros i Hi. destruct (positive_Q o i Hpos Hi) as [HXi HSi].
    split; apply ex_trial_nonneg; auto. }
  assert (Haff : 0 <= mu_affine o).
  { unfold mu_affine. rewrite ex_div.
    apply Qle_shift_div_l; [apply ex_of_nat_pos, Hn|].
    rewrite Qmult_0_l. apply ex_sum_nonneg. intros i Hi.
    destruct (Htrial i Hi) as [Hx Hs].
    rewrite ex_mul. apply Qmult_le_0_compat; assumption. }
  split; [exact Hμ|]. split; [exact Htrial|]. split; [exact Haff|].
  unfold sigma. apply ex_cube_nonneg. rewrite ex_div.
  apply Qle_shift_div_l; [exact Hμ|]. lra.
Qed.

(** *** The convergence test in exact arithmetic *)

Lemma ex_rel_err_nonneg (ctx btl : Q) : 0 <= rel_err ctx btl.
Proof.
  unfold rel_err. rewrite ex_div, ex_add, ex_lit.
  change (@Abs Q exact) with Qabs.
  pose proof (Qabs_nonneg ctx). pose proof (Qabs_nonneg (ctx ⊖ btl)).
  apply Qle_shift_div_l; lra.
Qed.

(** X16: in exact arithmetic the relative error is never negative, so with
    a tolerance [Tol <= 0] the test [lerr < Tol] never holds: once the
    loop is entered ([NmaxIt >= 0]), [Solve] returns an error, whatever
    the problem. *)
Theorem nonpositive_tolerance_never_converges o verbose o1 :
  o.(Tol) <= 0 -> (0 <= o.(NmaxIt))%Z ->
  starting_point o = Some o1 ->
  exists o' e, Solve o verbose = (o', Returned (Some e)).
Proof.
  intros Htol Hn Hs.
  destruct (Solve_inv o verbose o1 Hs)
    as (k & o2 & o' & it' & ex & _ & Hp & Hk & Hit' & Hex & _ & HS).
  rewrite HS. destruct ex as [| |e].
  - destruct Hex as [Hkn ->].
    destruct (Z.eqb_spec it' o.(NmaxIt)) as [E|NE]; [|lia].
    eexists _, _. reflexivity.
  - exfalso. destruct Hex as [_ Hbr].
    apply iteration_Break_test in Hbr as [Ht _].
    apply Q_ltb_lt in Ht.
    pose proof (ex_rel_err_nonneg (ctx_at o2) (btl_at o2)) as H0.
    assert (HT : o2.(Tol) = o.(Tol)).
    { pose proof (frame_starting_point _ _ Hs) as Hf1.
      pose proof (frame_full_passes _ _ _ _ Hp) as Hf2.
      rewrite Hf2, Hf1. reflexivity. }
    rewrite HT in Ht. lra.
  - eexists _, _. reflexivity.
Qed.

End ExactMore.

(** ** Releasing the linear solver *)

Section Release.
Context {F : Type} {FF : Float64 F} {LA : LinAlg F} {LF : LinSolFree F}.

(** [Free] touches the linear solver only: what [Solve] left in [X], [L],
    [S] stays readable. *)
Lemma Free_same_iterate (o : LinIpm) : same_iterate o (Free o).
Proof. apply same_iterate_set_Lis. Qed.

(** With the calls recorded, [Free] is one call of [Free] of the linear
    solver. *)
Lemma Free_recorded (o : LinIpm (LA:=recorded LA)) :
  calls (record_of LA) (Free (LF:=recorded_free LA LF) o) =
  calls (record_of LA) o ++ [CallFree].
Proof. reflexivity. Qed.

End Release.

(** ** The properties on the concrete problems *)

#[local] Existing Instance F_inhabited.

Lemma vertex_start_eq nmaxit :
  starting_point (vertex_problem nmaxit) = Some (vertex_start nmaxit).
Proof.
  unfold vertex_start.
  destruct (starting_point_Some (vertex_problem nmaxit)) as [o1 ->];
    [simpl; lia..|reflexivity].
Qed.

Lemma vertex_first_pass :
  full_passes 1 0 (vertex_start 1) (vertex_pass1 1).
Proof.
  apply full_passes_S with (o' := vertex_pass1 1);
    [vm_compute; reflexivity|apply full_passes_O].
Qed.

(** C1 (the code departs from the claim).  In the first pass of [Solve]
    on [unbounded_problem], no entry of [Mdx] is positive, neither after
    the first solve nor after the second; [calc_min_ratios] returns for
    [xrmin] the zero value it starts with, so the primal step length is
    [min(1, 0) = 0] in the affine test and [min(1, 0.99*0) = 0] in the
    final test, where the claim has 1, and the pass leaves [X] where it
    was.  In [no_ratio_state], where no entry of [Mdx] or of [Mds] is
    positive, both step lengths are 0 in both tests. *)
Theorem no_ratio_gives_zero_step :
  (starting_point unbounded_problem = Some unbounded_start /\
   iteration false false 0 unbounded_start =
     (step unbounded_corrected, Continue) /\
   forallb (fun i => negb (#0 ≺ sget unbounded_affine.(Mdy)
                                   unbounded_affine.(Mdx) i))
           (seq 0 unbounded_affine.(Nx)) = true /\
   fst (calc_min_ratios unbounded_affine) = 0%float /\
   fst (affine_steps unbounded_affine) = 0%float /\
   forallb (fun i => negb (#0 ≺ sget unbounded_corrected.(Mdy)
                                   unbounded_corrected.(Mdx) i))
           (seq 0 unbounded_corrected.(Nx)) = true /\
   fst (calc_min_ratios unbounded_corrected) = 0%float /\
   min #1 (#0.99 ⊗ fst (calc_min_ratios unbounded_corrected)) = 0%float /\
   sread (step unbounded_corrected).(Y) (step unbounded_corrected).(X) =
     sread unbounded_start.(Y) unbounded_start.(X)) /\
  (forallb (fun i => negb (#0 ≺ sget no_ratio_state.(Mdy)
                                   no_ratio_state.(Mdx) i)
                     && negb (#0 ≺ sget no_ratio_state.(Mdy)
                                      no_ratio_state.(Mds) i))
           (seq 0 no_ratio_state.(Nx)) = true /\
   calc_min_ratios no_ratio_state = (0%float, 0%float) /\
   affine_steps no_ratio_state = (0%float, 0%float) /\
   min #1 (#0.99 ⊗ fst (calc_min_ratios no_ratio_state)) = 0%float /\
   min #1 (#0.99 ⊗ snd (calc_min_ratios no_ratio_state)) = 0%float /\
   (step no_ratio_state).(Y) = no_ratio_state.(Y)).
Proof. evaluate. Qed.

(** C2 fails as stated: on [degenerate_problem] the starting point is
    [X = (0, 1)], [S = (1, 0)], and [Solve] returns it without error. *)
Lemma starting_point_not_positive :
  let r := Solve degenerate_problem false in
  option_map (fun o => sread o.(Y) o.(X)) (starting_point degenerate_problem)
    = Some [0; 1]%float /\
  option_map (fun o => sread o.(Y) o.(S)) (starting_point degenerate_problem)
    = Some [1; 0]%float /\
  snd r = Returned None /\
  sread (fst r).(Y) (fst r).(X) = [0; 1]%float /\
  (#0 ≺ sget (fst r).(Y) (fst r).(X) 0) = false.
Proof. evaluate. Qed.

(** In binary64 the update itself can reach the boundary: from
    [X[0] = 2^-1074 > 0] against [Mdx[0] = 1] the safeguarded step is
    rounded to [2^-1074] and [X[0]] becomes 0. *)
Lemma step_rounds_to_zero :
  (#0 ≺ sget tiny_state.(Y) tiny_state.(X) 0) = true /\
  (#0 ≺ sget tiny_state.(Y) tiny_state.(S) 0) = true /\
  sget (step tiny_state).(Y) (step tiny_state).(X) 0 = 0%float.
Proof. evaluate. Qed.

Lemma positivity_in_exact_arithmetic_witness :
  exists o1,
    starting_point vertex_problem_exact = Some o1 /\
    (forall n o2, full_passes n 0 o1 o2 -> positive o2) /\
    (forall verbose, positive (fst (Solve vertex_problem_exact verbose))).
Proof.
  apply positivity_in_exact_arithmetic;
    [apply Init_wf|simpl; lia|vm_compute; reflexivity].
Defined.

Lemma convergence_is_objective_gap_witness :
  (snd (iteration false false (Z.of_nat 1) (vertex_pass1 50)) = Break <->
   (rel_err (ctx_at (vertex_pass1 50)) (btl_at (vertex_pass1 50)) ≺
    (vertex_pass1 50).(Tol)) = true) /\
  ((rel_err (ctx_at (vertex_pass1 50)) (btl_at (vertex_pass1 50)) ≺
    (vertex_pass1 50).(Tol)) = true ->
   Solve (vertex_problem 50) false =
   (fst (fst (fst (residual (vertex_pass1 50)))), Returned None)).
Proof.
  apply (convergence_is_objective_gap (vertex_problem 50) false
           (vertex_start 50) 1 (vertex_pass1 50)).
  - apply vertex_start_eq.
  - apply full_passes_S with (o' := vertex_pass1 50);
      [vm_compute; reflexivity|apply full_passes_O].
  - vm_compute. reflexivity.
Defined.

Lemma Solve_iterations_exhausted_witness :
  (Solve (vertex_problem 1) false =
     (vertex_pass1 1, Returned (Some "iterations did not converge")) /\
   ((vertex_problem 1).(NmaxIt) = 0%Z ->
    vertex_pass1 1 = vertex_start 1 /\
    (vertex_pass1 1).(R) = (vertex_problem 1).(R) /\
    (vertex_pass1 1).(Mdy) = (vertex_problem 1).(Mdy) /\
    (vertex_pass1 1).(J) = (vertex_problem 1).(J) /\
    (vertex_pass1 1).(Lis) = (vertex_problem 1).(Lis))) /\
  (Solve (vertex_problem 0) false =
     (vertex_start 0, Returned (Some "iterations did not converge")) /\
   ((vertex_problem 0).(NmaxIt) = 0%Z ->
    vertex_start 0 = vertex_start 0 /\
    (vertex_start 0).(R) = (vertex_problem 0).(R) /\
    (vertex_start 0).(Mdy) = (vertex_problem 0).(Mdy) /\
    (vertex_start 0).(J) = (vertex_problem 0).(J) /\
    (vertex_start 0).(Lis) = (vertex_problem 0).(Lis))).
Proof.
  split.
  - apply (Solve_iterations_exhausted (vertex_problem 1) false
             (vertex_start 1) (vertex_pass1 1)).
    + apply vertex_start_eq.
    + vm_compute. discriminate.
    + exact vertex_first_pass.
  - apply (Solve_iterations_exhausted (vertex_problem 0) false
             (vertex_start 0) (vertex_start 0)).
    + apply vertex_start_eq.
    + vm_compute. discriminate.
    + apply full_passes_O.
Defined.

(** C5 fails as stated: [Init] returns a solver for a problem without
    variables or without constraints, and nothing reports the degenerate
    dimensions: [Solve] then panics at [o.X[0]] when [Nx = 0] and, when
    only [Nl = 0], goes on to the convergence test and returns no
    error. *)
Lemma Init_accepts_zero_dimensions :
  empty_problem.(Nx) = 0 /\ empty_problem.(Nl) = 0 /\
  empty_problem.(Y) = [] /\
  snd (Solve empty_problem false) = Panicked "index out of range" /\
  unconstrained_problem.(Nx) = 1 /\ unconstrained_problem.(Nl) = 0 /\
  unconstrained_problem.(Y) = [0; 0]%float /\
  snd (Solve unconstrained_problem false) = Returned None.
Proof. evaluate. Qed.

(** C6 fails as stated: a configuration that supplies [tol = 0.001]
    leaves [Tol] at 1e-8. *)
Lemma Init_ignores_tol :
  supplied "tol" [{| N := "tol"; V := 0.001%float |}] = Some 0.001%float /\
  tol_problem.(Tol) = 1e-8%float /\
  (tol_problem.(Tol) ≺ 0.001%float) = true.
Proof. evaluate. Qed.

Lemma starting_point_shifts_witness :
  let o := vertex_problem 50 in
  let o0 := starting_la o in
  let δx1 := max (#(-1.5) ⊗ min_over o.(Nx) (sget o0.(Y) o0.(X))) #0 in
  let δs1 := max (#(-1.5) ⊗ min_over o.(Nx) (sget o0.(Y) o0.(S))) #0 in
  let x1 := fun i => sget o0.(Y) o0.(X) i ⊕ δx1 in
  let s1 := fun i => sget o0.(Y) o0.(S) i ⊕ δs1 in
  let xdots := sum_over o.(Nx) (fun i => x1 i ⊗ s1 i) in
  let δx2 := #0.5 ⊗ xdots ⊘ sum_over o.(Nx) s1 in
  let δs2 := #0.5 ⊗ xdots ⊘ sum_over o.(Nx) x1 in
  exists o1,
    starting_point o = Some o1 /\
    (forall i, i < o.(Nx) ->
       sget o1.(Y) o1.(X) i = x1 i ⊕ δx2 /\
       sget o1.(Y) o1.(S) i = s1 i ⊕ δs2) /\
    (forall j, j < o.(Nl) ->
       sget o1.(Y) o1.(L) j = sget o0.(Y) o0.(L) j) /\
    o1 = set_Y o o1.(Y).
Proof.
  apply (starting_point_shifts (vertex_problem 50));
    [apply Init_wf|simpl; lia].
Defined.

Lemma vertex_pass1_wf : wf (vertex_pass1 1).
Proof.
  apply (wf_full_passes _ _ _ _ vertex_first_pass).
  apply (wf_starting_point (vertex_problem 1));
    [apply Init_wf|apply vertex_start_eq].
Qed.

Lemma corrector_updates_Rs_only_witness :
  let o := vertex_pass1 1 in
  let μ := 0.5%float in
  let o' := corrector o μ in
  (forall i, i < o.(Nx) ->
     sget o'.(R) o'.(Rs) i =
     sget o.(R) o.(Rs) i ⊕
     (sget o.(Mdy) o.(Mdx) i ⊗ sget o.(Mdy) o.(Mds) i ⊖ sigma o μ ⊗ μ) /\
     sget o'.(R) o'.(Rx) i = sget o.(R) o.(Rx) i) /\
  (forall j, j < o.(Nl) -> sget o'.(R) o'.(Rl) j = sget o.(R) o.(Rl) j) /\
  o' = set_R o o'.(R).
Proof.
  apply (corrector_updates_Rs_only (vertex_pass1 1) 0.5%float).
  exact vertex_pass1_wf.
Defined.

Lemma step_update_witness :
  let o := vertex_pass1 1 in
  let αpa := min #1 (#0.99 ⊗ fst (calc_min_ratios o)) in
  let αda := min #1 (#0.99 ⊗ snd (calc_min_ratios o)) in
  let o' := step o in
  (forall i, i < o.(Nx) ->
     sget o'.(Y) o'.(X) i =
       sget o.(Y) o.(X) i ⊖ αpa ⊗ sget o.(Mdy) o.(Mdx) i /\
     sget o'.(Y) o'.(S) i =
       sget o.(Y) o.(S) i ⊖ αda ⊗ sget o.(Mdy) o.(Mds) i) /\
  (forall j, j < o.(Nl) ->
     sget o'.(Y) o'.(L) j =
       sget o.(Y) o.(L) j ⊖ αda ⊗ sget o.(Mdy) o.(Mdl) j) /\
  o' = set_Y o o'.(Y).
Proof.
  apply (step_update (vertex_pass1 1)). exact vertex_pass1_wf.
Defined.

Lemma Solve_negative_nmaxit_witness :
  let o := vertex_problem (-1) in
  exists o1,
    starting_point o = Some o1 /\
    Solve o false = (o1, Returned None) /\
    iterations false false (Z.to_nat o.(NmaxIt)) 0 o1 = (o1, 0%Z, Fell) /\
    o1.(R) = o.(R) /\ o1.(Mdy) = o.(Mdy) /\
    o1.(J) = o.(J) /\ o1.(Lis) = o.(Lis).
Proof.
  apply (Solve_negative_nmaxit (LA:=dense_la) [[1; 1]]%float [4]%float
           [-1; -2]%float [{| N := "nmaxit"; V := (-1)%float |}]
           (-1)%float false).
  - reflexivity.
  - vm_compute. reflexivity.
  - simpl. lia.
Defined.

Lemma pass_structure_witness :
  exists o2 o3 o4,
    same_iterate (vertex_start 1) o2 /\
    solve_system o2 = (o3, None) /\
    solve_system (corrector o3 (mu_at (vertex_start 1))) = (o4, None) /\
    same_iterate (vertex_start 1) o4 /\
    vertex_pass1 1 = step o4.
Proof.
  apply (pass_structure false false 0 (vertex_start 1) (vertex_pass1 1)).
  - apply (wf_starting_point (vertex_problem 1));
      [apply Init_wf|apply vertex_start_eq].
  - vm_compute. reflexivity.
Defined.

Lemma Solve_keeps_layout_witness :
  wf (fst (Solve (vertex_problem 50) false)).
Proof. apply Solve_keeps_layout, Init_wf. Defined.

Lemma xrmin_zero_value_witness :
  fst (calc_min_ratios unbounded_affine) = #0.
Proof.
  apply xrmin_zero_value. intros i Hi.
  change (Nx unbounded_affine) with 2 in Hi.
  destruct i as [|[|i]]; [vm_compute; reflexivity..|lia].
Defined.

Lemma Solve_success_sound_witness :
  ((vertex_problem 50).(NmaxIt) < 0)%Z /\ vertex_solved = vertex_start 50 \/
  (exists n o2,
     full_passes n 0 (vertex_start 50) o2 /\
     (Z.of_nat n < (vertex_problem 50).(NmaxIt))%Z /\
     vertex_solved = fst (fst (fst (residual o2))) /\
     (rel_err (ctx_at vertex_solved) (btl_at vertex_solved) ≺
      vertex_solved.(Tol)) = true).
Proof.
  apply (Solve_success_sound (vertex_problem 50) false).
  - apply vertex_start_eq.
  - vm_compute. reflexivity.
Defined.

Lemma Solve_error_origin_witness :
  (exists n o2,
     full_passes n 0 (vertex_start 1) o2 /\
     ((Z.of_nat n = (vertex_problem 1).(NmaxIt) /\
       "iterations did not converge" = "iterations did not converge" /\
       vertex_pass1 1 = o2) \/
      ((Z.of_nat n < (vertex_problem 1).(NmaxIt))%Z /\
       iteration false false (Z.of_nat n) o2 =
         (vertex_pass1 1, Return "iterations did not converge") /\
       (vertex_pass1 1).(Y) = o2.(Y)))) /\
  (exists n o2,
     full_passes n 0 singular_start o2 /\
     ((Z.of_nat n = singular_problem.(NmaxIt) /\
       "singular matrix" = "iterations did not converge" /\
       fst (Solve singular_problem false) = o2) \/
      ((Z.of_nat n < singular_problem.(NmaxIt))%Z /\
       iteration false false (Z.of_nat n) o2 =
         (fst (Solve singular_problem false), Return "singular matrix") /\
       (fst (Solve singular_problem false)).(Y) = o2.(Y)))).
Proof.
  split.
  - apply (Solve_error_origin (vertex_problem 1) false);
      [apply Init_wf|apply vertex_start_eq|vm_compute; reflexivity].
  - apply (Solve_error_origin singular_problem false);
      [apply Init_wf|vm_compute; reflexivity|vm_compute; reflexivity].
Defined.

Lemma Solve_whole_passes_witness :
  exists k o2,
    full_passes k 0 (vertex_start 50) o2 /\
    (Z.of_nat k <= Z.max 0 (vertex_problem 50).(NmaxIt))%Z /\
    (fst (Solve (vertex_problem 50) false)).(Y) = o2.(Y).
Proof.
  apply (Solve_whole_passes (vertex_problem 50) false);
    [apply Init_wf|apply vertex_start_eq].
Defined.

Lemma windows_tile_witness :
  let o := vertex_pass1 1 in
  sread o.(Y) o.(X) ++ sread o.(Y) o.(L) ++ sread o.(Y) o.(S) = o.(Y) /\
  sread o.(Mdy) o.(Mdx) ++ sread o.(Mdy) o.(Mdl) ++ sread o.(Mdy) o.(Mds)
    = o.(Mdy) /\
  sread o.(R) o.(Rx) ++ sread o.(R) o.(Rl) ++ sread o.(R) o.(Rs) = o.(R).
Proof. apply (windows_tile (vertex_pass1 1)), vertex_pass1_wf. Defined.

Lemma window_write_read_witness :
  let o := vertex_pass1 1 in
  let v := 7%float in
  (forall i, i < o.(Nx) ->
     let y := sset o.(Y) o.(X) i v in
     y !!! i = v /\
     sread y o.(X) = <[i := v]> (sread o.(Y) o.(X)) /\
     sread y o.(L) = sread o.(Y) o.(L) /\
     sread y o.(S) = sread o.(Y) o.(S)) /\
  (forall j, j < o.(Nl) ->
     let y := sset o.(Y) o.(L) j v in
     y !!! (o.(Nx) + j) = v /\
     sread y o.(X) = sread o.(Y) o.(X) /\
     sread y o.(L) = <[j := v]> (sread o.(Y) o.(L)) /\
     sread y o.(S) = sread o.(Y) o.(S)) /\
  (forall i, i < o.(Nx) ->
     let y := sset o.(Y) o.(S) i v in
     y !!! (o.(Nx) + o.(Nl) + i) = v /\
     sread y o.(X) = sread o.(Y) o.(X) /\
     sread y o.(L) = sread o.(Y) o.(L) /\
     sread y o.(S) = <[i := v]> (sread o.(Y) o.(S))).
Proof.
  apply (window_write_read (vertex_pass1 1) 7%float), vertex_pass1_wf.
Defined.

Lemma residual_values_witness :
  let o := vertex_pass1 1 in
  let rx := SpMatTrVecMul (sread o.(R) o.(Rx)) #1 o.(A)
              (sread o.(Y) o.(L)) in
  let rl := SpMatVecMul (sread o.(R) o.(Rl)) #1 o.(A)
              (sread o.(Y) o.(X)) in
  let o' := fst (fst (fst (residual o))) in
  residual o = (o', ctx_at o, btl_at o, mu_at o) /\
  o' = set_R o o'.(R) /\
  (forall i, i < o.(Nx) ->
     sget o'.(R) o'.(Rx) i =
       rx !!! i ⊕ (sget o.(Y) o.(S) i ⊖ o.(C) !!! i) /\
     sget o'.(R) o'.(Rs) i = sget o.(Y) o.(X) i ⊗ sget o.(Y) o.(S) i) /\
  (forall j, j < o.(Nl) ->
     sget o'.(R) o'.(Rl) j = rl !!! j ⊖ o.(B) !!! j).
Proof.
  apply (residual_values (vertex_pass1 1));
    [apply vertex_pass1_wf|vm_compute; reflexivity..].
Defined.

Lemma ratio_is_candidate_witness :
  (exists k, k < (vertex_pass1 1).(Nx) /\
     (#0 ≺ sget (vertex_pass1 1).(Mdy) (vertex_pass1 1).(Mdx) k) = true /\
     fst (calc_min_ratios (vertex_pass1 1)) =
       sget (vertex_pass1 1).(Y) (vertex_pass1 1).(X) k ⊘
       sget (vertex_pass1 1).(Mdy) (vertex_pass1 1).(Mdx) k) /\
  (exists k, k < (vertex_pass1 1).(Nx) /\
     (#0 ≺ sget (vertex_pass1 1).(Mdy) (vertex_pass1 1).(Mds) k) = true /\
     snd (calc_min_ratios (vertex_pass1 1)) =
       sget (vertex_pass1 1).(Y) (vertex_pass1 1).(S) k ⊘
       sget (vertex_pass1 1).(Mdy) (vertex_pass1 1).(Mds) k).
Proof.
  destruct (ratio_is_candidate (vertex_pass1 1)) as [Hx Hs].
  split; [apply Hx|apply Hs].
  - exists 0. split; [vm_compute; lia|vm_compute; reflexivity].
  - exists 0. split; [vm_compute; lia|vm_compute; reflexivity].
Defined.

Lemma exact_state_wf : wf exact_state.
Proof. split; reflexivity. Qed.

Lemma exact_state_positive : positive exact_state.
Proof.
  intros i Hi. change (i < 2) in Hi.
  destruct i as [|[|i]]; [split; reflexivity..|lia].
Qed.

Lemma ratio_is_least_witness :
  ((0 < sget exact_state.(Mdy) exact_state.(Mdx) 0)%Q ->
   (fst (calc_min_ratios exact_state) <=
    sget exact_state.(Y) exact_state.(X) 0 /
    sget exact_state.(Mdy) exact_state.(Mdx) 0)%Q) /\
  ((0 < sget exact_state.(Mdy) exact_state.(Mds) 0)%Q ->
   (snd (calc_min_ratios exact_state) <=
    sget exact_state.(Y) exact_state.(S) 0 /
    sget exact_state.(Mdy) exact_state.(Mds) 0)%Q).
Proof. apply (ratio_is_least exact_state 0). vm_compute. lia. Defined.

Lemma step_keeps_fraction_witness :
  let o := exact_state in
  let αpa := min #1 (#0.99 ⊗ fst (calc_min_ratios o)) in
  let αda := min #1 (#0.99 ⊗ snd (calc_min_ratios o)) in
  let o' := step o in
  ((0 <= αpa)%Q /\ (αpa <= 1)%Q) /\ ((0 <= αda)%Q /\ (αda <= 1)%Q) /\
  forall i, (i < o.(Nx))%nat ->
    (0.01 * sget o.(Y) o.(X) i <= sget o'.(Y) o'.(X) i)%Q /\
    (0.01 * sget o.(Y) o.(S) i <= sget o'.(Y) o'.(S) i)%Q.
Proof.
  apply (step_keeps_fraction exact_state);
    [apply exact_state_wf|apply exact_state_positive].
Defined.

Lemma centring_nonneg_witness :
  let o := exact_state in
  (0 < mu_at o)%Q /\
  (forall i, (i < o.(Nx))%nat ->
     (0 <= sget o.(Y) o.(X) i ⊖
             fst (affine_steps o) ⊗ sget o.(Mdy) o.(Mdx) i)%Q /\
     (0 <= sget o.(Y) o.(S) i ⊖
             snd (affine_steps o) ⊗ sget o.(Mdy) o.(Mds) i)%Q) /\
  (0 <= mu_affine o)%Q /\
  (0 <= sigma o (mu_at o))%Q.
Proof.
  apply (centring_nonneg exact_state);
    [apply exact_state_wf|apply exact_state_positive|vm_compute; lia].
Defined.

Lemma nonpositive_tolerance_never_converges_witness :
  exists o' e, Solve zero_tol_problem false = (o', Returned (Some e)).
Proof.
  destruct (starting_point_Some zero_tol_problem) as [o1 H1];
    [vm_compute; lia..|].
  apply (nonpositive_tolerance_never_converges zero_tol_problem false o1);
    [vm_compute; discriminate|vm_compute; discriminate|exact H1].
Defined.

Lemma starting_la_values_witness :
  let o := vertex_problem 50 in
  let AAt := SpMatMatTrMul (MatAlloc o.(Nl) o.(Nl)) #1 o.(A) in
  let e := SpMatVecMul (make o.(Nl)) #1 o.(A) o.(C) in
  let d := fst (SPDsolve2 (make o.(Nl)) (sread o.(Y) o.(L)) AAt o.(B) e) in
  let l := snd (SPDsolve2 (make o.(Nl)) (sread o.(Y) o.(L)) AAt o.(B) e) in
  let x := SpMatTrVecMul (sread o.(Y) o.(X)) #1 o.(A) d in
  let s0 := VecCopy (sread o.(Y) o.(S)) #1 o.(C) in
  let s := SpMatTrVecMulAdd s0 #(-1) o.(A) l in
  let o' := starting_la o in
  sread o'.(Y) o'.(X) = x /\ sread o'.(Y) o'.(L) = l /\
  sread o'.(Y) o'.(S) = s /\ o'.(Y) = x ++ l ++ s /\
  o' = set_Y o o'.(Y).
Proof.
  apply (starting_la_values (vertex_problem 50));
    [apply Init_wf|vm_compute; reflexivity..].
Defined.


(** C8: in the first pass of [Solve] on the unbounded problem the affine
    direction has no positive entry in [Mdx]: the ratio test of the
    specification has no candidate and its primal step length is 1, the
    code takes [min(1, 0) = 0]; so [μaff], [σ] and with them every
    [Rs[i]] that the corrector writes differ from the specified ones. *)
Theorem corrector_diverges_without_ratio :
  let o := unbounded_affine in
  let μ := snd (residual unbounded_start) in
  starting_point unbounded_problem = Some unbounded_start /\
  iteration false false 0 unbounded_start =
    (step (fst (solve_system (corrector o μ))), Continue) /\
  forallb (fun i => negb (#0 ≺ sget o.(Mdy) o.(Mdx) i)) (seq 0 o.(Nx))
    = true /\
  xrmin_spec o = None /\
  affine_length (xrmin_spec o) = 1%float /\
  fst (affine_steps o) = 0%float /\
  PrimFloat.ltb (sigma o μ) (sigma_spec o μ) = true /\
  forallb (fun i =>
             PrimFloat.ltb (Rs_spec o μ i)
               (sget (corrector o μ).(R) (corrector o μ).(Rs) i))
          (seq 0 o.(Nx)) = true.
Proof. evaluate. Qed.

(** C9: in the same pass the corrected direction has no positive entry in
    [Mdx] either: the final ratio test of the specification has no
    candidate and gives the primal step length 1, the code takes
    [min(1, 0.99*0) = 0], and the update leaves [X] where it was instead
    of moving every [X[i]] by [Mdx[i]]. *)
Theorem update_diverges_without_ratio :
  let o := unbounded_corrected in
  iteration false false 0 unbounded_start = (step o, Continue) /\
  forallb (fun i => negb (#0 ≺ sget o.(Mdy) o.(Mdx) i)) (seq 0 o.(Nx))
    = true /\
  xrmin_spec o = None /\
  final_length (xrmin_spec o) = 1%float /\
  min #1 (#0.99 ⊗ fst (calc_min_ratios o)) = 0%float /\
  sread (step o).(Y) (step o).(X) = sread o.(Y) o.(X) /\
  forallb (fun i =>
             PrimFloat.ltb (sget (step o).(Y) (step o).(X) i) (X_spec o i))
          (seq 0 o.(Nx)) = true.
Proof. evaluate. Qed.

(** C10: a negative [nmaxit] above -1 is truncated to 0 by [int(p.V)]:
    the loop is skipped, [it == o.NmaxIt] holds and [Solve] returns
    "iterations did not converge". *)
Lemma Solve_fractional_negative_nmaxit :
  ((-0.5)%float ≺ #0) = true /\
  (vertex_problem (-0.5)).(NmaxIt) = 0%Z /\
  snd (Solve (vertex_problem (-0.5)) false) =
    Returned (Some "iterations did not converge").
Proof. evaluate. Qed.

Lemma corrector_as_specified_witness :
  let o := vertex_pass1 1 in
  let μ := 0.5%float in
  let o' := corrector o μ in
  o' = set_R o o'.(R) /\
  (forall i, i < o.(Nx) -> sget o'.(R) o'.(Rx) i = sget o.(R) o.(Rx) i) /\
  (forall j, j < o.(Nl) -> sget o'.(R) o'.(Rl) j = sget o.(R) o.(Rl) j) /\
  (forall i, i < o.(Nx) -> sget o'.(R) o'.(Rs) i = Rs_spec o μ i).
Proof.
  destruct (corrector_as_specified (vertex_pass1 1) 0.5%float vertex_pass1_wf)
    as (H1 & H2 & H3 & H4).
  split; [exact H1|]. split; [exact H2|]. split; [exact H3|].
  apply H4; eexists; vm_compute; reflexivity.
Defined.

Lemma update_as_specified_witness :
  let o := vertex_pass1 1 in
  let o' := step o in
  o' = set_Y o o'.(Y) /\
  (forall i, i < o.(Nx) -> sget o'.(Y) o'.(X) i = X_spec o i) /\
  (forall i, i < o.(Nx) -> sget o'.(Y) o'.(S) i = S_spec o i) /\
  (forall j, j < o.(Nl) -> sget o'.(Y) o'.(L) j = L_spec o j).
Proof.
  destruct (update_as_specified (vertex_pass1 1) vertex_pass1_wf)
    as (H1 & H2 & H3).
  split; [exact H1|]. split; [apply H2; eexists; vm_compute; reflexivity|].
  apply H3. eexists. vm_compute. reflexivity.
Defined.
